(** * uchroma: the Reaction renderer (uchroma/fxlib/reaction.py)

    A shallow embedding of the [Reaction] effect and of the colour helpers of
    uchroma/util.py it reaches, with the properties of its fade-colour
    resolution, speed mapping, colour-change handling and frame drawing.

    Python floats are IEEE-754 binary64 values: they are modelled with the
    Standard Library's executable specification of binary64 arithmetic
    ([spec_float], precision 53, emax 1024, round to nearest even).  Python
    integers are [Z].  Objects mutated in place (the effect itself, the key
    events with their data bags, the layer, the logger) live in an explicit
    world that every method threads through a small state-and-exception
    monad. *)

From Stdlib Require Import ZArith Zpower Lia Bool List String Ascii.
From Stdlib Require Import SpecFloat.
From stdpp Require Import gmap strings list.

Open Scope Z_scope.

(** ** Python floats *)

Module PyFloat.

Definition prec : Z := 53.
Definition emax : Z := 1024.

Abbreviation float := spec_float.

Definition valid (x : float) : bool := valid_binary prec emax x.

Definition add : float -> float -> float := SFadd prec emax.
Definition sub : float -> float -> float := SFsub prec emax.
Definition mul : float -> float -> float := SFmul prec emax.
Definition div : float -> float -> float := SFdiv prec emax.
Definition eqb : float -> float -> bool := SFeqb.
Definition ltb : float -> float -> bool := SFltb.
Definition leb : float -> float -> bool := SFleb.

(** The nearest binary64 value of an integer ([float(n)], also the implicit
    conversion of the [int] operand of a mixed [int]/[float] operation).
    CPython raises [OverflowError] where this is infinite; see
    [Py.float_of_int]. *)
Definition of_Z (z : Z) : float := binary_normalize prec emax z 0 false.

(** The magnitude of a finite value [m * 2^e], rounded toward zero and
    toward minus infinity. *)
Definition trunc_mag (m : positive) (e : Z) : Z :=
  match e with
  | Zneg p => Z.pos m / 2 ^ Z.pos p
  | _ => Z.pos m * 2 ^ e
  end.

Definition ceil_mag (m : positive) (e : Z) : Z :=
  match e with
  | Zneg p => - ((- Z.pos m) / 2 ^ Z.pos p)
  | _ => Z.pos m * 2 ^ e
  end.

(** [math.floor(x)], the rounding the specification's formula names. *)
Definition floor (x : float) : option Z :=
  match x with
  | S754_zero _ => Some 0
  | S754_finite false m e => Some (trunc_mag m e)
  | S754_finite true m e => Some (- ceil_mag m e)
  | _ => None
  end.

(** Literals of the source, as the binary64 values CPython reads them. *)
Definition lit_0_15 : float := S754_finite false 5404319552844595 (-55).
Definition lit_0_16 : float := S754_finite false 5764607523034235 (-55).
Definition lit_0_25 : float := S754_finite false 4503599627370496 (-54).
Definition lit_1_0 : float := S754_finite false 4503599627370496 (-52).
Definition lit_2_25 : float := S754_finite false 5066549580791808 (-51).
Definition lit_100_0 : float := S754_finite false 7036874417766400 (-46).
Definition lit_255_0 : float := S754_finite false 8972014882652160 (-45).
Definition zero : float := S754_zero false.

(** A right shift of a mantissa that has lost no bit so far. *)
Definition exact_shift (mrs : shr_record) : bool :=
  negb (shr_r mrs || shr_s mrs).

End PyFloat.

Import PyFloat.

(** ** Exceptions and the state-and-exception monad *)

Inductive exn : Type :=
| ValueError
| OverflowError
| IndexError
| KeyError
| AttributeError
| TraitError.

(** A pure computation that may raise. *)
Definition result (A : Type) : Type := exn + A.

Module Py.

(** [float(n)] for a Python [int]. *)
Definition float_of_int (z : Z) : result float :=
  match of_Z z with
  | S754_infinity _ => inl OverflowError
  | f => inr f
  end.

(** [int(x)] for a Python [float]. *)
Definition int (x : float) : result Z :=
  match x with
  | S754_nan => inl ValueError
  | S754_infinity _ => inl OverflowError
  | S754_zero _ => inr 0
  | S754_finite s m e => inr (cond_Zopp s (trunc_mag m e))
  end.

(** The objects that meet in a membership test of this program: strings and
    key events (objects of the host, compared by identity).  [a == b] is false
    across the two classes. *)
Inductive object : Type :=
| Str (s : string)
| Event (ref : nat).

Definition eq (a b : object) : bool :=
  match a, b with
  | Str s, Str t => String.eqb s t
  | Event r, Event r' => Nat.eqb r r'
  | _, _ => false
  end.

(** [x in l] for a list [l]. *)
Definition contains (l : list object) (x : object) : bool :=
  existsb (eq x) l.

(** [l[i]] on a list: a negative index counts from the end. *)
Definition getitem {A : Type} (l : list A) (i : Z) : result A :=
  let n := Z.of_nat (length l) in
  let j := if i <? 0 then i + n else i in
  if (j <? 0) || (n <=? j) then inl IndexError
  else match l !! Z.to_nat j with
       | Some a => inr a
       | None => inl IndexError
       end.

End Py.

(** ** Colours (grapefruit.Color) and uchroma/util.py *)

(** A grapefruit colour: RGB components and alpha, floats in [0, 1]. *)
Record Color : Type := NewFromRgb {
  red : float;
  green : float;
  blue : float;
  alpha : float
}.

(** [Color.__eq__] against another colour and against a tuple of (small)
    integers; a tuple whose length is not 4 is never equal. *)
Definition Color_eq (c d : Color) : bool :=
  eqb (red c) (red d) && eqb (green c) (green d) && eqb (blue c) (blue d)
  && eqb (alpha c) (alpha d).

Definition Color_eq_tuple (c : Color) (t : list Z) : bool :=
  match t with
  | [r; g; b; a] =>
      eqb (red c) (of_Z r) && eqb (green c) (of_Z g) && eqb (blue c) (of_Z b)
      && eqb (alpha c) (of_Z a)
  | _ => false
  end.

(** [x == t] where [x] is a colour or [None]. *)
Definition opt_Color_eq_tuple (x : option Color) (t : list Z) : bool :=
  match x with
  | Some c => Color_eq_tuple c t
  | None => false
  end.

(** [old == new] on two values of a colour trait. *)
Definition opt_Color_eq (x y : option Color) : bool :=
  match x, y with
  | Some c, Some d => Color_eq c d
  | None, None => true
  | _, _ => false
  end.

(** What the colour collaborators fix and this file leaves open: grapefruit's
    table of HTML colour names, the colour and the background the colour
    library chooses when none is given, and the default value of a
    [ColorTrait] (uchroma/traits.py). *)
Class ColorLibrary : Type := {
  NAMED_COLOR : gmap string string;
  default_color : Color;
  default_base : Color -> Color;
  trait_default : option Color
}.

Module Html.

(** The ASCII characters [str.strip] removes and [str.lower] changes. *)
Definition is_space (c : ascii) : bool :=
  let n := nat_of_ascii c in
  (n =? 32)%nat || ((9 <=? n)%nat && (n <=? 13)%nat)
  || ((28 <=? n)%nat && (n <=? 31)%nat).

Definition lower_ascii (c : ascii) : ascii :=
  let n := nat_of_ascii c in
  if (65 <=? n)%nat && (n <=? 90)%nat then ascii_of_nat (n + 32) else c.

Fixpoint lower (s : string) : string :=
  match s with
  | EmptyString => EmptyString
  | String c s' => String (lower_ascii c) (lower s')
  end.

Fixpoint lstrip (s : string) : string :=
  match s with
  | String c s' => if is_space c then lstrip s' else s
  | EmptyString => EmptyString
  end.

Fixpoint rstrip (s : string) : string :=
  match s with
  | EmptyString => EmptyString
  | String c s' =>
      match rstrip s' with
      | EmptyString => if is_space c then EmptyString else String c EmptyString
      | t => String c t
      end
  end.

Definition strip (s : string) : string := rstrip (lstrip s).

Definition hex_digit (c : ascii) : option Z :=
  let n := Z.of_nat (nat_of_ascii c) in
  if (48 <=? n) && (n <=? 57) then Some (n - 48)
  else if (97 <=? n) && (n <=? 102) then Some (n - 87)
  else if (65 <=? n) && (n <=? 70) then Some (n - 55)
  else None.

(** The ASCII characters [int] skips around a number. *)
Definition is_blank (c : ascii) : bool :=
  let n := nat_of_ascii c in
  (n =? 32)%nat || ((9 <=? n)%nat && (n <=? 13)%nat).

(** [int(n, 16)] on a piece of two characters: two hexadecimal digits, or
    one digit with a sign before it or a blank beside it. *)
Definition int16 (hi lo : ascii) : result Z :=
  match hex_digit hi, hex_digit lo with
  | Some h, Some l => inr (16 * h + l)
  | None, Some l =>
      if is_blank hi || Ascii.eqb hi "+" then inr l
      else if Ascii.eqb hi "-" then inr (- l)
      else inl ValueError
  | Some h, None => if is_blank lo then inr h else inl ValueError
  | None, None => inl ValueError
  end.

Definition channel (hi lo : ascii) : result float :=
  match int16 hi lo with
  | inr n => inr (div (of_Z n) lit_255_0)
  | inl e => inl e
  end.

(** grapefruit's [Color.HtmlToRgb] followed by [Color.NewFromHtml]: a colour
    name or a hexadecimal code of 3 or 6 digits, with or without [#]. *)
Definition NewFromHtml `{ColorLibrary} (html : string) : result Color :=
  let html := lower (strip html) in
  let code :=
    match html with
    | String "#" rest => rest
    | _ => match NAMED_COLOR !! html with
           | Some (String _ rest) => rest
           | Some EmptyString => EmptyString
           | None => html
           end
    end in
  if String.eqb html EmptyString then inl IndexError else
  let rgb :=
    match code with
    | String a (String b (String c (String d (String e (String f EmptyString))))) =>
        Some (a, b, c, d, e, f)
    | String a (String b (String c EmptyString)) => Some (a, a, b, b, c, c)
    | _ => None
    end in
  match rgb with
  | Some (a, b, c, d, e, f) =>
      match channel a b, channel c d, channel e f with
      | inr r, inr g, inr bl => inr (NewFromRgb r g bl lit_1_0)
      | inl x, _, _ => inl x
      | _, inl x, _ => inl x
      | _, _, inl x => inl x
      end
  | None => inl ValueError
  end.

End Html.

(** The colour arguments this effect passes around: [None], a colour object or
    an HTML string. *)
Inductive colorarg : Type :=
| ArgNone
| ArgColor (c : Color)
| ArgStr (s : string).

Definition arg_of_color (x : option Color) : colorarg :=
  match x with
  | Some c => ArgColor c
  | None => ArgNone
  end.

(** util.py, [to_color], on those arguments. *)
Definition to_color `{ColorLibrary} (arg : colorarg) : result (option Color) :=
  match arg with
  | ArgNone => inr None
  | ArgColor c => inr (Some c)
  | ArgStr s =>
      match Html.NewFromHtml s with
      | inr c => inr (Some c)
      | inl e => inl e
      end
  end.

Module ColorUtils.

(** One step of a linear blend: [a + (b - a) * t], per component. *)
Definition mix (a b : Color) (t : float) : Color :=
  let f (x y : float) := add x (mul (sub y x) t) in
  NewFromRgb (f (red a) (red b)) (f (green a) (green b))
    (f (blue a) (blue b)) (f (alpha a) (alpha b)).

Definition gradient (from to : Color) (steps : Z) : list Color :=
  (fun i => mix from to (div (of_Z i) (of_Z (steps - 1)))) <$> seqZ 0 steps.

(** Modelled from the spec: [ColorUtils.color_scheme] (uchroma/color.py) is
    not among the sources.  The specification describes its result as an
    ordered sequence of exactly [steps] colours interpolated from the active
    colour (index 0, just pressed) to the background colour (index
    [steps - 1], fully faded); an undefined base lets the colour library
    choose the background.  Its arguments are resolved with [to_color]. *)
Definition color_scheme `{ColorLibrary} (color base_color : colorarg)
    (steps : Z) : result (list Color) :=
  match to_color color, to_color base_color with
  | inr c, inr b =>
      let c' := default default_color c in
      let b' := default (default_base c') b in
      inr (gradient c' b' steps)
  | inl e, _ => inl e
  | _, inl e => inl e
  end.

End ColorUtils.

(** ** The objects of a running effect *)

Module Coord.
(** A key position: column [x], row [y]. *)
Record t : Type := make { x : Z; y : Z }.
End Coord.

(** A key event of the host: the coordinates it touches ([None] when the host
    left them out), its decay progress and its mutable data bag. *)
Record KeyEvent : Type := {
  coords : option (list Coord.t);
  percent_complete : float;
  data : gmap string (option Color)
}.

(** Events are objects: a batch holds references, and two entries of a batch
    may be the same object. *)
Definition EventRef : Type := nat.

(** The attributes of a [Reaction].  [init_speed] and [init_colors] record
    that the attribute of that name exists ([hasattr]).  In [_gradient],
    [None] is Python's [None]; every run of [__init__] assigns the attribute,
    and the not yet assigned attribute of an object under construction is not
    told apart from it. *)
Record Reaction : Type := {
  speed : Z;
  background_color : option Color;
  color : option Color;
  fps : option Z;
  init_speed : bool;
  init_colors : bool;
  key_expire_time : option float;
  _gradient : option (list Color);
  _gradient_count : option Z
}.

Inductive LogRecord : Type :=
| LogError (msg : string) (event : EventRef).

(** One [layer.put(row, col, color)]. *)
Definition Put : Type := Z * Z * option Color.

(** One call [ColorUtils.color_scheme(color=.., base_color=.., steps=..)]. *)
Record SchemeCall : Type := {
  call_color : colorarg;
  call_base_color : colorarg;
  call_steps : Z
}.

(** The effect, the event objects of the host, the writes received by the
    layer, the records received by the logger and the calls received by the
    colour library, each in order. *)
Record World : Type := {
  self : Reaction;
  heap : EventRef -> KeyEvent;
  layer : list Put;
  log : list LogRecord;
  scheme_calls : list SchemeCall
}.

Definition with_self (f : Reaction -> Reaction) (w : World) : World :=
  {| self := f (self w); heap := heap w; layer := layer w; log := log w;
     scheme_calls := scheme_calls w |}.

(** The store with the object at [ev] replaced. *)
Definition store (ev : EventRef) (e : KeyEvent) (h : EventRef -> KeyEvent)
    : EventRef -> KeyEvent :=
  fun r => if Nat.eqb r ev then e else h r.

Definition with_event (ev : EventRef) (f : KeyEvent -> KeyEvent) (w : World) : World :=
  {| self := self w; heap := store ev (f (heap w ev)) (heap w); layer := layer w;
     log := log w; scheme_calls := scheme_calls w |}.

Definition with_put (p : Put) (w : World) : World :=
  {| self := self w; heap := heap w; layer := layer w ++ [p]; log := log w;
     scheme_calls := scheme_calls w |}.

Definition with_log (r : LogRecord) (w : World) : World :=
  {| self := self w; heap := heap w; layer := layer w; log := log w ++ [r];
     scheme_calls := scheme_calls w |}.

Definition with_call (c : SchemeCall) (w : World) : World :=
  {| self := self w; heap := heap w; layer := layer w; log := log w;
     scheme_calls := scheme_calls w ++ [c] |}.

Definition set_data (k : string) (v : option Color) (e : KeyEvent) : KeyEvent :=
  {| coords := coords e; percent_complete := percent_complete e;
     data := <[k := v]> (data e) |}.

(** ** The monad

    A method either returns a value and the world it leaves, or raises; the
    world of a raise is not observed by any property below and is dropped. *)

Definition M (A : Type) : Type := World -> result (A * World).

Definition ret {A : Type} (a : A) : M A := fun w => inr (a, w).

Definition bind {A B : Type} (c : M A) (k : A -> M B) : M B :=
  fun w => match c w with
           | inr (a, w') => k a w'
           | inl e => inl e
           end.

Definition raise {A : Type} (e : exn) : M A := fun _ => inl e.

Definition lift {A : Type} (r : result A) : M A :=
  fun w => match r with
           | inr a => inr (a, w)
           | inl e => inl e
           end.

Definition get_self : M Reaction := fun w => inr (self w, w).
Definition modify (f : World -> World) : M unit := fun w => inr (tt, f w).
Definition get_event (ev : EventRef) : M KeyEvent := fun w => inr (heap w ev, w).

(** Reading an attribute that may not have been assigned. *)
Definition attr {A : Type} (x : option A) : M A :=
  match x with
  | Some a => ret a
  | None => raise AttributeError
  end.

Declare Scope py_scope.
Delimit Scope py_scope with py.
Notation "x <- c ;; k" := (bind c (fun x => k))
  (at level 100, c at next level, right associativity) : py_scope.
Notation "c ;; k" := (bind c (fun _ => k))
  (at level 100, right associativity) : py_scope.
Open Scope py_scope.

(** [for x in xs: body(x)]. *)
Fixpoint for_each {A : Type} (xs : list A) (body : A -> M unit) : M unit :=
  match xs with
  | [] => ret tt
  | x :: xs' => body x ;; for_each xs' body
  end.

(** A colour library to run the definitions on: the two HTML names used in
    this file, white as the colour of choice and the RGB complement as the
    background of choice, and opaque black as the default of a colour
    trait. *)
Definition black : Color := NewFromRgb zero zero zero lit_1_0.
Definition white : Color := NewFromRgb lit_1_0 lit_1_0 lit_1_0 lit_1_0.

Definition complement (c : Color) : Color :=
  NewFromRgb (sub lit_1_0 (red c)) (sub lit_1_0 (green c))
    (sub lit_1_0 (blue c)) (alpha c).

Definition sample_library : ColorLibrary :=
  {| NAMED_COLOR := {[ "black" := "#000000"; "white" := "#ffffff" ]}%string;
     default_color := white;
     default_base := complement;
     trait_default := Some black |}.

(** ** reaction.py *)

Definition DEFAULT_SPEED : Z := 6.
Definition MAX_SPEED : Z := 9.
Definition EXPIRE_TIME_FACTOR : float := lit_0_25.
Definition REACT_COLOR_KEY : string := "reaction_color".

(** A change notification of traitlets: the trait's name, its value before
    and its new value. *)
Module Change.
Record t (A : Type) : Type := make { name : string; old : A; new : A }.
Arguments make {A} _ _ _.
Arguments name {A} _.
Arguments old {A} _.
Arguments new {A} _.
End Change.

Section Reaction.

Context `{lib : ColorLibrary}.

Definition _set_speed (value : Z) : M unit :=
  let expire := MAX_SPEED + 1 - value in
  f <- lift (Py.float_of_int expire) ;;
  modify (with_self (fun r =>
    {| speed := speed r; background_color := background_color r;
       color := color r; fps := fps r; init_speed := init_speed r;
       init_colors := init_colors r;
       key_expire_time := Some (mul f EXPIRE_TIME_FACTOR);
       _gradient := _gradient r; _gradient_count := _gradient_count r |})).

Definition _change_speed (change : Change.t Z) : M unit :=
  modify (with_self (fun r =>
    {| speed := speed r; background_color := background_color r;
       color := color r; fps := fps r; init_speed := true;
       init_colors := init_colors r; key_expire_time := key_expire_time r;
       _gradient := _gradient r; _gradient_count := _gradient_count r |})) ;;
  _set_speed (Change.new change).

Definition _set_colors (bg_color color_ : colorarg) : M unit :=
  modify (with_call {| call_color := color_; call_base_color := bg_color;
                       call_steps := 100 |}) ;;
  g <- lift (ColorUtils.color_scheme color_ bg_color 100) ;;
  modify (with_self (fun r =>
    {| speed := speed r; background_color := background_color r;
       color := color r; fps := fps r; init_speed := init_speed r;
       init_colors := init_colors r; key_expire_time := key_expire_time r;
       _gradient := Some g;
       _gradient_count := Some (Z.of_nat (length g)) |})).

Definition _react_keys (event : EventRef) : M unit :=
  e <- get_event event ;;
  match coords e with
  | None => modify (with_log (LogError "No coordinates available: %s" event))
  | Some [] => modify (with_log (LogError "No coordinates available: %s" event))
  | Some cs =>
      react_color <- lift (match data e !! REACT_COLOR_KEY with
                           | Some c => inr c
                           | None => inl KeyError
                           end) ;;
      for_each cs (fun coord =>
        modify (with_put (Coord.y coord, Coord.x coord, react_color)))
  end.

(** The body of the loop of [_process_events]. *)
Definition process_event (events : list EventRef) (event : EventRef) : M unit :=
  (if negb (Py.contains (Py.Event <$> events) (Py.Str REACT_COLOR_KEY)) then
     r <- get_self ;;
     e <- get_event event ;;
     count <- attr (_gradient_count r) ;;
     n <- lift (Py.float_of_int count) ;;
     idx <- lift (Py.int (sub n (mul (percent_complete e) n))) ;;
     if leb (percent_complete e) lit_0_15 then
       modify (with_event event (set_data REACT_COLOR_KEY (background_color r)))
     else
       g <- attr (_gradient r) ;;
       c <- lift (Py.getitem g idx) ;;
       modify (with_event event (set_data REACT_COLOR_KEY (Some c)))
   else ret tt) ;;
  _react_keys event.

Definition _process_events (events : list EventRef) : M unit :=
  r <- get_self ;;
  match _gradient r with
  | None => ret tt
  | Some _ => for_each events (process_event events)
  end.

(** [draw]: [events] is the batch the awaited host queue yields. *)
Definition draw (events : list EventRef) : M bool :=
  if (0 <? Z.of_nat (length events)) then
    _process_events events ;; ret true
  else ret false.

(** [_update_colors], the observer of [background_color] and [color].  The
    [hold_trait_notifications] block around its body defers the
    notifications of traits assigned inside the block; the body assigns
    none. *)
Definition _update_colors (change : Change.t (option Color)) : M unit :=
  match Change.new change with
  | None => ret tt
  | Some _ =>
      modify (with_self (fun r =>
        {| speed := speed r; background_color := background_color r;
           color := color r; fps := fps r; init_speed := init_speed r;
           init_colors := true; key_expire_time := key_expire_time r;
           _gradient := _gradient r; _gradient_count := _gradient_count r |})) ;;
      r <- get_self ;;
      let bg_color := background_color r in
      let bg_color :=
        if opt_Color_eq_tuple bg_color [0; 0; 0; 1] then None else bg_color in
      _set_colors (arg_of_color bg_color) (arg_of_color (color r))
  end.

Definition init (has_key_input : bool) : bool :=
  if negb has_key_input then false else true.

(** *** The trait machinery (traitlets) around the observers *)

(** An assignment to one of the three configuration traits. *)
Inductive assignment : Type :=
| SetSpeed (v : Z)
| SetBackgroundColor (c : option Color)
| SetColor (c : option Color).

Inductive notification : Type :=
| NotifySpeed (c : Change.t Z)
| NotifyColor (c : Change.t (option Color)).

Definition notification_name (n : notification) : string :=
  match n with
  | NotifySpeed c => Change.name c
  | NotifyColor c => Change.name c
  end.

(** The observers registered with [@observe]: [_change_speed] for [speed],
    [_update_colors] for [background_color] and for [color]. *)
Definition notify (n : notification) : M unit :=
  match n with
  | NotifySpeed c => _change_speed c
  | NotifyColor c => _update_colors c
  end.

(** Storing a validated value in a trait; the change is reported when the
    new value differs from the old one.  [speed] is an [Int] with bounds 1
    and [MAX_SPEED]. *)
Definition assign (a : assignment) : M (option notification) :=
  r <- get_self ;;
  match a with
  | SetSpeed v =>
      if (v <? 1) || (MAX_SPEED <? v) then raise TraitError else
      modify (with_self (fun r =>
        {| speed := v; background_color := background_color r;
           color := color r; fps := fps r; init_speed := init_speed r;
           init_colors := init_colors r; key_expire_time := key_expire_time r;
           _gradient := _gradient r; _gradient_count := _gradient_count r |})) ;;
      ret (if speed r =? v then None
           else Some (NotifySpeed (Change.make "speed" (speed r) v)))
  | SetBackgroundColor c =>
      modify (with_self (fun r =>
        {| speed := speed r; background_color := c;
           color := color r; fps := fps r; init_speed := init_speed r;
           init_colors := init_colors r; key_expire_time := key_expire_time r;
           _gradient := _gradient r; _gradient_count := _gradient_count r |})) ;;
      ret (if opt_Color_eq (background_color r) c then None
           else Some (NotifyColor
                        (Change.make "background_color" (background_color r) c)))
  | SetColor c =>
      modify (with_self (fun r =>
        {| speed := speed r; background_color := background_color r;
           color := c; fps := fps r; init_speed := init_speed r;
           init_colors := init_colors r; key_expire_time := key_expire_time r;
           _gradient := _gradient r; _gradient_count := _gradient_count r |})) ;;
      ret (if opt_Color_eq (color r) c then None
           else Some (NotifyColor (Change.make "color" (color r) c)))
  end.

(** [obj.trait = value] outside any hold: the observers run at once. *)
Definition set_trait (a : assignment) : M unit :=
  n <- assign a ;;
  match n with
  | Some n => notify n
  | None => ret tt
  end.

(** Inside [hold_trait_notifications] the changes are kept, one per trait:
    a later change of a trait already changed only replaces the new
    value. *)
Definition merge (n n' : notification) : notification :=
  match n, n' with
  | NotifySpeed c, NotifySpeed c' =>
      NotifySpeed (Change.make (Change.name c) (Change.old c) (Change.new c'))
  | NotifyColor c, NotifyColor c' =>
      NotifyColor (Change.make (Change.name c) (Change.old c) (Change.new c'))
  | _, _ => n'
  end.

Fixpoint compress (cache : list notification) (n : notification)
    : list notification :=
  match cache with
  | [] => [n]
  | n0 :: cache' =>
      if String.eqb (notification_name n0) (notification_name n)
      then merge n0 n :: cache'
      else n0 :: compress cache' n
  end.

Fixpoint hold (body : list assignment) (cache : list notification)
    : M (list notification) :=
  match body with
  | [] => ret cache
  | a :: body' =>
      n <- assign a ;;
      hold body' (match n with
                  | Some n => compress cache n
                  | None => cache
                  end)
  end.

(** [with obj.hold_trait_notifications(): body]: a configuration update
    applied as one transaction; the observers run when the block ends. *)
Definition hold_trait_notifications (body : list assignment) : M unit :=
  cache <- hold body [] ;;
  for_each cache notify.

(** *** Construction *)

(** The object before [__init__] runs: the traits hold their defaults and
    no other attribute exists. *)
Definition blank : Reaction :=
  {| speed := DEFAULT_SPEED; background_color := trait_default;
     color := trait_default; fps := None; init_speed := false;
     init_colors := false; key_expire_time := None; _gradient := None;
     _gradient_count := None |}.

(** [kwargs] are the trait values given to the constructor;
    [super().__init__] assigns them while holding the notifications. *)
Definition __init__ (kwargs : list assignment) : M unit :=
  hold_trait_notifications kwargs ;;
  modify (with_self (fun r =>
    {| speed := speed r; background_color := background_color r;
       color := color r; fps := Some 30; init_speed := init_speed r;
       init_colors := init_colors r; key_expire_time := key_expire_time r;
       _gradient := _gradient r; _gradient_count := _gradient_count r |})) ;;
  r <- get_self ;;
  (if negb (init_speed r) then _set_speed DEFAULT_SPEED else ret tt) ;;
  r <- get_self ;;
  (if negb (init_colors r) then _set_colors (ArgStr "#000000") (ArgStr "#FFFFFF")
   else ret tt).

(** Creating the object and running [__init__] on it. *)
Definition new_Reaction (kwargs : list assignment) : M unit :=
  modify (with_self (fun _ => blank)) ;;
  __init__ kwargs.

(** *** Vocabulary of the properties *)

(** The gradient table [g] is built and has 100 entries. *)
Definition table_built (r : Reaction) (g : list Color) : Prop :=
  _gradient r = Some g /\ length g = 100%nat /\ _gradient_count r = Some 100.

(** A decay progress as the host supplies it: a binary64 value of [0, 1]. *)
Definition unit_interval (x : float) : Prop :=
  valid x = true /\ leb zero x = true /\ leb x lit_1_0 = true.

(** The fade colour in the words of the specification: the background colour
    up to the threshold 0.15, and above it the entry of the table at index
    [floor(table_length - percent_complete * table_length)]. *)
Definition fade_index (g : list Color) (pc : float) : option Z :=
  let n := of_Z (Z.of_nat (length g)) in
  floor (sub n (mul pc n)).

Definition fade_color (r : Reaction) (g : list Color) (pc : float)
    : option (option Color) :=
  if leb pc lit_0_15 then Some (background_color r)
  else match fade_index g pc with
       | Some idx =>
           if idx <? 0 then None
           else match g !! Z.to_nat idx with
                | Some c => Some (Some c)
                | None => None
                end
       | None => None
       end.

(** The layer writes of one event: its colour at each of its coordinates. *)
Definition puts (cs : option (list Coord.t)) (c : option Color) : list Put :=
  match cs with
  | Some cs => (fun co => (Coord.y co, Coord.x co, c)) <$> cs
  | None => []
  end.

(** The log records of one event: one error when it has no coordinates. *)
Definition complaints (cs : option (list Coord.t)) (event : EventRef)
    : list LogRecord :=
  match cs with
  | None | Some [] => [LogError "No coordinates available: %s" event]
  | Some _ => []
  end.

(** The world after one event was given the colour [c] and written out. *)
Definition after_event (event : EventRef) (c : option Color) (w : World) : World :=
  {| self := self w;
     heap := store event (set_data REACT_COLOR_KEY c (heap w event)) (heap w);
     layer := layer w ++ puts (coords (heap w event)) c;
     log := log w ++ complaints (coords (heap w event)) event;
     scheme_calls := scheme_calls w |}.

(** The expiry time the specification gives for a speed:
    [(MAX_SPEED + 1 - speed) * 0.25]. *)
Definition expire_time (speed : Z) : float :=
  mul (of_Z (MAX_SPEED + 1 - speed)) EXPIRE_TIME_FACTOR.

(** The invariant of the table: where a table is stored it has 100 entries
    and the stored count is 100; every recorded call asked for 100 steps.
    With [strict], a table is stored. *)
Definition table_inv (strict : bool) (w : World) : Prop :=
  Forall (fun c => call_steps c = 100) (scheme_calls w) /\
  match _gradient (self w) with
  | Some g => length g = 100%nat /\ _gradient_count (self w) = Some 100
  | None => strict = false /\ init_colors (self w) = false
  end.

(** A construction without arguments: the defaults of the traits, 30 frames
    per second, the expiry time of the default speed, and then the default
    colours. *)
Definition default_world (w : World) : World :=
  with_self (fun _ =>
    {| speed := DEFAULT_SPEED; background_color := trait_default;
       color := trait_default; fps := Some 30; init_speed := false;
       init_colors := false;
       key_expire_time := Some (expire_time DEFAULT_SPEED);
       _gradient := None; _gradient_count := None |}) w.

(** The worlds an effect can be in: constructed, then reconfigured by single
    assignments or by transactions, drawn, and in between the host may
    change its own objects (events, layer, logger) at will. *)
Inductive reachable : World -> Prop :=
| reach_new w0 kwargs w :
    scheme_calls w0 = [] ->
    new_Reaction kwargs w0 = inr (tt, w) -> reachable w
| reach_set w a w' :
    reachable w -> set_trait a w = inr (tt, w') -> reachable w'
| reach_update w body w' :
    reachable w -> hold_trait_notifications body w = inr (tt, w') ->
    reachable w'
| reach_draw w events changed w' :
    reachable w -> draw events w = inr (changed, w') -> reachable w'
| reach_host w h l lg :
    reachable w ->
    reachable {| self := self w; heap := h; layer := l; log := lg;
                 scheme_calls := scheme_calls w |}.

End Reaction.

(** The table of a default construction: from white to black. *)
Definition default_table : list Color := ColorUtils.gradient white black 100.

(** A world with no effect constructed yet. *)
Definition empty_world (h : EventRef -> KeyEvent) : World :=
  {| self := @blank sample_library; heap := h; layer := []; log := [];
     scheme_calls := [] |}.

(** *** Sample objects

    A host with three event objects: a key just pressed, an event without
    coordinates just above the threshold, and an event whose data bag already
    holds a colour from an earlier pass. *)

Definition pure_red : Color := NewFromRgb lit_1_0 zero zero lit_1_0.
Definition pure_blue : Color := NewFromRgb zero zero lit_1_0 lit_1_0.

Definition pressed : KeyEvent :=
  {| coords := Some [Coord.make 3 1; Coord.make 4 1];
     percent_complete := lit_1_0; data := ∅ |}.

Definition fading : KeyEvent :=
  {| coords := Some []; percent_complete := lit_0_16; data := ∅ |}.

Definition stale : KeyEvent :=
  {| coords := Some [Coord.make 3 1]; percent_complete := lit_1_0;
     data := {[ REACT_COLOR_KEY := Some pure_red ]} |}.

Definition sample_heap : EventRef -> KeyEvent :=
  fun r => match r with
           | O => pressed
           | S O => fading
           | _ => stale
           end.

Definition default_call : SchemeCall :=
  {| call_color := ArgStr "#FFFFFF"; call_base_color := ArgStr "#000000";
     call_steps := 100 |}.

(** The world after a construction without arguments. *)
Definition constructed : World :=
  {| self := {| speed := 6; background_color := Some black;
                color := Some black; fps := Some 30; init_speed := false;
                init_colors := false; key_expire_time := Some lit_1_0;
                _gradient := Some default_table;
                _gradient_count := Some 100 |};
     heap := sample_heap; layer := []; log := [];
     scheme_calls := [default_call] |}.

(** ** uchroma/util.py *)

Module Util.

(** What the helpers raise: one of the built-in exceptions above,
    [TypeError], or the error of [struct.pack]. *)
Inductive error : Type :=
| Builtin (e : exn)
| TypeError
| struct_error.

Definition res (A : Type) : Type := error + A.

Definition builtin {A : Type} (r : result A) : res A :=
  match r with
  | inr a => inr a
  | inl e => inl (Builtin e)
  end.

(** *** Numbers and values *)

(** A Python number: an [int] or a [float]. *)
Inductive num : Type :=
| Int (z : Z)
| Float (x : float).

Inductive seqkind : Type := tuple | list_.

(** The values the colour helpers take and give: [None], a colour, a string,
    a number, a tuple or a list. *)
#[warnings="-register-all"]
Inductive value : Type :=
| VNone
| VColor (c : Color)
| VStr (s : string)
| VNum (n : num)
| VSeq (k : seqkind) (items : list value).

(** The order of an [int] and a [float], which Python decides exactly. *)
Definition Z_float_compare (z : Z) (x : float) : option comparison :=
  match x with
  | S754_nan => None
  | S754_infinity s => Some (if s then Gt else Lt)
  | S754_zero _ => Some (z ?= 0)
  | S754_finite s m e =>
      Some match e with
           | Zneg p => z * 2 ^ Z.pos p ?= cond_Zopp s (Z.pos m)
           | _ => z ?= cond_Zopp s (Z.pos m) * 2 ^ e
           end
  end.

Definition compare (a b : num) : option comparison :=
  match a, b with
  | Int x, Int y => Some (x ?= y)
  | Float x, Float y => SFcompare x y
  | Int x, Float y => Z_float_compare x y
  | Float x, Int y => option_map CompOpp (Z_float_compare y x)
  end.

(** [a < b], [a > b] and [a <= b]; false when an operand is NaN. *)
Definition lt (a b : num) : bool :=
  match compare a b with Some Lt => true | _ => false end.
Definition gt (a b : num) : bool :=
  match compare a b with Some Gt => true | _ => false end.
Definition le (a b : num) : bool :=
  match compare a b with Some (Lt | Eq) => true | _ => false end.

(** [min(a, b)] and [max(a, b)] of two arguments: the first argument is kept
    unless the second is strictly smaller (larger). *)
Definition min (a b : num) : num := if lt b a then b else a.
Definition max (a b : num) : num := if gt b a then b else a.

Definition clamp (value_ min_ max_ : num) : num :=
  max min_ (min value_ max_).

(** [round(x)] without digits: an [int] is itself, a [float] goes to the
    nearest integer, ties to the even one. *)
Definition round_half_even (m : positive) (e : Z) : Z :=
  match e with
  | Zneg p =>
      let q := Z.pos m / 2 ^ Z.pos p in
      let r := Z.pos m mod 2 ^ Z.pos p in
      match 2 * r ?= 2 ^ Z.pos p with
      | Lt => q
      | Gt => q + 1
      | Eq => if Z.even q then q else q + 1
      end
  | _ => Z.pos m * 2 ^ e
  end.

Definition round_float (x : float) : result Z :=
  match x with
  | S754_nan => inl ValueError
  | S754_infinity _ => inl OverflowError
  | S754_zero _ => inr 0
  | S754_finite s m e => inr (cond_Zopp s (round_half_even m e))
  end.

Definition round (n : num) : result Z :=
  match n with
  | Int z => inr z
  | Float x => round_float x
  end.

(** [round(x, 2)] of a [float]: the decimal of two places nearest to the
    exact value of [x], ties to even, read back as the nearest binary64
    value. *)
Definition round2 (x : float) : float :=
  match x with
  | S754_finite s m e =>
      match e with
      | Zneg _ =>
          match round_half_even (m * 100) e with
          | Zpos q => div (S754_finite s q 0) (of_Z 100)
          | _ => S754_zero s
          end
      | _ => x
      end
  | _ => x
  end.

(** [n / 255.0]. *)
Definition div_255 (n : num) : result float :=
  match n with
  | Int z =>
      match Py.float_of_int z with
      | inr x => inr (div x lit_255_0)
      | inl e => inl e
      end
  | Float x => inr (div x lit_255_0)
  end.

(** *** The colour helpers *)

(** [for x in xs] collecting results, left to right, up to the first raise. *)
Fixpoint collect {A B : Type} (f : A -> res B) (xs : list A) : res (list B) :=
  match xs with
  | [] => inr []
  | x :: xs' =>
      match f x with
      | inl e => inl e
      | inr y =>
          match collect f xs' with
          | inl e => inl e
          | inr ys => inr (y :: ys)
          end
      end
  end.

(** The [raise TypeError(... type(arg[0]) ...)] of a sequence too short: the
    message reads [arg[0]], which an empty sequence does not have. *)
Definition too_short {A : Type} (arg : list value) : res A :=
  match arg with
  | [] => inl (Builtin IndexError)
  | _ :: _ => inl TypeError
  end.

(** One channel of [rgb_from_tuple]: [clamp(x, 0, 255) / 255.0]; comparing
    anything but a number with the bounds raises [TypeError]. *)
Definition channel (x : value) : res float :=
  match x with
  | VNum n => builtin (div_255 (clamp n (Int 0) (Int 255)))
  | _ => inl TypeError
  end.

Definition rgb_from_tuple (arg : list value) : res Color :=
  if (3 <=? Z.of_nat (length arg)) then
    match arg with
    | x0 :: x1 :: x2 :: _ =>
        match channel x0 with
        | inl e => inl e
        | inr r =>
            match channel x1 with
            | inl e => inl e
            | inr g =>
                match channel x2 with
                | inl e => inl e
                | inr b => inr (NewFromRgb r g b lit_1_0)
                end
            end
        end
    | _ => too_short arg
    end
  else too_short arg.

(** One entry of [rgb_to_int_tuple]: [clamp(round(x), 0, 255)]. *)
Definition int_channel (x : value) : res value :=
  match x with
  | VNum n =>
      match round n with
      | inr z => inr (VNum (clamp (Int z) (Int 0) (Int 255)))
      | inl e => inl (Builtin e)
      end
  | _ => inl TypeError
  end.

Definition rgb_to_int_tuple (arg : list value) : res value :=
  if (3 <=? Z.of_nat (length arg)) then
    match collect int_channel (take 3 arg) with
    | inr items => inr (VSeq tuple items)
    | inl e => inl e
    end
  else too_short arg.

(** [isinstance(x, (list, tuple, str, Color))], the test on [arg[0]]. *)
Definition is_nested (x : value) : bool :=
  match x with
  | VSeq _ _ | VStr _ | VColor _ => true
  | _ => false
  end.

Section Colors.

Context `{lib : ColorLibrary}.

(** grapefruit's [Color.intTuple]. *)
Variable intTuple : Color -> list Z.

Fixpoint to_color (arg : value) : res value :=
  match arg with
  | VNone => inr VNone
  | VColor _ => inr arg
  | VStr s =>
      match Html.NewFromHtml s with
      | inr c => inr (VColor c)
      | inl e => inl (Builtin e)
      end
  | VSeq _ items =>
      match items with
      | [] => inl (Builtin IndexError)
      | x :: _ =>
          if is_nested x then
            match collect to_color items with
            | inr colors => inr (VSeq list_ colors)
            | inl e => inl e
            end
          else
            match rgb_from_tuple items with
            | inr c => inr (VColor c)
            | inl e => inl e
            end
      end
  | VNum _ => inl TypeError
  end.

Definition int_tuple (zs : list Z) : value :=
  VSeq tuple ((fun z => VNum (Int z)) <$> zs).

Fixpoint to_rgb (arg : value) : res value :=
  match arg with
  | VNone => inr (int_tuple [0; 0; 0])
  | VColor c => inr (int_tuple (take 3 (intTuple c)))
  | VStr s =>
      match Html.NewFromHtml s with
      | inr c => inr (int_tuple (take 3 (intTuple c)))
      | inl e => inl (Builtin e)
      end
  | VSeq _ items =>
      match items with
      | [] => inl (Builtin IndexError)
      | x :: _ =>
          if is_nested x then
            match collect to_rgb items with
            | inr tuples => inr (VSeq list_ tuples)
            | inl e => inl e
            end
          else rgb_to_int_tuple items
      end
  | VNum _ => inl TypeError
  end.

(** [names.index(argname)]. *)
Fixpoint index (names : list string) (argname : string) : res nat :=
  match names with
  | [] => inl (Builtin ValueError)
  | n :: names' =>
      if String.eqb n argname then inr O
      else match index names' argname with
           | inr i => inr (S i)
           | inl e => inl e
           end
  end.

(** A parameter of the decorated function: its name and, when it has one,
    its default value. *)
Record param : Type := { pname : string; pdefault : option value }.

(** How a call with the positional arguments [args] and the keywords
    [kwargs] binds the parameters of a function without star parameters: the positional arguments first, then for each
    further parameter its keyword or else its default.  An argument too many
    or a parameter left without a value raises [TypeError]. *)
Fixpoint bind_params (params : list param) (args : list value)
    (kwargs : gmap string value) : res (list value) :=
  match params, args with
  | [], [] => inr []
  | [], _ :: _ => inl TypeError
  | _ :: params', a :: args' =>
      match bind_params params' args' kwargs with
      | inr bound => inr (a :: bound)
      | inl e => inl e
      end
  | p :: params', [] =>
      match (match kwargs !! pname p with
             | Some v => Some v
             | None => pdefault p
             end) with
      | Some v =>
          match bind_params params' [] kwargs with
          | inr bound => inr (v :: bound)
          | inl e => inl e
          end
      | None => inl TypeError
      end
  end.

(** Every keyword names a parameter that no positional argument has bound. *)
Definition keywords_ok (params : list param) (args : list value)
    (kwargs : gmap string value) : bool :=
  forallb (fun kv => existsb (String.eqb (fst kv))
                       (pname <$> drop (length args) params))
    (map_to_list kwargs).

(** The function that [decorator] generates in place of [f] has the signature
    of [f] and hands every parameter on by position,
    [return _call_(_func_, self, speed, color1, color2)]: the wrapper is
    called with one argument for each parameter, defaults included, and with
    no keywords. *)
Definition bind_call (params : list param) (args : list value)
    (kwargs : gmap string value) : res (list value) :=
  if keywords_ok params args kwargs then bind_params params args kwargs
  else inl TypeError.

(** The body of [wrapper], for a function whose parameters are [names] and
    the arguments [args] that the wrapper is called with: the arguments the
    function receives. *)
Fixpoint colorarg_loop (decls names : list string) (args new_args : list value)
    : res (list value) :=
  match decls with
  | [] => inr new_args
  | argname :: decls' =>
      match index names argname with
      | inl e => inl e
      | inr pos =>
          if (pos <? length args)%nat then
            match args !! pos with
            | Some a =>
                match to_color a with
                | inr c => colorarg_loop decls' names args (<[pos := c]> new_args)
                | inl e => inl e
                end
            | None => inl (Builtin IndexError)
            end
          else colorarg_loop decls' names args new_args
      end
  end.

(** A call, with the positional arguments [args] and the keywords [kwargs],
    of a function decorated with [colorarg] for the names [decls]: the
    arguments the function itself receives. *)
Definition colorarg (decls : list string) (params : list param)
    (args : list value) (kwargs : gmap string value) : res (list value) :=
  match bind_call params args kwargs with
  | inr bound => colorarg_loop decls (pname <$> params) bound bound
  | inl e => inl e
  end.

End Colors.

(** *** Bits, bytes and brightness *)

(** [1 << bit]. *)
Definition shift_one (bit : Z) : result Z :=
  if bit <? 0 then inl ValueError else inr (Z.shiftl 1 bit).

Definition test_bit (value_ bit : Z) : result bool :=
  match shift_one bit with
  | inr mask => inr (Z.land value_ mask =? mask)
  | inl e => inl e
  end.

(** [set_bits(value, *bits)]: [bit] runs over the positions of [bits]. *)
Fixpoint set_bits_from (bit : Z) (value_ : Z) (bits : list bool) : Z :=
  match bits with
  | [] => value_
  | b :: bits' =>
      set_bits_from (bit + 1)
        (if b then Z.lor value_ (Z.shiftl 1 bit)
         else Z.land value_ (Z.lnot (Z.shiftl 1 bit)))
        bits'
  end.

Definition set_bits (value_ : Z) (bits : list bool) : Z :=
  set_bits_from 0 value_ bits.

(** [struct.pack('=B', value)]: one unsigned byte. *)
Definition to_byte (value_ : Z) : res (list Z) :=
  if (0 <=? value_) && (value_ <=? 255) then inr [value_]
  else inl struct_error.

(** [float(x)] of a number. *)
Definition to_float (n : num) : result float :=
  match n with
  | Int z => Py.float_of_int z
  | Float x => inr x
  end.

(** Formatting a number with [%d] and with [%f], as the messages of
    [scale_brightness] do: [%d] needs an integer of the number and [%f] a
    float of it. *)
Definition format_d (n : num) : result unit :=
  match n with
  | Int _ => inr tt
  | Float S754_nan => inl ValueError
  | Float (S754_infinity _) => inl OverflowError
  | Float _ => inr tt
  end.

Definition format_f (n : num) : result unit :=
  match to_float n with
  | inr _ => inr tt
  | inl e => inl e
  end.

(** [scale_brightness(brightness, from_hw)]: from the hardware value to the
    percentage, [round(float(brightness) * (100.0 / 255.0), 2)], and from the
    percentage to the hardware value,
    [int(round(brightness * (255.0 / 100.0)))].  Out of range, the message of
    the [ValueError] is formatted first. *)
Definition scale_brightness (brightness : num) (from_hw : bool) : result num :=
  if from_hw then
    if lt brightness (Int 0) || gt brightness (Int 255) then
      match format_d brightness with
      | inr _ => inl ValueError
      | inl e => inl e
      end
    else
      match to_float brightness with
      | inr x => inr (Float (round2 (mul x (div lit_100_0 lit_255_0))))
      | inl e => inl e
      end
  else
    if lt brightness (Float zero) || gt brightness (Float lit_100_0) then
      match format_f brightness with
      | inr _ => inl ValueError
      | inl e => inl e
      end
    else
      match to_float brightness with
      | inr x =>
          match round_float (mul x (div lit_255_0 lit_100_0)) with
          | inr z => inr (Int z)
          | inl e => inl e
          end
      | inl e => inl e
      end.

End Util.

(** ** Vocabulary of the properties of the helpers and of the frame loop *)

(** Whether the location of a quotient says that nothing was cut off. *)
Definition is_exact (l : location) : bool :=
  match l with
  | loc_Exact => true
  | _ => false
  end.

(** The value [m * 2^e] is at most the integer [b]. *)
Definition at_most (m : positive) (e b : Z) : Prop :=
  match e with
  | Zneg p => Z.pos m <= b * 2 ^ Z.pos p
  | _ => Z.pos m * 2 ^ e <= b
  end.

(** A colour channel: a float of [0.0, 1.0]. *)
Definition in_unit (x : float) : Prop := leb zero x = true /\ leb x lit_1_0 = true.

(** 2.55, the quotient [255.0 / 100.0]. *)
Definition lit_2_55 : float := S754_finite false 5742089524897382 (-51).

(** The percentages of the 256 hardware brightness values. *)
Definition percent_table : list (Z * result Util.num) :=
  map (fun b => (b, Util.scale_brightness (Util.Int b) true)) (seqZ 0 256).

(** Every entry is a well-formed float of [0.0, 100.0], and a larger hardware
    value has a strictly larger percentage. *)
Definition increasing (l : list (Z * result Util.num)) : bool :=
  forallb (fun a =>
    match snd a with
    | inr (Util.Float p) =>
        valid p && leb zero p && leb p lit_100_0 &&
        forallb (fun b =>
          match snd b with
          | inr (Util.Float p') => implb (fst a <? fst b) (ltb p p')
          | _ => false
          end) l
    | _ => false
    end) l.


(** The layer writes of one event of a batch: its fade colour at each of its
    coordinates. *)
Definition event_puts (r : Reaction) (g : list Color) (e : KeyEvent) : list Put :=
  match fade_color r g (percent_complete e) with
  | Some c => puts (coords e) c
  | None => []
  end.

(** The new values of the speed changes held in a cache, in order. *)
Fixpoint speed_news (cache : list notification) : list Z :=
  match cache with
  | [] => []
  | NotifySpeed c :: cache' => Change.new c :: speed_news cache'
  | NotifyColor _ :: cache' => speed_news cache'
  end.

(** The changes of a cache carry the names of their traits. *)
Definition well_named (n : notification) : Prop :=
  match n with
  | NotifySpeed c => Change.name c = "speed"%string
  | NotifyColor c => Change.name c <> "speed"%string
  end.

(** The expiry time belongs to the current speed, a speed of 1 to 9. *)
Definition speed_inv (r : Reaction) : Prop :=
  1 <= speed r <= 9 /\ key_expire_time r = Some (expire_time (speed r)).


(** A stand-in for grapefruit's [intTuple] on the sample colours: each
    channel times 255, rounded. *)
Definition sample_intTuple (c : Color) : list Z :=
  (fun x => match Util.round_float (mul x lit_255_0) with
            | inr z => z
            | inl _ => 0
            end) <$> [red c; green c; blue c].


(** ** Facts of binary64 rounding

    What the proofs below need of the rounding of [spec_float] products and
    differences: the result of rounding lies on the grid of the target
    exponent, between the two grid points around the exact value. *)

Module FloatFacts.

(** The literals are the correctly rounded values of their decimals, and
    well-formed binary64 values. *)
Lemma literals :
  lit_0_15 = div (of_Z 15) (of_Z 100) /\ lit_0_16 = div (of_Z 16) (of_Z 100) /\
  lit_0_25 = div (of_Z 1) (of_Z 4) /\ lit_1_0 = of_Z 1 /\
  lit_2_25 = div (of_Z 9) (of_Z 4) /\ lit_100_0 = of_Z 100 /\
  lit_255_0 = of_Z 255 /\
  forallb valid [lit_0_15; lit_0_16; lit_0_25; lit_1_0; lit_2_25; lit_100_0;
                 lit_255_0; zero] = true.
Proof. vm_compute. repeat split. Qed.

(** *** The number of digits of a mantissa *)

Lemma digits2_pos_size p : digits2_pos p = Pos.size p.
Proof. induction p; simpl; congruence. Qed.

Lemma digits_upper p : Z.pos p < 2 ^ Z.pos (digits2_pos p).
Proof.
  rewrite digits2_pos_size. pose proof (Pos.size_gt p) as H.
  rewrite <- Pos2Z.inj_pow. lia.
Qed.

Lemma digits_lower p : 2 ^ (Z.pos (digits2_pos p) - 1) <= Z.pos p.
Proof.
  rewrite digits2_pos_size. pose proof (Pos.size_le p) as H.
  assert (E : 2 ^ Z.pos (Pos.size p) = 2 * 2 ^ (Z.pos (Pos.size p) - 1)).
  { rewrite <- Z.pow_succ_r by lia. f_equal. lia. }
  assert (Z.pos (2 ^ Pos.size p) <= Z.pos p~0) by lia.
  rewrite Pos2Z.inj_pow in H0. rewrite E in H0. lia.
Qed.

(** *** Right shifts: the quotient, and whether a bit was lost *)

Lemma iter_pos_nat {A} (f : A -> A) p x :
  SpecFloat.iter_pos f p x = Nat.iter (Pos.to_nat p) f x.
Proof.
  revert x. induction p; intros x; cbn [SpecFloat.iter_pos].
  - rewrite !IHp. rewrite Pos2Nat.inj_xI.
    replace (2 * Pos.to_nat p)%nat with (Pos.to_nat p + Pos.to_nat p)%nat by lia.
    rewrite Nat.iter_succ_r. rewrite Nat.iter_add. reflexivity.
  - rewrite !IHp. rewrite Pos2Nat.inj_xO.
    replace (2 * Pos.to_nat p)%nat with (Pos.to_nat p + Pos.to_nat p)%nat by lia.
    rewrite Nat.iter_add. reflexivity.
  - reflexivity.
Qed.

Lemma shr_1_spec mrs :
  0 <= shr_m mrs ->
  shr_m (shr_1 mrs) = shr_m mrs / 2 /\
  exact_shift (shr_1 mrs) = exact_shift mrs && Z.even (shr_m mrs).
Proof.
  destruct mrs as [m r s]. unfold exact_shift. simpl. intros Hm.
  destruct m as [|p|p]; [| |lia].
  - simpl. split; [reflexivity|]. destruct r, s; reflexivity.
  - destruct p as [p|p|]; simpl.
    + split. { apply (Z.div_unique_pos _ 2 _ 1); lia. }
      destruct r, s; reflexivity.
    + split. { apply (Z.div_unique_pos _ 2 _ 0); lia. }
      destruct r, s; reflexivity.
    + split; [reflexivity|]. destruct r, s; reflexivity.
Qed.

Lemma even_div_mod m k :
  0 <= m -> 0 <= k ->
  (m mod 2 ^ (k + 1) =? 0) = (m mod 2 ^ k =? 0) && Z.even (m / 2 ^ k).
Proof.
  intros Hm Hk.
  assert (P : 0 < 2 ^ k) by (apply Z.pow_pos_nonneg; lia).
  rewrite Z.pow_add_r by lia. change (2 ^ 1) with 2.
  rewrite Z.rem_mul_r by lia.
  pose proof (Z.mod_pos_bound m (2 ^ k) P).
  pose proof (Z.mod_pos_bound (m / 2 ^ k) 2 ltac:(lia)).
  rewrite Zeven_mod.
  destruct (Z.eqb_spec (m mod 2 ^ k) 0), (Z.eqb_spec ((m / 2 ^ k) mod 2) 0); simpl;
    apply Z.eqb_neq || apply Z.eqb_eq; nia.
Qed.

Lemma iter_shr_1_spec k mrs :
  0 <= shr_m mrs ->
  let mrs' := Nat.iter k shr_1 mrs in
  shr_m mrs' = shr_m mrs / 2 ^ Z.of_nat k /\
  exact_shift mrs' = exact_shift mrs && (shr_m mrs mod 2 ^ Z.of_nat k =? 0).
Proof.
  intros Hm. induction k as [|k IH].
  - simpl. rewrite Z.div_1_r, Z.mod_1_r. simpl. rewrite andb_true_r. auto.
  - cbn zeta in *. rewrite Nat.iter_succ. destruct IH as [IH1 IH2].
    assert (P : 0 < 2 ^ Z.of_nat k) by (apply Z.pow_pos_nonneg; lia).
    assert (H0 : 0 <= shr_m (Nat.iter k shr_1 mrs)).
    { rewrite IH1. apply Z.div_pos; lia. }
    destruct (shr_1_spec _ H0) as [S1 S2]. rewrite S1, S2, IH1, IH2.
    rewrite Nat2Z.inj_succ. unfold Z.succ. split.
    + rewrite Z.pow_add_r by lia. rewrite Z.div_div by lia. reflexivity.
    + rewrite even_div_mod by lia. rewrite andb_assoc. reflexivity.
Qed.

Lemma fexp_eq e : fexp prec emax e = Z.max (e - 53) (-1074).
Proof. reflexivity. Qed.

(** A value rounded to a grid of step [2^k] does not cross a grid point: it
    stays below every grid point above the value and above every grid point
    below it. *)
Lemma grid_bounds mx k m1 :
  0 <= mx -> 0 <= k ->
  mx / 2 ^ k <= m1 <= mx / 2 ^ k + 1 ->
  (mx mod 2 ^ k = 0 -> m1 = mx / 2 ^ k) ->
  (forall c, mx <= c * 2 ^ k -> m1 <= c) /\
  (forall c, c * 2 ^ k <= mx -> c <= m1).
Proof.
  intros Hm Hk Hq Hex.
  assert (P : 0 < 2 ^ k) by (apply Z.pow_pos_nonneg; lia).
  pose proof (Z.div_mod mx (2 ^ k) ltac:(lia)) as Hdm.
  pose proof (Z.mod_pos_bound mx (2 ^ k) P) as Hb.
  split; intros c Hc.
  - destruct (Z.eq_dec (mx mod 2 ^ k) 0) as [Hz|Hz].
    + rewrite (Hex Hz). nia.
    + assert (mx / 2 ^ k < c) by nia. lia.
  - assert (c <= mx / 2 ^ k) by nia. lia.
Qed.

Lemma shr_spec m e n :
  0 <= m ->
  exists mrs,
    shr (Build_shr_record m false false) e n = (mrs, Z.max e (e + n)) /\
    shr_m mrs = m / 2 ^ Z.max 0 n /\
    exact_shift mrs = (m mod 2 ^ Z.max 0 n =? 0).
Proof.
  intros Hm. destruct n as [|p|p].
  - exists (Build_shr_record m false false). simpl shr.
    rewrite Z.max_l by lia. rewrite Z.max_l by lia.
    rewrite Z.div_1_r, Z.mod_1_r. auto.
  - exists (SpecFloat.iter_pos shr_1 p (Build_shr_record m false false)).
    simpl shr. rewrite Z.max_r by lia. rewrite Z.max_r by lia.
    split; [reflexivity|]. rewrite iter_pos_nat.
    destruct (iter_shr_1_spec (Pos.to_nat p) (Build_shr_record m false false) Hm)
      as [H1 H2].
    rewrite positive_nat_Z in H1, H2. auto.
  - exists (Build_shr_record m false false). simpl shr.
    rewrite Z.max_l by lia. rewrite Z.max_l by lia.
    rewrite Z.div_1_r, Z.mod_1_r. auto.
Qed.

(** Rounding to nearest even picks one of the two neighbours, and the
    value itself when it is on the grid. *)
Lemma rne_bounds mrs :
  let m1 := round_nearest_even (shr_m mrs) (loc_of_shr_record mrs) in
  shr_m mrs <= m1 <= shr_m mrs + 1 /\ (exact_shift mrs = true -> m1 = shr_m mrs).
Proof.
  destruct mrs as [m r s]. unfold exact_shift.
  destruct r, s; simpl; try destruct (Z.even m); split; (lia || discriminate || auto).
Qed.

(** The second normalisation of [binary_round_aux] changes the
    representation only when rounding carried into a new digit, and never the
    value. *)
Lemma shr_fexp_small m1 E :
  0 <= m1 <= 2 ^ 53 -> -1074 <= E ->
  exists m2 e2,
    shr_fexp prec emax m1 E loc_Exact = (Build_shr_record m2 false false, e2) /\
    E <= e2 <= E + 1 /\ m2 * 2 ^ (e2 - E) = m1 /\ 0 <= m2.
Proof.
  intros Hm HE. unfold shr_fexp. simpl shr_record_of_loc.
  destruct (Z.eq_dec m1 (2 ^ 53)) as [->|Hne].
  - change (Zdigits2 (2 ^ 53)) with 54. rewrite fexp_eq.
    replace (Z.max (54 + E - 53) (-1074) - E) with 1 by lia.
    exists (2 ^ 52), (E + 1). simpl shr. split; [reflexivity|].
    replace (E + 1 - E) with 1 by lia. split; [lia|]. split; [reflexivity|lia].
  - exists m1, E. replace (E - E) with 0 by lia. rewrite Z.mul_1_r.
    split; [|lia].
    assert (Hn : fexp prec emax (Zdigits2 m1 + E) - E <= 0).
    { rewrite fexp_eq. destruct m1 as [|p|p]; [simpl; lia | | lia].
      simpl Zdigits2. pose proof (digits_lower p) as Hl.
      assert (Z.pos (digits2_pos p) - 1 < 53).
      { apply (Z.pow_lt_mono_r_iff 2); lia. }
      lia. }
    destruct (fexp prec emax (Zdigits2 m1 + E) - E); try lia; reflexivity.
Qed.

(** *** Rounding [mx * 2^ex]

    The result is [m1 * 2^E], where [E] is the exponent of the format for
    this magnitude and [m1] is bounded by the grid points around the value. *)
Lemma round_aux_spec s (mx : positive) (ex : Z) :
  let E := Z.max ex (fexp prec emax (Z.pos (digits2_pos mx) + ex)) in
  exists m1 : Z,
    (forall c, Z.pos mx <= c * 2 ^ (E - ex) -> m1 <= c) /\
    (forall c, c * 2 ^ (E - ex) <= Z.pos mx -> c <= m1) /\
    ((m1 = 0 /\
      binary_round_aux prec emax s (Z.pos mx) ex loc_Exact = S754_zero s) \/
     exists m2 e2, Z.pos m2 * 2 ^ (e2 - E) = m1 /\ E <= e2 <= E + 1 /\
       binary_round_aux prec emax s (Z.pos mx) ex loc_Exact =
         if e2 <=? emax - prec then S754_finite s m2 e2 else S754_infinity s).
Proof.
  intros E. unfold binary_round_aux.
  set (d := Z.pos (digits2_pos mx)) in *.
  set (n := fexp prec emax (d + ex) - ex).
  change (shr_fexp prec emax (Z.pos mx) ex loc_Exact)
    with (shr (Build_shr_record (Z.pos mx) false false) ex n).
  destruct (shr_spec (Z.pos mx) ex n ltac:(lia)) as (mrs & Hs & Hq & Hx).
  rewrite Hs.
  assert (HE : Z.max ex (ex + n) = E) by (unfold E, n; lia).
  rewrite HE.
  assert (Hk : Z.max 0 n = E - ex) by (unfold E, n; lia).
  rewrite Hk in Hq, Hx.
  destruct (rne_bounds mrs) as [Hb Hexact].
  set (m1 := round_nearest_even (shr_m mrs) (loc_of_shr_record mrs)) in *.
  assert (P : 0 < 2 ^ (E - ex)) by (apply Z.pow_pos_nonneg; lia).
  assert (Hq0 : 0 <= shr_m mrs) by (rewrite Hq; apply Z.div_pos; lia).
  assert (Hlt : shr_m mrs < 2 ^ 53).
  { rewrite Hq. apply Z.div_lt_upper_bound; [lia|].
    rewrite <- Z.pow_add_r by lia.
    pose proof (digits_upper mx) as Hu. fold d in Hu.
    assert (2 ^ d <= 2 ^ (E - ex + 53)).
    { apply Z.pow_le_mono_r; [lia|]. unfold E. rewrite fexp_eq. lia. }
    lia. }
  assert (HEmin : -1074 <= E) by (unfold E; rewrite fexp_eq; lia).
  exists m1.
  destruct (grid_bounds (Z.pos mx) (E - ex) m1 ltac:(lia) ltac:(lia)) as [G1 G2].
  { rewrite <- Hq. exact Hb. }
  { intros Hz. rewrite <- Hq. apply Hexact. rewrite Hx. apply Z.eqb_eq. exact Hz. }
  split; [exact G1|]. split; [exact G2|].
  assert (Hfin : exists m2 e2,
    shr_fexp prec emax m1 E loc_Exact = (Build_shr_record m2 false false, e2) /\
    E <= e2 <= E + 1 /\ m2 * 2 ^ (e2 - E) = m1 /\ 0 <= m2).
  { apply shr_fexp_small; lia. }
  destruct Hfin as (m2 & e2 & Hsh & He2 & Hm2 & Hpos). rewrite Hsh.
  simpl shr_m. destruct m2 as [|p2|p2]; [left | right | lia].
  - split; [lia|reflexivity].
  - exists p2, e2. auto.
Qed.

Lemma shl_align_spec mx ex ex' :
  exists m', shl_align mx ex ex' = (m', Z.min ex ex') /\
    Z.pos m' = Z.pos mx * 2 ^ (ex - Z.min ex ex').
Proof.
  unfold shl_align. destruct (ex' - ex) as [|d|d] eqn:Hd.
  - exists mx. rewrite Z.min_l by lia. rewrite Z.sub_diag. split; [reflexivity|]. lia.
  - exists mx. rewrite Z.min_l by lia. rewrite Z.sub_diag. split; [reflexivity|]. lia.
  - exists (shift_pos d mx). rewrite Z.min_r by lia. split; [reflexivity|].
    rewrite shift_pos_correct, Z.pow_pos_fold.
    replace (ex - ex') with (Z.pos d) by lia. lia.
Qed.

Lemma pow2_split a b : 0 <= a -> 0 <= b -> 2 ^ (a + b) = 2 ^ a * 2 ^ b.
Proof. intros. apply Z.pow_add_r; lia. Qed.

(** Rounding a value of [lo, hi], below 128, on a grid finer than 2^-46. *)
Lemma round_aux_range s (mx : positive) (ex lo hi : Z) :
  ex <= -46 -> 0 <= lo -> hi < 128 ->
  lo * 2 ^ (- ex) <= Z.pos mx <= hi * 2 ^ (- ex) ->
  (binary_round_aux prec emax s (Z.pos mx) ex loc_Exact = S754_zero s /\ lo = 0) \/
  exists m2 e2,
    binary_round_aux prec emax s (Z.pos mx) ex loc_Exact = S754_finite s m2 e2 /\
    e2 <= -45 /\ lo * 2 ^ (- e2) <= Z.pos m2 <= hi * 2 ^ (- e2).
Proof.
  intros Hex Hlo Hhi [Hl Hu].
  destruct (round_aux_spec s mx ex) as (m1 & G1 & G2 & Hr).
  set (d := Z.pos (digits2_pos mx)) in *.
  set (E := Z.max ex (fexp prec emax (d + ex))) in *.
  assert (Pex : 0 < 2 ^ (- ex)) by (apply Z.pow_pos_nonneg; lia).
  assert (Hd : d + ex <= 7).
  { pose proof (digits_lower mx) as Hdl. fold d in Hdl.
    assert (Z.pos mx < 2 ^ (7 - ex)).
    { replace (7 - ex) with (7 + - ex) by lia.
      rewrite pow2_split by lia. change (2 ^ 7) with 128. nia. }
    assert (d - 1 < 7 - ex) by (apply (Z.pow_lt_mono_r_iff 2); lia). lia. }
  assert (HE : ex <= E <= -46) by (unfold E; rewrite fexp_eq; lia).
  assert (PE : 0 < 2 ^ (- E)) by (apply Z.pow_pos_nonneg; lia).
  assert (Psplit : 2 ^ (- ex) = 2 ^ (- E) * 2 ^ (E - ex)).
  { rewrite <- pow2_split by lia. f_equal. lia. }
  assert (Hm1u : m1 <= hi * 2 ^ (- E)) by (apply G1; rewrite Psplit in Hu; lia).
  assert (Hm1l : lo * 2 ^ (- E) <= m1) by (apply G2; rewrite Psplit in Hl; lia).
  destruct Hr as [[Hz Hr]|(m2 & e2 & Hv & He2 & Hr)].
  - left. split; [exact Hr|]. nia.
  - right. exists m2, e2.
    assert (Hle : (e2 <=? emax - prec) = true) by (apply Z.leb_le; unfold emax, prec; lia).
    rewrite Hle in Hr. split; [exact Hr|]. split; [lia|].
    assert (P2 : 0 < 2 ^ (e2 - E)) by (apply Z.pow_pos_nonneg; lia).
    assert (Pe2 : 0 < 2 ^ (- e2)) by (apply Z.pow_pos_nonneg; lia).
    assert (Ps2 : 2 ^ (- E) = 2 ^ (- e2) * 2 ^ (e2 - E)).
    { rewrite <- pow2_split by lia. f_equal. lia. }
    rewrite Ps2 in Hm1u, Hm1l. rewrite <- Hv in Hm1u, Hm1l. split; nia.
Qed.

Lemma of_Z_100 : of_Z 100 = lit_100_0.
Proof. reflexivity. Qed.

(** *** The index [int(100 - pc * 100)] *)

Lemma int_range (m3 : positive) (e3 hi : Z) :
  e3 <= -45 -> Z.pos m3 <= hi * 2 ^ (- e3) ->
  exists idx, Py.int (S754_finite false m3 e3) = inr idx /\
    floor (S754_finite false m3 e3) = Some idx /\ 0 <= idx <= hi.
Proof.
  intros He Hm. simpl. destruct e3 as [|p|p]; try lia.
  exists (Z.pos m3 / 2 ^ Z.pos p). split; [reflexivity|]. split; [reflexivity|].
  assert (P : 0 < 2 ^ Z.pos p) by (apply Z.pow_pos_nonneg; lia).
  change (- Z.neg p) with (Z.pos p) in Hm. split.
  - apply Z.div_pos; lia.
  - apply Z.div_le_upper_bound; lia.
Qed.

(** For [pc = m * 2^e] in (0, 1] with [lo <= 100 * pc]: the product rounds
    into [lo, 100], the difference into [0, 100 - lo], and so does its
    integer part. *)
Lemma index_range (m : positive) (e lo : Z) :
  e <= -52 -> Z.pos m <= 2 ^ (- e) -> 0 <= lo <= 100 ->
  lo * 2 ^ (- e) <= 100 * Z.pos m ->
  exists idx,
    Py.int (sub (of_Z 100) (mul (S754_finite false m e) (of_Z 100))) = inr idx /\
    floor (sub (of_Z 100) (mul (S754_finite false m e) (of_Z 100))) = Some idx /\
    0 <= idx <= 100 - lo.
Proof.
  intros He Hm Hlo Hl. rewrite of_Z_100.
  change (mul (S754_finite false m e) lit_100_0)
    with (binary_round_aux prec emax false (Z.pos (m * 7036874417766400)) (e + -46)
            loc_Exact).
  assert (Pe : 0 < 2 ^ (- e)) by (apply Z.pow_pos_nonneg; lia).
  assert (Hs : 2 ^ (- (e + -46)) = 2 ^ 46 * 2 ^ (- e)).
  { rewrite <- pow2_split by lia. f_equal. lia. }
  assert (Hprod : lo * 2 ^ (- (e + -46)) <= Z.pos (m * 7036874417766400)
                  <= 100 * 2 ^ (- (e + -46))).
  { rewrite Hs, Pos2Z.inj_mul. change (Z.pos 7036874417766400) with (100 * 2 ^ 46).
    assert (0 < 2 ^ 46) by reflexivity. split; nia. }
  destruct (round_aux_range false (m * 7036874417766400) (e + -46) lo 100
              ltac:(lia) ltac:(lia) ltac:(lia) Hprod)
    as [[Hr Hz]|(m2 & e2 & Hr & He2 & Hb)].
  - rewrite Hr. exists 100. split; [reflexivity|]. split; [reflexivity|lia].
  - rewrite Hr. unfold sub, lit_100_0, SFsub.
    set (ez := Z.min (-46) e2).
    destruct (shl_align_spec 7036874417766400 (-46) ez) as (mA & HA & HAv).
    destruct (shl_align_spec m2 e2 ez) as (mB & HB & HBv).
    rewrite HA, HB. simpl fst. simpl cond_Zopp.
    assert (Hez : ez <= -46 /\ ez <= e2) by (unfold ez; lia).
    replace (Z.min (-46) ez) with ez in HAv by lia.
    replace (Z.min e2 ez) with ez in HBv by lia.
    assert (Pez : 0 < 2 ^ (- ez)) by (apply Z.pow_pos_nonneg; lia).
    assert (Pe2 : 0 < 2 ^ (- e2)) by (apply Z.pow_pos_nonneg; lia).
    assert (Pd : 0 < 2 ^ (e2 - ez)) by (apply Z.pow_pos_nonneg; lia).
    assert (HA' : Z.pos mA = 100 * 2 ^ (- ez)).
    { rewrite HAv. change (Z.pos 7036874417766400) with (100 * 2 ^ 46).
      rewrite <- Z.mul_assoc. rewrite <- pow2_split by lia. do 2 f_equal. lia. }
    assert (Hsp : 2 ^ (- ez) = 2 ^ (- e2) * 2 ^ (e2 - ez)).
    { rewrite <- pow2_split by lia. f_equal. lia. }
    assert (HBl : lo * 2 ^ (- ez) <= Z.pos mB) by (rewrite HBv, Hsp; nia).
    assert (HBu : Z.pos mB <= 100 * 2 ^ (- ez)) by (rewrite HBv, Hsp; nia).
    destruct (Z.pos mA - Z.pos mB) as [|pD|pD] eqn:HD; try lia.
    + exists 0. split; [reflexivity|]. split; [reflexivity|lia].
    + unfold binary_normalize, binary_round.
      destruct (shl_align_spec pD ez (fexp prec emax (Z.pos (digits2_pos pD) + ez)))
        as (mz & Hz & Hzv).
      rewrite Hz.
      set (ezz := Z.min ez (fexp prec emax (Z.pos (digits2_pos pD) + ez))) in *.
      assert (Hezz : ezz <= ez) by (unfold ezz; lia).
      assert (Pzz : 0 < 2 ^ (ez - ezz)) by (apply Z.pow_pos_nonneg; lia).
      assert (Hsz : 2 ^ (- ezz) = 2 ^ (- ez) * 2 ^ (ez - ezz)).
      { rewrite <- pow2_split by lia. f_equal. lia. }
      assert (Hdiff : 0 * 2 ^ (- ezz) <= Z.pos mz <= (100 - lo) * 2 ^ (- ezz)).
      { rewrite Hsz, Hzv. split; nia. }
      destruct (round_aux_range false mz ezz 0 (100 - lo)
                  ltac:(lia) ltac:(lia) ltac:(lia) Hdiff)
        as [[Hr3 _]|(m3 & e3 & Hr3 & He3 & Hb3)].
      * rewrite Hr3. exists 0. split; [reflexivity|]. split; [reflexivity|lia].
      * rewrite Hr3. apply int_range; lia.
Qed.

(** *** What the comparisons say of a well-formed value *)

Lemma canonical_digits m e :
  valid (S754_finite false m e) = true ->
  Z.pos (digits2_pos m) <= 53 /\ -1074 <= e /\
  (-1074 < e -> Z.pos (digits2_pos m) = 53).
Proof.
  unfold valid, valid_binary, bounded, canonical_mantissa. rewrite fexp_eq.
  intros H. apply andb_prop in H. destruct H as [H _]. apply Z.eqb_eq in H. lia.
Qed.

Lemma unit_interval_inv pc :
  valid pc = true -> leb zero pc = true -> leb pc lit_1_0 = true ->
  (exists s, pc = S754_zero s) \/
  exists m e, pc = S754_finite false m e /\ e <= -52 /\ Z.pos m <= 2 ^ (- e).
Proof.
  intros Hv H0 H1. destruct pc as [s|s| |s m e]; try discriminate.
  - left. eauto.
  - destruct s; try discriminate.
  - destruct s; [discriminate|]. right. exists m, e. split; [reflexivity|].
    destruct (canonical_digits m e Hv) as (Hd & Hmin & _).
    pose proof (digits_upper m) as Hu.
    unfold leb, SFleb, lit_1_0, SFcompare in H1.
    destruct (Z.compare_spec e (-52)) as [He|He|He]; try discriminate.
    + subst e. split; [lia|]. change (2 ^ (- -52)) with (Z.pos 4503599627370496).
      rewrite Pos.compare_cont_spec in H1. simpl in H1. clear - H1.
      destruct (Pos.compare_spec m 4503599627370496) as [Hc|Hc|Hc];
        [subst m; reflexivity | apply Z.lt_le_incl; exact Hc | discriminate H1].
    + split; [lia|].
      assert (2 ^ Z.pos (digits2_pos m) <= 2 ^ (- e)) by (apply Z.pow_le_mono_r; lia).
      lia.
Qed.

Lemma above_threshold_inv m e :
  valid (S754_finite false m e) = true ->
  ltb lit_0_15 (S754_finite false m e) = true ->
  2 ^ (- e) <= 100 * Z.pos m.
Proof.
  intros Hv H. destruct (canonical_digits m e Hv) as (Hd & Hmin & Hn).
  unfold ltb, SFltb, lit_0_15, SFcompare in H.
  assert (He : -55 <= e).
  { destruct (Z.compare_spec (-55) e); try discriminate; lia. }
  pose proof (digits_lower m) as Hl. rewrite Hn in Hl by lia.
  assert (2 ^ (- e) <= 2 ^ 55) by (apply Z.pow_le_mono_r; lia).
  change (2 ^ (53 - 1)) with 4503599627370496 in Hl.
  change (2 ^ 55) with 36028797018963968 in H0. lia.
Qed.

(** [int(100 - pc * 100)] on the unit interval: it does not raise, it is the
    floor of its argument and it lies in [0, 100]; above the threshold 0.15
    it is at most 99. *)
Lemma index_unit_interval pc :
  valid pc = true -> leb zero pc = true -> leb pc lit_1_0 = true ->
  exists idx,
    Py.int (sub (of_Z 100) (mul pc (of_Z 100))) = inr idx /\
    floor (sub (of_Z 100) (mul pc (of_Z 100))) = Some idx /\
    0 <= idx <= 100 /\
    (ltb lit_0_15 pc = true -> idx <= 99).
Proof.
  intros Hv H0 H1.
  destruct (unit_interval_inv pc Hv H0 H1) as [[s ->]|(m & e & -> & He & Hm)].
  - exists 100. destruct s; repeat split; try reflexivity; try lia; discriminate.
  - destruct (index_range m e 0 He Hm ltac:(lia) ltac:(lia)) as (idx & Hi & Hf & Hr).
    exists idx. repeat split; try assumption; try lia.
    intros Hlt. pose proof (above_threshold_inv m e Hv Hlt) as Hlo.
    destruct (index_range m e 1 He Hm ltac:(lia) ltac:(lia)) as (idx' & Hi' & _ & Hr').
    rewrite Hi in Hi'. injection Hi' as ->. lia.
Qed.

End FloatFacts.

(** ** Properties of the effect *)

Section ReactionProperties.

Context `{lib : ColorLibrary}.

(** Unfolding the monad. *)
Ltac run := unfold attr, bind, ret, raise, lift, modify, get_self, get_event in *.

Lemma for_each_puts (cs : list Coord.t) (c : option Color) (w : World) :
  for_each cs (fun coord => modify (with_put (Coord.y coord, Coord.x coord, c))) w =
  inr (tt, {| self := self w; heap := heap w;
              layer := layer w ++ puts (Some cs) c; log := log w;
              scheme_calls := scheme_calls w |}).
Proof.
  revert w. induction cs as [|co cs IH]; intros w; simpl.
  - run. rewrite app_nil_r. destruct w; reflexivity.
  - run. rewrite IH. simpl. rewrite <- app_assoc. reflexivity.
Qed.

(** A batch of event objects contains no string. *)
Lemma key_not_in_events (k : string) (events : list EventRef) :
  Py.contains (Py.Event <$> events) (Py.Str k) = false.
Proof. induction events as [|ev events IH]; [reflexivity|exact IH]. Qed.

(** [_react_keys] on an event whose bag holds a colour. *)
Lemma _react_keys_spec (event : EventRef) (c : option Color) (w : World) :
  data (heap w event) !! REACT_COLOR_KEY = Some c ->
  _react_keys event w =
  inr (tt, {| self := self w; heap := heap w;
              layer := layer w ++ puts (coords (heap w event)) c;
              log := log w ++ complaints (coords (heap w event)) event;
              scheme_calls := scheme_calls w |}).
Proof.
  intros Hc. unfold _react_keys, bind, get_event.
  destruct (coords (heap w event)) as [[|co cs]|] eqn:Hcs.
  - unfold modify. simpl. rewrite app_nil_r. reflexivity.
  - rewrite Hc. unfold lift. rewrite for_each_puts. simpl. rewrite app_nil_r.
    reflexivity.
  - unfold modify. simpl. rewrite app_nil_r. reflexivity.
Qed.

Lemma store_same ev e h : store ev e h ev = e.
Proof. unfold store. rewrite Nat.eqb_refl. reflexivity. Qed.

Lemma table_index (g : list Color) (idx : Z) :
  length g = 100%nat -> 0 <= idx <= 99 ->
  exists c, g !! Z.to_nat idx = Some c /\ Py.getitem g idx = inr c.
Proof.
  intros Hg Hi.
  destruct (lookup_lt_is_Some_2 g (Z.to_nat idx)) as [c Hc]; [lia|].
  exists c. split; [exact Hc|]. unfold Py.getitem. rewrite Hg.
  destruct (Z.ltb_spec idx 0); [lia|].
  destruct (Z.ltb_spec idx 0); [lia|].
  destruct (Z.leb_spec (Z.of_nat 100) idx); [lia|]. simpl. rewrite Hc. reflexivity.
Qed.

Lemma leb_false_ltb (m1 m2 : positive) (e1 e2 : Z) :
  SFleb (S754_finite false m1 e1) (S754_finite false m2 e2) = false ->
  SFltb (S754_finite false m2 e2) (S754_finite false m1 e1) = true.
Proof.
  unfold SFleb, SFltb, SFcompare.
  rewrite (Z.compare_antisym e1 e2).
  destruct (e1 ?= e2); simpl CompOpp; cbv iota; try reflexivity; try discriminate.
  rewrite !Pos.compare_cont_spec. unfold Pos.switch_Eq.
  rewrite (Pos.compare_antisym m1 m2).
  destruct (m1 ?= m2)%positive; simpl CompOpp; cbv iota;
    try reflexivity; discriminate.
Qed.

Lemma leb_ltb_threshold pc :
  unit_interval pc -> leb pc lit_0_15 = false -> ltb lit_0_15 pc = true.
Proof.
  intros (Hv & H0 & H1) H.
  destruct pc as [s|s| |s m e];
    [discriminate H | destruct s; [discriminate H0 | discriminate H1]
    | discriminate H1 | ].
  destruct s; [discriminate H0|]. apply leb_false_ltb. exact H.
Qed.

(** One pass of the loop of [_process_events]: the event receives the fade
    colour of the specification and is written out with it. *)
Lemma process_event_spec (events : list EventRef) (event : EventRef)
    (g : list Color) (w : World) :
  table_built (self w) g ->
  unit_interval (percent_complete (heap w event)) ->
  exists c, fade_color (self w) g (percent_complete (heap w event)) = Some c /\
    process_event events event w = inr (tt, after_event event c w).
Proof.
  intros (Hg & Hlen & Hcount) Hpc.
  pose proof Hpc as (Hv & H0 & H1).
  destruct (FloatFacts.index_unit_interval _ Hv H0 H1) as (idx & Hi & Hf & Hr & Hhi).
  unfold process_event, fade_color, fade_index.
  rewrite key_not_in_events. simpl negb. cbv iota. run.
  rewrite Hcount, Hlen. cbv beta iota.
  change (Py.float_of_int 100) with (inr (of_Z 100) : result float).
  change (Z.of_nat 100) with 100. cbv beta iota. rewrite Hi, Hf. cbv beta iota.
  destruct (leb (percent_complete (heap w event)) lit_0_15) eqn:Hle.
  - eexists. split; [reflexivity|].
    rewrite (_react_keys_spec event (background_color (self w))).
    + unfold after_event. simpl. rewrite store_same. simpl. reflexivity.
    + simpl. rewrite store_same. simpl. apply lookup_insert_eq.
  - pose proof (Hhi (leb_ltb_threshold _ Hpc Hle)) as Hidx.
    destruct (table_index g idx Hlen ltac:(lia)) as (c & Hc & Hget).
    rewrite Hg. cbv beta iota. rewrite Hget, Hc. cbv beta iota.
    destruct (Z.ltb_spec idx 0); [lia|].
    eexists. split; [reflexivity|].
    rewrite (_react_keys_spec event (Some c)).
    + unfold after_event. simpl. rewrite store_same. simpl. reflexivity.
    + simpl. rewrite store_same. simpl. apply lookup_insert_eq.
Qed.

Lemma after_event_percent (event : EventRef) (c : option Color) (w : World) r :
  percent_complete (heap (after_event event c w) r) = percent_complete (heap w r).
Proof.
  unfold after_event, store. simpl. destruct (Nat.eqb_spec r event) as [->|]; reflexivity.
Qed.

(** A whole pass over valid events returns, and leaves the effect as it was. *)
Lemma for_each_process_event (events rest : list EventRef) (g : list Color)
    (w : World) :
  table_built (self w) g ->
  Forall (fun ev => unit_interval (percent_complete (heap w ev))) rest ->
  exists w', for_each rest (process_event events) w = inr (tt, w') /\
    self w' = self w /\ scheme_calls w' = scheme_calls w.
Proof.
  revert w. induction rest as [|ev rest IH]; intros w Hg Hall.
  - exists w. auto.
  - inversion Hall as [|? ? Hev Hrest]; subst.
    destruct (process_event_spec events ev g w Hg Hev) as (c & _ & Hstep).
    destruct (IH (after_event ev c w)) as (w' & Hrun & Hself & Hcalls).
    + exact Hg.
    + eapply Forall_impl; [exact Hrest|]. intros r Hr. simpl in Hr.
      rewrite after_event_percent. exact Hr.
    + exists w'. cbn [for_each]. unfold bind at 1. rewrite Hstep.
      split; [exact Hrun|]. split; [rewrite Hself|rewrite Hcalls]; reflexivity.
Qed.

Lemma color_scheme_length (c b : colorarg) (steps : Z) (g : list Color) :
  ColorUtils.color_scheme c b steps = inr g -> length g = Z.to_nat steps.
Proof.
  unfold ColorUtils.color_scheme, ColorUtils.gradient.
  destruct (to_color c), (to_color b); intros H; try discriminate.
  injection H as <-. rewrite length_fmap, length_seqZ. reflexivity.
Qed.

(** [_set_colors] either raises or stores a table of 100 entries, after one
    call of the colour library for 100 steps. *)
Lemma _set_colors_spec (bg c : colorarg) (w w' : World) :
  _set_colors bg c w = inr (tt, w') ->
  exists g, ColorUtils.color_scheme c bg 100 = inr g /\
    table_built (self w') g /\
    scheme_calls w' = scheme_calls w ++
      [{| call_color := c; call_base_color := bg; call_steps := 100 |}] /\
    init_colors (self w') = init_colors (self w) /\
    key_expire_time (self w') = key_expire_time (self w).
Proof.
  unfold _set_colors. run. simpl.
  destruct (ColorUtils.color_scheme c bg 100) as [e|g] eqn:Hg; [discriminate|].
  intros H. injection H as <-. exists g. split; [reflexivity|].
  pose proof (color_scheme_length _ _ _ _ Hg) as Hlen.
  unfold table_built. simpl. rewrite Hlen. repeat split; reflexivity.
Qed.

Lemma table_inv_set_colors b bg c w w' :
  Forall (fun c => call_steps c = 100) (scheme_calls w) ->
  _set_colors bg c w = inr (tt, w') -> table_inv b w'.
Proof.
  intros Hc H. destruct (_set_colors_spec _ _ _ _ H) as (g & _ & (Hg & Hl & Hn) & Hcalls & _).
  unfold table_inv. rewrite Hcalls, Hg. split; [|auto].
  apply Forall_app. split; [exact Hc|]. repeat constructor.
Qed.

Lemma table_inv_set_speed b v w w' :
  table_inv b w -> _set_speed v w = inr (tt, w') -> table_inv b w'.
Proof.
  unfold _set_speed. run. destruct (Py.float_of_int _); [discriminate|].
  intros Hi H. injection H as <-. exact Hi.
Qed.

Lemma table_inv_notify b n w w' :
  table_inv b w -> notify n w = inr (tt, w') -> table_inv b w'.
Proof.
  intros Hi. destruct n as [c|c]; simpl.
  - unfold _change_speed. unfold bind at 1. unfold modify at 1.
    apply table_inv_set_speed. exact Hi.
  - unfold _update_colors. destruct (Change.new c).
    + unfold bind at 1. unfold modify at 1. unfold bind at 1. unfold get_self.
      apply table_inv_set_colors. apply Hi.
    + unfold ret. intros H. injection H as <-. exact Hi.
Qed.

Lemma table_inv_assign b a w n w' :
  table_inv b w -> assign a w = inr (n, w') -> table_inv b w'.
Proof.
  intros Hi. unfold assign. run. destruct a as [v|c|c].
  - destruct (_ || _); [discriminate|]. intros H. injection H as _ <-. exact Hi.
  - intros H. injection H as _ <-. exact Hi.
  - intros H. injection H as _ <-. exact Hi.
Qed.

Lemma table_inv_for_each_notify b cache w w' :
  table_inv b w -> for_each cache notify w = inr (tt, w') -> table_inv b w'.
Proof.
  revert w. induction cache as [|n cache IH]; intros w Hi; cbn [for_each].
  - unfold ret. intros H. injection H as <-. exact Hi.
  - unfold bind at 1. destruct (notify n w) as [e|[[] w1]] eqn:Hn; [discriminate|].
    apply IH. eapply table_inv_notify; eauto.
Qed.

Lemma table_inv_hold b body cache w cache' w' :
  table_inv b w -> hold body cache w = inr (cache', w') -> table_inv b w'.
Proof.
  revert cache w. induction body as [|a body IH]; intros cache w Hi; cbn [hold].
  - unfold ret. intros H. injection H as _ <-. exact Hi.
  - unfold bind at 1. destruct (assign a w) as [e|[n w1]] eqn:Ha; [discriminate|].
    apply IH. eapply table_inv_assign; eauto.
Qed.

Lemma table_inv_hold_trait_notifications b body w w' :
  table_inv b w -> hold_trait_notifications body w = inr (tt, w') -> table_inv b w'.
Proof.
  intros Hi. unfold hold_trait_notifications. unfold bind at 1.
  destruct (hold body [] w) as [e|[cache w1]] eqn:Hh; [discriminate|].
  apply table_inv_for_each_notify. eapply table_inv_hold; eauto.
Qed.

Lemma table_inv_set_trait b a w w' :
  table_inv b w -> set_trait a w = inr (tt, w') -> table_inv b w'.
Proof.
  intros Hi. unfold set_trait. unfold bind at 1.
  destruct (assign a w) as [e|[n w1]] eqn:Ha; [discriminate|].
  pose proof (table_inv_assign _ _ _ _ _ Hi Ha) as Hi1.
  destruct n as [n|].
  - apply table_inv_notify. exact Hi1.
  - unfold ret. intros H. injection H as <-. exact Hi1.
Qed.

Lemma table_inv_new b kwargs w0 w :
  scheme_calls w0 = [] -> new_Reaction kwargs w0 = inr (tt, w) -> table_inv b w.
Proof.
  intros Hc. unfold new_Reaction. unfold bind at 1. unfold modify at 1.
  set (w1 := with_self (fun _ => blank) w0).
  assert (Hi1 : table_inv false w1).
  { unfold table_inv, w1. simpl. rewrite Hc. auto. }
  unfold __init__. unfold bind at 1.
  destruct (hold_trait_notifications kwargs w1) as [e|[[] w2]] eqn:Hh; [discriminate|].
  pose proof (table_inv_hold_trait_notifications _ _ _ _ Hi1 Hh) as Hi2.
  unfold bind at 1. unfold modify at 1. unfold bind at 1. unfold get_self at 1.
  set (w3 := with_self _ w2).
  assert (Hi3 : table_inv false w3) by exact Hi2.
  unfold bind at 1.
  assert (Hsp : forall w4, (if negb (init_speed (self w3)) then _set_speed DEFAULT_SPEED
                            else ret tt) w3 = inr (tt, w4) -> table_inv false w4).
  { intros w4. destruct (negb _).
    - apply table_inv_set_speed. exact Hi3.
    - unfold ret. intros H. injection H as <-. exact Hi3. }
  destruct ((if negb (init_speed (self w3)) then _set_speed DEFAULT_SPEED
             else ret tt) w3) as [e|[[] w4]]; [discriminate|].
  specialize (Hsp w4 eq_refl). unfold bind at 1. unfold get_self at 1.
  destruct (init_colors (self w4)) eqn:Hic; simpl negb; cbv iota.
  - unfold ret. intros H. injection H as <-.
    destruct Hsp as [Hs1 Hs2]. split; [exact Hs1|].
    destruct (_gradient (self w4)); [exact Hs2|]. destruct Hs2; congruence.
  - apply table_inv_set_colors. apply Hsp.
Qed.


Lemma _react_keys_frame (event : EventRef) (w w' : World) :
  _react_keys event w = inr (tt, w') ->
  self w' = self w /\ scheme_calls w' = scheme_calls w.
Proof.
  unfold _react_keys, bind, get_event.
  destruct (coords (heap w event)) as [[|co cs]|].
  - unfold modify. intros H. injection H as <-. auto.
  - destruct (data (heap w event) !! REACT_COLOR_KEY) as [c|]; unfold lift;
      [|discriminate].
    rewrite for_each_puts. intros H. injection H as <-. auto.
  - unfold modify. intros H. injection H as <-. auto.
Qed.

Lemma process_event_frame (events : list EventRef) (event : EventRef)
    (w w' : World) :
  process_event events event w = inr (tt, w') ->
  self w' = self w /\ scheme_calls w' = scheme_calls w.
Proof.
  unfold process_event. rewrite key_not_in_events. simpl negb. cbv iota.
  unfold bind at 1.
  match goal with |- context [match ?c w with _ => _ end] =>
    assert (Hres : forall w1, c w = inr (tt, w1) ->
                   self w1 = self w /\ scheme_calls w1 = scheme_calls w);
    [|destruct (c w) as [e|[[] w1]]; [discriminate|]]
  end.
  - intros w1. run.
    destruct (_gradient_count (self w)); [|discriminate].
    destruct (Py.float_of_int _); [discriminate|].
    destruct (Py.int _); [discriminate|].
    destruct (leb _ _).
    + intros H. injection H as <-. auto.
    + destruct (_gradient (self w)); [|discriminate].
      destruct (Py.getitem _ _); [discriminate|].
      intros H. injection H as <-. auto.
  - intros H. destruct (Hres w1 eq_refl) as [<- <-].
    apply (_react_keys_frame event). exact H.
Qed.

Lemma for_each_frame (events rest : list EventRef) (w w' : World) :
  for_each rest (process_event events) w = inr (tt, w') ->
  self w' = self w /\ scheme_calls w' = scheme_calls w.
Proof.
  revert w. induction rest as [|ev rest IH]; intros w; cbn [for_each].
  - unfold ret. intros H. injection H as <-. auto.
  - unfold bind at 1.
    destruct (process_event events ev w) as [e|[[] w1]] eqn:Hs; [discriminate|].
    intros H. destruct (process_event_frame _ _ _ _ Hs) as [<- <-].
    apply (IH w1). exact H.
Qed.

Lemma draw_frame (events : list EventRef) (changed : bool) (w w' : World) :
  draw events w = inr (changed, w') ->
  self w' = self w /\ scheme_calls w' = scheme_calls w.
Proof.
  unfold draw. destruct (0 <? _).
  - unfold bind at 1. unfold _process_events. unfold bind at 1. unfold get_self.
    destruct (_gradient (self w)).
    + destruct (for_each events (process_event events) w) as [e|[[] w1]] eqn:Hf;
        [discriminate|].
      unfold ret. intros H. injection H as _ <-. eapply for_each_frame; eauto.
    + unfold ret. intros H. injection H as _ <-. auto.
  - unfold ret. intros H. injection H as _ <-. auto.
Qed.

Lemma reachable_table_inv (w : World) : reachable w -> table_inv true w.
Proof.
  induction 1 as [w0 kwargs w Hc Hn|w a w' _ IH Hs|w body w' _ IH Hh
                 |w events changed w' _ IH Hd|w h l lg _ IH].
  - eapply table_inv_new; eauto.
  - eapply table_inv_set_trait; eauto.
  - eapply table_inv_hold_trait_notifications; eauto.
  - destruct (draw_frame _ _ _ _ Hd) as [Hs Hc]. unfold table_inv.
    rewrite Hs, Hc. exact IH.
  - exact IH.
Qed.

(** A constructed effect always holds a table of 100 entries. *)
Lemma reachable_table_built (w : World) :
  reachable w -> exists g, table_built (self w) g.
Proof.
  intros Hr. destruct (reachable_table_inv w Hr) as [_ Hg]. unfold table_built.
  destruct (_gradient (self w)) as [g|].
  - exists g. tauto.
  - destruct Hg. discriminate.
Qed.


Lemma above_threshold_nonneg pc : ltb lit_0_15 pc = true -> leb zero pc = true.
Proof.
  destruct pc as [s|s| |s m e]; try discriminate.
  - destruct s; [discriminate|reflexivity].
  - destruct s; [discriminate|reflexivity].
Qed.

(** C1: with a built table of 100 entries, an event of decay progress at most
    0.15 is given exactly [background_color], and an event above 0.15 is given
    the table entry at index [floor(100 - percent_complete * 100)]; the
    colour is stored in the data bag and written at each coordinate.  At 1.0
    the index is 0, 0.15 is on the background side of the threshold and 0.16
    on the table side. *)
Theorem C1_fade_color_resolution (events : list EventRef) (event : EventRef)
    (g : list Color) (w : World) :
  table_built (self w) g ->
  unit_interval (percent_complete (heap w event)) ->
  let pc := percent_complete (heap w event) in
  exists c : option Color,
    process_event events event w = inr (tt, after_event event c w) /\
    data (heap (after_event event c w) event) !! REACT_COLOR_KEY = Some c /\
    fade_color (self w) g pc = Some c /\
    (leb pc lit_0_15 = true -> c = background_color (self w)) /\
    (leb pc lit_0_15 = false ->
     exists idx c', fade_index g pc = Some idx /\ 0 <= idx <= 99 /\
       g !! Z.to_nat idx = Some c' /\ c = Some c') /\
    fade_index g lit_1_0 = Some 0 /\
    leb lit_0_15 lit_0_15 = true /\ leb lit_0_16 lit_0_15 = false.
Proof.
  intros Hg Hpc pc.
  destruct (process_event_spec events event g w Hg Hpc) as (c & Hfade & Hstep).
  fold pc in Hfade. destruct Hg as (Hg & Hlen & Hcount).
  pose proof Hpc as (Hv & H0 & H1).
  destruct (FloatFacts.index_unit_interval _ Hv H0 H1) as (idx & _ & Hf & Hr & Hhi).
  fold pc in Hf, Hhi.
  assert (Hfi : fade_index g pc = Some idx).
  { unfold fade_index. rewrite Hlen. exact Hf. }
  exists c. split; [exact Hstep|]. split.
  { unfold after_event. simpl. rewrite store_same. simpl. apply lookup_insert_eq. }
  split; [exact Hfade|]. unfold fade_color in Hfade. rewrite Hfi in Hfade.
  split; [|split].
  - intros Hle. rewrite Hle in Hfade. congruence.
  - intros Hle. rewrite Hle in Hfade.
    pose proof (Hhi (leb_ltb_threshold _ Hpc Hle)) as Hidx.
    destruct (Z.ltb_spec idx 0); [lia|].
    destruct (g !! Z.to_nat idx) as [c'|] eqn:Hc; [|discriminate].
    exists idx, c'. repeat split; try lia; congruence.
  - unfold fade_index. rewrite Hlen. repeat split; reflexivity.
Qed.

Lemma ltb_true_leb (m1 m2 : positive) (e1 e2 : Z) :
  SFltb (S754_finite false m2 e2) (S754_finite false m1 e1) = true ->
  SFleb (S754_finite false m1 e1) (S754_finite false m2 e2) = false.
Proof.
  unfold SFleb, SFltb, SFcompare.
  rewrite (Z.compare_antisym e1 e2).
  destruct (e1 ?= e2); simpl CompOpp; cbv iota; try reflexivity; try discriminate.
  rewrite !Pos.compare_cont_spec. unfold Pos.switch_Eq.
  rewrite (Pos.compare_antisym m1 m2).
  destruct (m1 ?= m2)%positive; simpl CompOpp; cbv iota;
    try reflexivity; discriminate.
Qed.

Lemma above_threshold_not_leb pc :
  ltb lit_0_15 pc = true -> leb pc lit_1_0 = true -> leb pc lit_0_15 = false.
Proof.
  intros Hlt H1.
  destruct pc as [s|s| |s m e];
    [discriminate Hlt | destruct s; [discriminate Hlt | discriminate H1]
    | discriminate Hlt | ].
  destruct s; [discriminate Hlt|]. apply ltb_true_leb. exact Hlt.
Qed.

(** C5: in the loop body of [_process_events], with a table of 100 entries
    and a decay progress of at most 1: above 0.15 the index
    [floor(100 - percent_complete * 100)] that [int] computes lies in
    [0, 99], the lookup succeeds and the step stores and writes the entry
    found; at 0.15 or below the step takes the background colour and
    returns, without any lookup.  At 0 the index is 100, where the lookup
    raises [IndexError], and the step still returns with the background
    colour: the threshold branch guards the table. *)
Theorem C5_table_index_in_bounds (events : list EventRef) (event : EventRef)
    (g : list Color) (w : World) :
  table_built (self w) g ->
  valid (percent_complete (heap w event)) = true ->
  leb (percent_complete (heap w event)) lit_1_0 = true ->
  (ltb lit_0_15 (percent_complete (heap w event)) = true ->
   exists idx c,
     Py.int (sub (of_Z 100) (mul (percent_complete (heap w event)) (of_Z 100))) =
       inr idx /\
     floor (sub (of_Z 100) (mul (percent_complete (heap w event)) (of_Z 100))) =
       Some idx /\
     0 <= idx <= 99 /\ Py.getitem g idx = inr c /\
     process_event events event w = inr (tt, after_event event (Some c) w)) /\
  (leb zero (percent_complete (heap w event)) = true ->
   leb (percent_complete (heap w event)) lit_0_15 = true ->
   process_event events event w =
     inr (tt, after_event event (background_color (self w)) w)) /\
  (percent_complete (heap w event) = zero ->
   Py.int (sub (of_Z 100) (mul (percent_complete (heap w event)) (of_Z 100))) =
     inr 100 /\
   Py.getitem g 100 = inl IndexError /\
   leb (percent_complete (heap w event)) lit_0_15 = true /\
   process_event events event w =
     inr (tt, after_event event (background_color (self w)) w)).
Proof.
  intros Hb Hv H1.
  assert (Hlow : leb zero (percent_complete (heap w event)) = true ->
                 leb (percent_complete (heap w event)) lit_0_15 = true ->
                 process_event events event w =
                   inr (tt, after_event event (background_color (self w)) w)).
  { intros H0 Hle.
    destruct (process_event_spec events event g w Hb (conj Hv (conj H0 H1)))
      as (c & Hfade & Hstep).
    unfold fade_color in Hfade. rewrite Hle in Hfade.
    injection Hfade as <-. exact Hstep. }
  destruct Hb as (Hg & Hlen & Hcount).
  split; [|split; [exact Hlow|]].
  - intros Hlt. pose proof (above_threshold_nonneg _ Hlt) as H0.
    destruct (process_event_spec events event g w (conj Hg (conj Hlen Hcount))
                (conj Hv (conj H0 H1))) as (c & Hfade & Hstep).
    destruct (FloatFacts.index_unit_interval _ Hv H0 H1) as (idx & Hi & Hf & Hr & Hhi).
    specialize (Hhi Hlt).
    destruct (table_index g idx Hlen ltac:(lia)) as (c' & Hc' & Hget).
    exists idx, c'. split; [exact Hi|]. split; [exact Hf|]. split; [lia|].
    split; [exact Hget|].
    unfold fade_color, fade_index in Hfade.
    rewrite (above_threshold_not_leb _ Hlt H1), Hlen in Hfade.
    change (Z.of_nat 100) with 100 in Hfade. rewrite Hf in Hfade.
    destruct (Z.ltb_spec idx 0); [lia|]. rewrite Hc' in Hfade.
    injection Hfade as <-. exact Hstep.
  - intros Hz. rewrite Hz in Hlow |- *.
    split; [reflexivity|]. split.
    + unfold Py.getitem. rewrite Hlen. reflexivity.
    + split; [reflexivity|]. apply Hlow; reflexivity.
Qed.

Lemma speeds_1_9 (v : Z) : 1 <= v <= 9 -> In v [1; 2; 3; 4; 5; 6; 7; 8; 9].
Proof. intros H. simpl. lia. Qed.

Lemma expire_time_exact (v : Z) :
  1 <= v <= 9 -> mul (expire_time v) (of_Z 4) = of_Z (MAX_SPEED + 1 - v).
Proof.
  intros H. apply speeds_1_9 in H. simpl in H.
  repeat (destruct H as [<-|H]; [reflexivity|]). destruct H.
Qed.

Lemma expire_time_decreasing (v v' : Z) :
  1 <= v -> v < v' -> v' <= 9 -> ltb (expire_time v') (expire_time v) = true.
Proof.
  intros H1 H2 H3.
  assert (Hall : forallb (fun a => forallb (fun b =>
            implb (a <? b) (ltb (expire_time b) (expire_time a)))
            [1; 2; 3; 4; 5; 6; 7; 8; 9]) [1; 2; 3; 4; 5; 6; 7; 8; 9] = true)
    by (vm_compute; reflexivity).
  rewrite forallb_forall in Hall. specialize (Hall v (speeds_1_9 v ltac:(lia))).
  rewrite forallb_forall in Hall. specialize (Hall v' (speeds_1_9 v' ltac:(lia))).
  destruct (Z.ltb_spec v v'); [exact Hall|lia].
Qed.

Lemma _set_speed_spec (v : Z) (w : World) :
  1 <= v <= 9 ->
  exists w', _set_speed v w = inr (tt, w') /\
    key_expire_time (self w') = Some (expire_time v) /\
    speed (self w') = speed (self w).
Proof.
  intros H. unfold _set_speed. run.
  assert (Hf : Py.float_of_int (MAX_SPEED + 1 - v) = inr (of_Z (MAX_SPEED + 1 - v))).
  { apply speeds_1_9 in H. simpl in H.
    repeat (destruct H as [<-|H]; [reflexivity|]). destruct H. }
  rewrite Hf. eexists. split; [reflexivity|]. split; reflexivity.
Qed.

Lemma new_Reaction_default (w : World) :
  new_Reaction [] w =
  _set_colors (ArgStr "#000000") (ArgStr "#FFFFFF") (default_world w).
Proof. reflexivity. Qed.

(** C4: for a speed of [1, 9], the speed observer and the assignment of a new
    speed leave [key_expire_time] at [(MAX_SPEED + 1 - speed) * 0.25], a
    product that is exact; a default construction leaves it at the value for
    speed 6; the values for 6, 9 and 1 are 1.0, 0.25 and 2.25, and a higher
    speed gives a strictly shorter time. *)
Theorem C4_key_expire_time (value : Z) (w : World) :
  1 <= value <= 9 ->
  (forall old, exists w',
     _change_speed (Change.make "speed" old value) w = inr (tt, w') /\
     key_expire_time (self w') = Some (expire_time value)) /\
  (speed (self w) <> value -> exists w',
     set_trait (SetSpeed value) w = inr (tt, w') /\
     speed (self w') = value /\
     key_expire_time (self w') = Some (expire_time value)) /\
  (forall w', new_Reaction [] w = inr (tt, w') ->
     key_expire_time (self w') = Some (expire_time DEFAULT_SPEED)) /\
  mul (expire_time value) (of_Z 4) = of_Z (9 + 1 - value) /\
  (forall value', value < value' <= 9 ->
     ltb (expire_time value') (expire_time value) = true) /\
  expire_time 6 = lit_1_0 /\ expire_time 9 = lit_0_25 /\ expire_time 1 = lit_2_25.
Proof.
  intros Hv. split; [|split; [|split; [|split; [|split]]]].
  - intros old. unfold _change_speed. unfold bind at 1. unfold modify at 1.
    cbn [Change.new].
    match goal with |- context [_set_speed value ?w1] =>
      destruct (_set_speed_spec value w1 Hv) as (w' & Hs & Hk & _) end.
    exists w'. split; [exact Hs|exact Hk].
  - intros Hne. unfold set_trait, assign. run. cbn [self].
    destruct (Z.ltb_spec value 1); [lia|]. destruct (Z.ltb_spec MAX_SPEED value);
      [unfold MAX_SPEED in *; lia|]. cbn [orb].
    cbn [self with_self].
    destruct (Z.eqb_spec (speed (self w)) value); [contradiction|].
    cbn [notify]. unfold _change_speed. unfold bind at 1. unfold modify at 1.
    cbn [Change.new].
    match goal with |- context [_set_speed value ?w1] =>
      destruct (_set_speed_spec value w1 Hv) as (w' & Hs & Hk & Hsp) end.
    exists w'. split; [exact Hs|]. split; [rewrite Hsp; reflexivity|exact Hk].
  - intros w'. rewrite new_Reaction_default. intros H.
    destruct (_set_colors_spec _ _ _ _ H) as (g & _ & _ & _ & _ & Hk).
    rewrite Hk. reflexivity.
  - apply expire_time_exact. exact Hv.
  - intros value' Hv'. apply expire_time_decreasing; lia.
  - repeat split; reflexivity.
Qed.


Lemma _process_events_built (events : list EventRef) (g : list Color) (w : World) :
  table_built (self w) g ->
  _process_events events w = for_each events (process_event events) w.
Proof.
  intros (Hg & _). unfold _process_events. unfold bind at 1. unfold get_self.
  rewrite Hg. reflexivity.
Qed.

(** C6: an event without coordinates (missing or empty) makes [_react_keys]
    log one error, write nothing and return; within a frame of a constructed
    effect the pass over such an event leaves the layer as it was, adds exactly
    that one record to the log, and the loop goes on with the remaining
    events, which it completes when their decay progress is valid. *)
Theorem C6_event_without_coordinates (event : EventRef) (rest : list EventRef)
    (w : World) :
  reachable w ->
  unit_interval (percent_complete (heap w event)) ->
  coords (heap w event) = None \/ coords (heap w event) = Some [] ->
  _react_keys event w =
    inr (tt, with_log (LogError "No coordinates available: %s" event) w) /\
  exists w',
    process_event (event :: rest) event w = inr (tt, w') /\
    layer w' = layer w /\
    log w' = log w ++ [LogError "No coordinates available: %s" event] /\
    _process_events (event :: rest) w =
      for_each rest (process_event (event :: rest)) w' /\
    (Forall (fun ev => unit_interval (percent_complete (heap w ev))) rest ->
     exists w'', _process_events (event :: rest) w = inr (tt, w'')).
Proof.
  intros Hr Hpc Hcs. split.
  { unfold _react_keys, bind, get_event. destruct Hcs as [-> | ->]; reflexivity. }
  destruct (reachable_table_built w Hr) as [g Hg].
  destruct (process_event_spec (event :: rest) event g w Hg Hpc) as (c & _ & Hstep).
  exists (after_event event c w). split; [exact Hstep|].
  assert (Hrun : _process_events (event :: rest) w =
                 for_each rest (process_event (event :: rest)) (after_event event c w)).
  { rewrite (_process_events_built _ g w Hg). cbn [for_each]. unfold bind at 1.
    rewrite Hstep. reflexivity. }
  split; [|split; [|split; [exact Hrun|]]].
  - unfold after_event. cbn [layer]. destruct Hcs as [-> | ->]; apply app_nil_r.
  - unfold after_event. cbn [log]. destruct Hcs as [-> | ->]; reflexivity.
  - intros Hall. rewrite Hrun.
    destruct (for_each_process_event (event :: rest) rest g (after_event event c w))
      as (w'' & Hw & _).
    + exact Hg.
    + eapply Forall_impl; [exact Hall|]. intros r Hv. simpl in Hv.
      rewrite after_event_percent. exact Hv.
    + exists w''. exact Hw.
Qed.

(** C7: in a frame of a constructed effect, [draw] on an empty batch returns
    false and leaves the world, hence the layer, as it was; on a batch of at
    least one event (of valid decay progress) it processes the batch and
    returns true. *)
Theorem C7_draw_reports_change (events : list EventRef) (w : World) :
  reachable w ->
  Forall (fun ev => unit_interval (percent_complete (heap w ev))) events ->
  match events with
  | [] => draw events w = inr (false, w)
  | _ :: _ => exists w', _process_events events w = inr (tt, w') /\
                         draw events w = inr (true, w')
  end.
Proof.
  intros Hr Hall. destruct events as [|ev evs]; [reflexivity|].
  destruct (reachable_table_built w Hr) as [g Hg].
  destruct (for_each_process_event (ev :: evs) (ev :: evs) g w Hg Hall)
    as (w' & Hrun & _).
  rewrite <- (_process_events_built _ g w Hg) in Hrun.
  exists w'. split; [exact Hrun|]. unfold draw.
  destruct (Z.ltb_spec 0 (Z.of_nat (length (ev :: evs)))) as [_|Hl];
    [|simpl in Hl; lia].
  unfold bind. rewrite Hrun. reflexivity.
Qed.

(** C8: a colour-change notification with a defined new value, received while
    [background_color] equals opaque black, rebuilds the table from a call of
    the colour library whose base colour is [None] and whose colour is the
    current [color]. *)
Theorem C8_black_background_is_undefined_base (change : Change.t (option Color))
    (w : World) :
  is_Some (Change.new change) ->
  opt_Color_eq_tuple (background_color (self w)) [0; 0; 0; 1] = true ->
  exists g w',
    _update_colors change w = inr (tt, w') /\
    scheme_calls w' = scheme_calls w ++
      [{| call_color := arg_of_color (color (self w));
          call_base_color := ArgNone; call_steps := 100 |}] /\
    ColorUtils.color_scheme (arg_of_color (color (self w))) ArgNone 100 = inr g /\
    _gradient (self w') = Some g.
Proof.
  intros [c Hc] Hblack. unfold _update_colors. rewrite Hc.
  unfold bind at 1. unfold modify at 1. unfold bind at 1. unfold get_self.
  cbn [self with_self background_color color]. rewrite Hblack. cbn [arg_of_color].
  assert (Hs : exists g, ColorUtils.color_scheme (arg_of_color (color (self w)))
                           ArgNone 100 = inr g).
  { unfold ColorUtils.color_scheme. destruct (color (self w)); simpl; eauto. }
  destruct Hs as [g Hs]. exists g.
  unfold _set_colors. unfold bind at 1. unfold modify at 1. unfold bind at 1.
  unfold lift. rewrite Hs. unfold modify. eexists. split; [reflexivity|].
  split; [reflexivity|]. split; reflexivity.
Qed.

(** C9: every world of a constructed effect holds a table of exactly 100
    entries whose stored count is 100, every call of the colour library so far
    asked for 100 steps, and any further rebuild leaves again a table of 100
    entries with count 100. *)
Theorem C9_table_length_is_100 (w : World) :
  reachable w ->
  (exists g, table_built (self w) g) /\
  Forall (fun c => call_steps c = 100) (scheme_calls w) /\
  (forall bg c w', _set_colors bg c w = inr (tt, w') ->
     exists g', table_built (self w') g').
Proof.
  intros Hr. split; [exact (reachable_table_built w Hr)|].
  split; [exact (proj1 (reachable_table_inv w Hr))|].
  intros bg c w' H. destruct (_set_colors_spec _ _ _ _ H) as (g' & _ & Hb & _).
  exists g'. exact Hb.
Qed.


Lemma default_scheme :
  ColorUtils.color_scheme (ArgStr "#FFFFFF") (ArgStr "#000000") 100 =
  inr default_table.
Proof. vm_compute. reflexivity. Qed.

Lemma default_table_ends :
  default_table !! 0%nat = Some white /\ default_table !! 99%nat = Some black /\
  last default_table = Some black.
Proof. vm_compute. auto. Qed.

Lemma _set_speed_default (w : World) :
  exists w', _set_speed DEFAULT_SPEED w = inr (tt, w') /\
    init_colors (self w') = init_colors (self w) /\
    scheme_calls w' = scheme_calls w.
Proof. eexists. split; [reflexivity|]. split; reflexivity. Qed.

(** C10: when the constructor's own trait assignments have set no colour
    ([init_colors] is still unset after [super().__init__]), [__init__] builds
    the table with the literal ["#000000"] as base colour, a colour that
    equals opaque black and that a change notification would have replaced by
    [None]; the resulting table runs from white to literal black, whatever
    background the colour library would have chosen. *)
Theorem C10_default_base_is_literal_black (kwargs : list assignment)
    (w0 w1 w : World) :
  hold_trait_notifications kwargs w0 = inr (tt, w1) ->
  init_colors (self w1) = false ->
  __init__ kwargs w0 = inr (tt, w) ->
  scheme_calls w = scheme_calls w1 ++
    [{| call_color := ArgStr "#FFFFFF"; call_base_color := ArgStr "#000000";
        call_steps := 100 |}] /\
  to_color (ArgStr "#000000") = inr (Some black) /\
  opt_Color_eq_tuple (Some black) [0; 0; 0; 1] = true /\
  exists g, _gradient (self w) = Some g /\
    g !! 0%nat = Some white /\ g !! 99%nat = Some black /\ last g = Some black.
Proof.
  intros Hh Hic. unfold __init__. unfold bind at 1. rewrite Hh.
  unfold bind at 1. unfold modify at 1. unfold bind at 1. unfold get_self at 1.
  set (w2 := with_self _ w1).
  assert (H2 : init_colors (self w2) = false /\ scheme_calls w2 = scheme_calls w1)
    by (split; [exact Hic|reflexivity]).
  unfold bind at 1.
  assert (H3 : exists w3, (if negb (init_speed (self w2)) then _set_speed DEFAULT_SPEED
                           else ret tt) w2 = inr (tt, w3) /\
               init_colors (self w3) = false /\ scheme_calls w3 = scheme_calls w1).
  { destruct (negb (init_speed (self w2))).
    - destruct (_set_speed_default w2) as (w3 & Hs & Hi & Hc).
      exists w3. split; [exact Hs|]. split; [rewrite Hi|rewrite Hc]; apply H2.
    - exists w2. split; [reflexivity|exact H2]. }
  destruct H3 as (w3 & -> & Hic3 & Hc3).
  unfold bind at 1. unfold get_self at 1. rewrite Hic3. simpl negb. cbv iota.
  unfold _set_colors. unfold bind at 1. unfold modify at 1. unfold bind at 1.
  unfold lift. rewrite default_scheme. unfold modify. intros H. injection H as <-.
  cbn [scheme_calls with_call with_self self _gradient]. rewrite Hc3.
  split; [reflexivity|]. split; [vm_compute; reflexivity|].
  split; [reflexivity|]. exists default_table. split; [reflexivity|].
  exact default_table_ends.
Qed.

End ReactionProperties.

(** ** The frame loop and the speed, over every state and batch *)

Section ReactionFrame.

Context `{lib : ColorLibrary}.

Ltac step := unfold attr, bind, ret, raise, lift, modify, get_self, get_event in *.

Lemma _react_keys_appends (event : EventRef) (w w' : World) :
  _react_keys event w = inr (tt, w') ->
  self w' = self w /\ scheme_calls w' = scheme_calls w /\ heap w' = heap w /\
  (exists l, layer w' = layer w ++ l) /\ (exists lg, log w' = log w ++ lg).
Proof.
  unfold _react_keys, bind, get_event.
  destruct (coords (heap w event)) as [[|co cs]|].
  - unfold modify. intros H. injection H as <-. cbn.
    repeat split; eauto. exists []. symmetry. apply app_nil_r.
  - destruct (data (heap w event) !! REACT_COLOR_KEY) as [c|]; unfold lift;
      [|discriminate].
    rewrite for_each_puts. intros H. injection H as <-. cbn.
    repeat split; eauto. exists []. symmetry. apply app_nil_r.
  - unfold modify. intros H. injection H as <-. cbn.
    repeat split; eauto. exists []. symmetry. apply app_nil_r.
Qed.

Lemma store_other ev e h r : r <> ev -> store ev e h r = h r.
Proof. unfold store. intros H. destruct (Nat.eqb_spec r ev); [contradiction|reflexivity]. Qed.

Lemma store_set_data ev k v h r :
  coords (store ev (set_data k v (h ev)) h r) = coords (h r) /\
  percent_complete (store ev (set_data k v (h ev)) h r) = percent_complete (h r).
Proof. unfold store. destruct (Nat.eqb_spec r ev) as [->|]; auto. Qed.

Lemma process_event_appends (events : list EventRef) (event : EventRef)
    (w w' : World) :
  process_event events event w = inr (tt, w') ->
  self w' = self w /\ scheme_calls w' = scheme_calls w /\
  (forall r, r <> event -> heap w' r = heap w r) /\
  (forall r, coords (heap w' r) = coords (heap w r) /\
             percent_complete (heap w' r) = percent_complete (heap w r)) /\
  (exists l, layer w' = layer w ++ l) /\ (exists lg, log w' = log w ++ lg).
Proof.
  unfold process_event. rewrite key_not_in_events. simpl negb. cbv iota.
  unfold bind at 1.
  match goal with |- context [match ?c w with _ => _ end] =>
    assert (Hres : forall w1, c w = inr (tt, w1) ->
              exists v, w1 = with_event event (set_data REACT_COLOR_KEY v) w);
    [|destruct (c w) as [e|[[] w1]]; [discriminate|]]
  end.
  - intros w1. step.
    destruct (_gradient_count (self w)); [|discriminate].
    destruct (Py.float_of_int _); [discriminate|].
    destruct (Py.int _); [discriminate|].
    destruct (leb _ _).
    + intros H. injection H as <-. eauto.
    + destruct (_gradient (self w)); [|discriminate].
      destruct (Py.getitem _ _); [discriminate|].
      intros H. injection H as <-. eauto.
  - intros H. destruct (Hres w1 eq_refl) as [v ->].
    destruct (_react_keys_appends event _ _ H) as (Hs & Hc & Hh & Hl & Hlg).
    rewrite Hs, Hc, Hh. cbn [self scheme_calls heap layer log with_event] in *.
    split; [reflexivity|]. split; [reflexivity|]. split.
    { intros r Hr. apply store_other, Hr. }
    split; [intros r; apply store_set_data|]. split; assumption.
Qed.

Lemma for_each_appends (events rest : list EventRef) (w w' : World) :
  for_each rest (process_event events) w = inr (tt, w') ->
  self w' = self w /\ scheme_calls w' = scheme_calls w /\
  (forall r, ~ In r rest -> heap w' r = heap w r) /\
  (forall r, coords (heap w' r) = coords (heap w r) /\
             percent_complete (heap w' r) = percent_complete (heap w r)) /\
  (exists l, layer w' = layer w ++ l) /\ (exists lg, log w' = log w ++ lg).
Proof.
  revert w. induction rest as [|ev rest IH]; intros w; cbn [for_each].
  - unfold ret. intros H. injection H as <-.
    repeat split; auto; exists []; symmetry; apply app_nil_r.
  - unfold bind at 1.
    destruct (process_event events ev w) as [e|[[] w1]] eqn:Hs; [discriminate|].
    intros H.
    destruct (process_event_appends _ _ _ _ Hs)
      as (Hs1 & Hc1 & Hh1 & Hk1 & [l1 Hl1] & [g1 Hg1]).
    destruct (IH w1 H) as (Hs2 & Hc2 & Hh2 & Hk2 & [l2 Hl2] & [g2 Hg2]).
    split; [congruence|]. split; [congruence|]. split.
    { intros r Hr. rewrite Hh2, Hh1; [reflexivity| |];
        intros Hx; apply Hr; [left; congruence|right; exact Hx]. }
    split.
    { intros r. destruct (Hk2 r) as [-> ->]. apply Hk1. }
    split.
    + exists (l1 ++ l2). rewrite Hl2, Hl1, app_assoc. reflexivity.
    + exists (g1 ++ g2). rewrite Hg2, Hg1, app_assoc. reflexivity.
Qed.

(** X17: a frame that returns has left the effect itself and the calls to the
    colour library as they were, has only appended to the layer and to the
    log, has touched no event outside the batch and no coordinates or decay
    progress of any event; it reports no change exactly for the empty
    batch. *)
Theorem X17_draw_only_appends (events : list EventRef) (changed : bool)
    (w w' : World) :
  draw events w = inr (changed, w') ->
  (changed = false <-> events = []) /\
  self w' = self w /\ scheme_calls w' = scheme_calls w /\
  (exists l, layer w' = layer w ++ l) /\ (exists lg, log w' = log w ++ lg) /\
  (forall r, ~ In r events -> heap w' r = heap w r) /\
  (forall r, coords (heap w' r) = coords (heap w r) /\
             percent_complete (heap w' r) = percent_complete (heap w r)).
Proof.
  unfold draw. destruct events as [|ev events].
  - cbn. unfold ret. intros H. injection H as <- <-.
    split; [tauto|]. repeat split; auto; exists []; symmetry; apply app_nil_r.
  - destruct (Z.ltb_spec 0 (Z.of_nat (length (ev :: events)))) as [_|Hl];
      [|cbn [length] in Hl; lia].
    unfold bind at 1. unfold _process_events. unfold bind at 1. unfold get_self.
    destruct (_gradient (self w)).
    + destruct (for_each (ev :: events) (process_event (ev :: events)) w)
        as [e|[[] w1]] eqn:Hf; [discriminate|].
      unfold ret. intros H. injection H as <- <-.
      destruct (for_each_appends _ _ _ _ Hf) as (Hs & Hc & Hh & Hk & Hl & Hg).
      split; [split; discriminate|]. repeat split; auto; apply Hk.
    + unfold ret. intros H. injection H as <- <-.
      split; [split; discriminate|].
      repeat split; auto; exists []; symmetry; apply app_nil_r.
Qed.

Lemma after_event_coords (event : EventRef) (c : option Color) (w : World) r :
  coords (heap (after_event event c w) r) = coords (heap w r).
Proof.
  unfold after_event, store. simpl. destruct (Nat.eqb_spec r event) as [->|]; reflexivity.
Qed.

Lemma for_each_batch (events rest : list EventRef) (g : list Color) (w : World) :
  table_built (self w) g ->
  Forall (fun ev => unit_interval (percent_complete (heap w ev))) rest ->
  exists w', for_each rest (process_event events) w = inr (tt, w') /\
    layer w' = layer w ++ flat_map (fun ev => event_puts (self w) g (heap w ev)) rest /\
    log w' = log w ++ flat_map (fun ev => complaints (coords (heap w ev)) ev) rest /\
    (forall ev, In ev rest ->
       data (heap w' ev) !! REACT_COLOR_KEY =
       fade_color (self w) g (percent_complete (heap w ev))).
Proof.
  revert w. induction rest as [|ev rest IH]; intros w Hg Hall.
  - exists w. cbn. rewrite !app_nil_r. repeat split; auto. intros ev [].
  - inversion Hall as [|? ? Hev Hrest]; subst.
    destruct (process_event_spec events ev g w Hg Hev) as (c & Hfade & Hstep).
    destruct (IH (after_event ev c w)) as (w' & Hrun & Hl & Hlg & Hd).
    + exact Hg.
    + eapply Forall_impl; [exact Hrest|]. intros r Hr. cbv beta in Hr.
      rewrite after_event_percent. exact Hr.
    + exists w'. cbn [for_each]. unfold bind at 1. rewrite Hstep.
      split; [exact Hrun|].
      assert (Hp : forall r, event_puts (self (after_event ev c w)) g
                              (heap (after_event ev c w) r) =
                            event_puts (self w) g (heap w r)).
      { intros r. unfold event_puts.
        rewrite after_event_percent, after_event_coords. reflexivity. }
      split; [|split].
      * rewrite Hl. cbn [flat_map layer after_event].
        rewrite <- app_assoc. f_equal. unfold event_puts at 2. rewrite Hfade.
        f_equal. apply flat_map_ext. intros r. apply Hp.
      * rewrite Hlg. cbn [flat_map log after_event].
        rewrite <- app_assoc. do 2 f_equal. apply flat_map_ext. intros r.
        rewrite after_event_coords. reflexivity.
      * intros r Hr. destruct (in_dec Nat.eq_dec r rest) as [Hin|Hnin].
        -- rewrite (Hd r Hin). cbn [self after_event].
           rewrite after_event_percent. reflexivity.
        -- destruct Hr as [->|Hr]; [|contradiction].
           destruct (for_each_appends _ _ _ _ Hrun) as (_ & _ & Hh & _).
           rewrite (Hh r Hnin). cbn [heap after_event]. rewrite store_same.
           cbn [data set_data]. rewrite lookup_insert_eq. rewrite Hfade.
           reflexivity.
Qed.

(** X18: with a built table of 100 entries, a frame over a non-empty batch of
    events of valid decay progress returns true; the layer has received, in
    the order of the batch, the fade colour of each event at each of its
    coordinates, the log one error for each event without coordinates, and
    every event of the batch holds its fade colour in its data bag (an event
    may occur more than once). *)
Theorem X18_draw_writes_batch (ev : EventRef) (evs : list EventRef) (g : list Color)
    (w : World) :
  table_built (self w) g ->
  Forall (fun ev => unit_interval (percent_complete (heap w ev))) (ev :: evs) ->
  exists w', draw (ev :: evs) w = inr (true, w') /\
    layer w' = layer w ++
      flat_map (fun ev => event_puts (self w) g (heap w ev)) (ev :: evs) /\
    log w' = log w ++
      flat_map (fun ev => complaints (coords (heap w ev)) ev) (ev :: evs) /\
    (forall r, In r (ev :: evs) ->
       exists c, fade_color (self w) g (percent_complete (heap w r)) = Some c /\
                 data (heap w' r) !! REACT_COLOR_KEY = Some c).
Proof.
  intros Hg Hall.
  destruct (for_each_batch (ev :: evs) (ev :: evs) g w Hg Hall)
    as (w' & Hrun & Hl & Hlg & Hd).
  exists w'. split.
  { unfold draw.
    destruct (Z.ltb_spec 0 (Z.of_nat (length (ev :: evs)))) as [_|Hlen];
      [|cbn [length] in Hlen; lia].
    unfold bind at 1. rewrite (_process_events_built _ g w Hg), Hrun. reflexivity. }
  split; [exact Hl|]. split; [exact Hlg|].
  intros r Hr. specialize (Hd r Hr).
  rewrite List.Forall_forall in Hall. specialize (Hall r Hr).
  destruct (process_event_spec (ev :: evs) r g w Hg Hall) as (c & Hfade & _).
  exists c. split; [exact Hfade|]. rewrite Hd. exact Hfade.
Qed.

(** *** The speed and its expiry time *)

Lemma _set_speed_fields (v : Z) (w w' : World) :
  _set_speed v w = inr (tt, w') ->
  key_expire_time (self w') = Some (expire_time v) /\
  speed (self w') = speed (self w) /\ init_speed (self w') = init_speed (self w) /\
  init_colors (self w') = init_colors (self w).
Proof.
  unfold _set_speed, expire_time. step. unfold Py.float_of_int.
  destruct (of_Z (MAX_SPEED + 1 - v)) eqn:Hf; try discriminate;
    intros H; injection H as <-; cbn; auto.
Qed.

Lemma _update_colors_fields (c : Change.t (option Color)) (w w' : World) :
  _update_colors c w = inr (tt, w') ->
  key_expire_time (self w') = key_expire_time (self w) /\
  speed (self w') = speed (self w) /\ init_speed (self w') = init_speed (self w).
Proof.
  unfold _update_colors. destruct (Change.new c).
  - unfold bind at 1. unfold modify at 1. unfold bind at 1. unfold get_self.
    unfold _set_colors. step.
    destruct (ColorUtils.color_scheme _ _ _); [discriminate|].
    intros H. injection H as <-. cbn. auto.
  - unfold ret. intros H. injection H as <-. auto.
Qed.

Lemma notify_fields (n : notification) (w w' : World) :
  notify n w = inr (tt, w') ->
  speed (self w') = speed (self w) /\
  match n with
  | NotifySpeed c =>
      key_expire_time (self w') = Some (expire_time (Change.new c)) /\
      init_speed (self w') = true
  | NotifyColor _ =>
      key_expire_time (self w') = key_expire_time (self w) /\
      init_speed (self w') = init_speed (self w)
  end.
Proof.
  destruct n as [c|c]; cbn [notify].
  - unfold _change_speed. unfold bind at 1. unfold modify at 1. intros H.
    destruct (_set_speed_fields _ _ _ H) as (Hk & Hs & Hi & _). cbn in Hs, Hi. auto.
  - intros H. destruct (_update_colors_fields _ _ _ H) as (Hk & Hs & Hi). auto.
Qed.

Lemma for_each_notify_fields (cache : list notification) (w w' : World) :
  for_each cache notify w = inr (tt, w') ->
  speed (self w') = speed (self w) /\
  (speed_news cache = [] ->
   key_expire_time (self w') = key_expire_time (self w) /\
   init_speed (self w') = init_speed (self w)) /\
  (forall v, speed_news cache = [v] ->
   key_expire_time (self w') = Some (expire_time v) /\ init_speed (self w') = true).
Proof.
  revert w. induction cache as [|n cache IH]; intros w; cbn [for_each].
  - unfold ret. intros H. injection H as <-. split; [reflexivity|].
    split; [auto|]. intros v Hv. discriminate Hv.
  - unfold bind at 1. destruct (notify n w) as [e|[[] w1]] eqn:Hn; [discriminate|].
    intros H. destruct (notify_fields _ _ _ Hn) as [Hs1 Hn1].
    destruct (IH w1 H) as (Hs2 & Hnone & Hone).
    split; [congruence|]. destruct n as [c|c]; cbn [speed_news].
    + split; [discriminate|]. intros v Hv. injection Hv as Hv Hrest.
      destruct (Hnone Hrest) as [Hk Hi]. destruct Hn1 as [Hk1 Hi1].
      rewrite Hk, Hi, Hk1, Hi1, Hv. auto.
    + destruct Hn1 as [Hk1 Hi1]. split.
      * intros Hrest. destruct (Hnone Hrest) as [Hk Hi]. split; congruence.
      * intros v Hv. apply Hone. exact Hv.
Qed.

Lemma compress_well_named (cache : list notification) (n : notification) :
  Forall well_named cache -> well_named n ->
  Forall well_named (compress cache n).
Proof.
  intros Hc Hn. induction Hc as [|n0 cache H0 Hl IH]; cbn [compress].
  - repeat constructor. exact Hn.
  - destruct (String.eqb_spec (notification_name n0) (notification_name n)) as [He|He].
    + constructor; [|assumption].
      destruct n0 as [c0|c0], n as [c|c]; cbn in *; try assumption; congruence.
    + constructor; assumption.
Qed.

Lemma compress_speed (cache : list notification) (c : Change.t Z) :
  Forall well_named cache -> Change.name c = "speed"%string ->
  speed_news (compress cache (NotifySpeed c)) =
  match speed_news cache with
  | [] => [Change.new c]
  | _ :: vs => Change.new c :: vs
  end.
Proof.
  intros Hc Hn. induction Hc as [|n0 cache H0 _ IH]; cbn [compress].
  - reflexivity.
  - cbn [notification_name]. rewrite Hn.
    destruct n0 as [c0|c0]; cbn [notification_name well_named] in *.
    + rewrite H0, String.eqb_refl. reflexivity.
    + destruct (String.eqb_spec (Change.name c0) "speed") as [He|He];
        [contradiction|]. cbn [speed_news]. exact IH.
Qed.

Lemma compress_color (cache : list notification) (c : Change.t (option Color)) :
  Forall well_named cache -> Change.name c <> "speed"%string ->
  speed_news (compress cache (NotifyColor c)) = speed_news cache.
Proof.
  intros Hc Hn. induction Hc as [|n0 cache H0 _ IH]; cbn [compress].
  - reflexivity.
  - cbn [notification_name].
    destruct n0 as [c0|c0]; cbn [notification_name well_named] in *.
    + destruct (String.eqb_spec (Change.name c0) (Change.name c)) as [He|He];
        [congruence|]. cbn [speed_news]. f_equal. exact IH.
    + destruct (String.eqb_spec (Change.name c0) (Change.name c)) as [He|He];
        [reflexivity|]. cbn [speed_news]. exact IH.
Qed.

(** What an assignment does to the speed and to the report it hands on. *)
Lemma assign_fields (a : assignment) (w w' : World) (n : option notification) :
  assign a w = inr (n, w') ->
  1 <= speed (self w) <= 9 ->
  1 <= speed (self w') <= 9 /\
  key_expire_time (self w') = key_expire_time (self w) /\
  init_speed (self w') = init_speed (self w) /\
  match n with
  | Some (NotifySpeed c) =>
      Change.name c = "speed"%string /\ Change.new c = speed (self w')
  | Some (NotifyColor c) =>
      Change.name c <> "speed"%string /\ speed (self w') = speed (self w)
  | None => speed (self w') = speed (self w)
  end.
Proof.
  unfold assign. step. destruct a as [v|c|c].
  - destruct (Z.ltb_spec v 1); [discriminate|].
    destruct (Z.ltb_spec MAX_SPEED v); [discriminate|]. cbn [orb].
    unfold MAX_SPEED in *. intros Heq Hr. injection Heq as <- <-. cbn.
    split; [lia|]. split; [reflexivity|]. split; [reflexivity|].
    destruct (Z.eqb_spec (speed (self w)) v); cbn; auto.
  - intros H Hr. injection H as <- <-. cbn.
    split; [lia|]. split; [reflexivity|]. split; [reflexivity|].
    destruct (opt_Color_eq _ _); cbn; [reflexivity|]. split; [discriminate|reflexivity].
  - intros H Hr. injection H as <- <-. cbn.
    split; [lia|]. split; [reflexivity|]. split; [reflexivity|].
    destruct (opt_Color_eq _ _); cbn; [reflexivity|]. split; [discriminate|reflexivity].
Qed.

Lemma hold_fields (body : list assignment) (cache cache' : list notification)
    (w0 w w' : World) :
  hold body cache w = inr (cache', w') ->
  1 <= speed (self w) <= 9 ->
  Forall well_named cache ->
  (speed_news cache = [] /\ speed (self w) = speed (self w0) \/
   speed_news cache = [speed (self w)]) ->
  1 <= speed (self w') <= 9 /\
  key_expire_time (self w') = key_expire_time (self w) /\
  init_speed (self w') = init_speed (self w) /\
  (speed_news cache' = [] /\ speed (self w') = speed (self w0) \/
   speed_news cache' = [speed (self w')]).
Proof.
  revert cache w. induction body as [|a body IH]; intros cache w; cbn [hold].
  - unfold ret. intros H. injection H as <- <-. auto.
  - unfold bind at 1. destruct (assign a w) as [e|[n w1]] eqn:Ha; [discriminate|].
    intros H Hr Hwf Hs.
    destruct (assign_fields _ _ _ _ Ha Hr) as (Hr1 & Hk1 & Hi1 & Hn).
    assert (Hgoal : Forall well_named
                      (match n with Some n => compress cache n | None => cache end) /\
                    (speed_news (match n with Some n => compress cache n
                                 | None => cache end) = [] /\
                     speed (self w1) = speed (self w0) \/
                     speed_news (match n with Some n => compress cache n
                                 | None => cache end) = [speed (self w1)])).
    { destruct n as [[c|c]|].
      - destruct Hn as [Hname Hnew]. split.
        + apply compress_well_named; assumption.
        + right. rewrite (compress_speed cache c Hwf Hname), Hnew.
          destruct Hs as [[-> _]| ->]; reflexivity.
      - destruct Hn as [Hname Hsame]. split.
        + apply compress_well_named; assumption.
        + rewrite (compress_color cache c Hwf Hname), Hsame. exact Hs.
      - split; [exact Hwf|]. rewrite Hn. exact Hs. }
    destruct Hgoal as [Hwf1 Hs1].
    destruct (IH _ _ H Hr1 Hwf1 Hs1) as (Hr2 & Hk2 & Hi2 & Hs2).
    split; [exact Hr2|]. split; [congruence|]. split; [congruence|exact Hs2].
Qed.

(** A transaction: either no speed change is reported and the three fields
    stay, or the expiry time is set for the final speed. *)
Lemma hold_trait_notifications_fields (body : list assignment) (w w' : World) :
  hold_trait_notifications body w = inr (tt, w') ->
  1 <= speed (self w) <= 9 ->
  1 <= speed (self w') <= 9 /\
  (speed (self w') = speed (self w) /\
   key_expire_time (self w') = key_expire_time (self w) /\
   init_speed (self w') = init_speed (self w) \/
   key_expire_time (self w') = Some (expire_time (speed (self w'))) /\
   init_speed (self w') = true).
Proof.
  unfold hold_trait_notifications. unfold bind at 1.
  destruct (hold body [] w) as [e|[cache w1]] eqn:Hh; [discriminate|].
  intros Hn Hr.
  destruct (hold_fields body [] cache w w w1 Hh Hr (List.Forall_nil _)
              ltac:(left; split; reflexivity)) as (Hr1 & Hk1 & Hi1 & Hs1).
  destruct (for_each_notify_fields _ _ _ Hn) as (Hs2 & Hnone & Hone).
  rewrite Hs2. split; [exact Hr1|]. destruct Hs1 as [[Hc Hsame]|Hc].
  - left. destruct (Hnone Hc) as [Hk Hi]. split; [exact Hsame|]. split; congruence.
  - right. apply Hone. exact Hc.
Qed.

Lemma speed_inv_new (kwargs : list assignment) (w0 w : World) :
  new_Reaction kwargs w0 = inr (tt, w) -> speed_inv (self w).
Proof.
  unfold new_Reaction. unfold bind at 1. unfold modify at 1.
  set (w1 := with_self (fun _ => blank) w0).
  unfold __init__. unfold bind at 1.
  destruct (hold_trait_notifications kwargs w1) as [e|[[] w2]] eqn:Hh; [discriminate|].
  destruct (hold_trait_notifications_fields _ _ _ Hh) as [Hr2 Hc2].
  { cbn. unfold DEFAULT_SPEED. lia. }
  unfold bind at 1. unfold modify at 1. unfold bind at 1. unfold get_self at 1.
  set (w3 := with_self _ w2).
  assert (H3 : 1 <= speed (self w3) <= 9 /\
               (speed (self w3) = DEFAULT_SPEED /\ init_speed (self w3) = false \/
                key_expire_time (self w3) = Some (expire_time (speed (self w3))) /\
                init_speed (self w3) = true)).
  { split; [exact Hr2|]. destruct Hc2 as [(Hs & _ & Hi)|Hc2]; [left|right; exact Hc2].
    split; [exact Hs|exact Hi]. }
  clearbody w3. clear Hh Hr2 Hc2 w2 w1.
  unfold bind at 1.
  assert (H4 : forall w4, (if negb (init_speed (self w3)) then _set_speed DEFAULT_SPEED
                           else ret tt) w3 = inr (tt, w4) -> speed_inv (self w4)).
  { intros w4. destruct H3 as [Hr [[Hs Hi]|[Hk Hi]]]; rewrite Hi; cbn [negb].
    - intros H. destruct (_set_speed_fields _ _ _ H) as (Hk & Hsp & _).
      unfold speed_inv. rewrite Hsp, Hk, Hs. unfold DEFAULT_SPEED. split; [lia|reflexivity].
    - unfold ret. intros H. injection H as <-. split; assumption. }
  destruct ((if negb (init_speed (self w3)) then _set_speed DEFAULT_SPEED else ret tt) w3)
    as [e|[[] w4]]; [discriminate|].
  specialize (H4 w4 eq_refl). unfold bind at 1. unfold get_self at 1.
  destruct (negb (init_colors (self w4))).
  - intros H. destruct (_set_colors_spec _ _ _ _ H) as (g & _ & _ & _ & _ & Hk).
    unfold _set_colors in H. step.
    destruct (ColorUtils.color_scheme _ _ _); [discriminate|].
    injection H as <-. exact H4.
  - unfold ret. intros H. injection H as <-. exact H4.
Qed.

(** X19: in every state a constructed effect can reach (construction with any
    arguments, single assignments, held transactions, frames, changes of the
    host's objects) the speed lies in [1, 9] and [key_expire_time] is
    [(MAX_SPEED + 1 - speed) * 0.25] for the current speed. *)
Theorem X19_reachable_speed_inv (w : World) :
  reachable w ->
  1 <= speed (self w) <= 9 /\
  key_expire_time (self w) = Some (expire_time (speed (self w))).
Proof.
  induction 1 as [w0 kwargs w Hc Hn|w a w' _ IH Hs|w body w' _ IH Hh
                 |w events changed w' _ IH Hd|w h l lg _ IH].
  - exact (speed_inv_new _ _ _ Hn).
  - unfold set_trait in Hs. unfold bind at 1 in Hs.
    destruct (assign a w) as [e|[n w1]] eqn:Ha; [discriminate|].
    destruct IH as [Hr Hk].
    destruct (assign_fields _ _ _ _ Ha Hr) as (Hr1 & Hk1 & Hi1 & Hn).
    destruct n as [n|].
    + destruct (notify_fields _ _ _ Hs) as [Hsp Hf]. rewrite Hsp.
      split; [exact Hr1|]. destruct n as [c|c].
      * destruct Hn as [_ Hnew]. destruct Hf as [-> _]. rewrite Hnew. reflexivity.
      * destruct Hn as [_ Hsame]. destruct Hf as [-> _]. rewrite Hk1, Hk, Hsame.
        reflexivity.
    + unfold ret in Hs. injection Hs as <-. split; [exact Hr1|].
      rewrite Hk1, Hk, Hn. reflexivity.
  - destruct IH as [Hr Hk].
    destruct (hold_trait_notifications_fields _ _ _ Hh Hr) as [Hr1 [(Hs & Hk1 & _)|[Hk1 _]]].
    + split; [exact Hr1|]. rewrite Hk1, Hk, Hs. reflexivity.
    + split; [exact Hr1|exact Hk1].
  - destruct (draw_frame _ _ _ _ Hd) as [Hs _]. rewrite Hs. exact IH.
  - exact IH.
Qed.

(** X20: assigning [None] to [color] or to [background_color] always returns
    and stores [None] in the trait, but the observer returns early: the
    gradient table, its count, the calls to the colour library and
    [init_colors] stay as they were. *)
Theorem X20_unset_colour_keeps_table (a : assignment) (w : World) :
  a = SetColor None \/ a = SetBackgroundColor None ->
  exists w', set_trait a w = inr (tt, w') /\
    (a = SetColor None -> color (self w') = None) /\
    (a = SetBackgroundColor None -> background_color (self w') = None) /\
    _gradient (self w') = _gradient (self w) /\
    _gradient_count (self w') = _gradient_count (self w) /\
    scheme_calls w' = scheme_calls w /\
    init_colors (self w') = init_colors (self w).
Proof.
  intros [-> | ->]; unfold set_trait, assign; step; cbn [self with_self].
  - destruct (opt_Color_eq (color (self w)) None); cbn [notify];
      [|unfold _update_colors; cbn [Change.new]; unfold ret];
      eexists; (split; [reflexivity|]); cbn; repeat split; auto; discriminate.
  - destruct (opt_Color_eq (background_color (self w)) None); cbn [notify];
      [|unfold _update_colors; cbn [Change.new]; unfold ret];
      eexists; (split; [reflexivity|]); cbn; repeat split; auto; discriminate.
Qed.

End ReactionFrame.

(** ** More of binary64 rounding

    Rounding with a location (the quotient of a division), and bounds that a
    rounded value keeps. *)

Module RoundFacts.

Import FloatFacts.

Lemma shr_loc_spec m l e n :
  0 <= m ->
  exists mrs,
    shr (shr_record_of_loc m l) e n = (mrs, Z.max e (e + n)) /\
    shr_m mrs = m / 2 ^ Z.max 0 n /\
    exact_shift mrs = is_exact l && (m mod 2 ^ Z.max 0 n =? 0).
Proof.
  intros Hm.
  assert (H0 : shr_m (shr_record_of_loc m l) = m) by (destruct l as [|[]]; reflexivity).
  assert (H1 : exact_shift (shr_record_of_loc m l) = is_exact l)
    by (destruct l as [|[]]; reflexivity).
  destruct n as [|p|p].
  - exists (shr_record_of_loc m l). simpl shr.
    rewrite Z.max_l by lia. rewrite Z.max_l by lia.
    rewrite Z.div_1_r, Z.mod_1_r, H0, H1, andb_true_r. auto.
  - exists (SpecFloat.iter_pos shr_1 p (shr_record_of_loc m l)).
    simpl shr. rewrite Z.max_r by lia. rewrite Z.max_r by lia.
    split; [reflexivity|]. rewrite iter_pos_nat.
    destruct (iter_shr_1_spec (Pos.to_nat p) (shr_record_of_loc m l)) as [A B].
    { rewrite H0. exact Hm. }
    rewrite positive_nat_Z, H0 in A, B. rewrite H1 in B. auto.
  - exists (shr_record_of_loc m l). simpl shr.
    rewrite Z.max_l by lia. rewrite Z.max_l by lia.
    rewrite Z.div_1_r, Z.mod_1_r, H0, H1, andb_true_r. auto.
Qed.

Lemma grid_bounds_loc mz k m1 (ex0 : bool) :
  0 <= mz -> 0 <= k ->
  mz / 2 ^ k <= m1 <= mz / 2 ^ k + 1 ->
  (ex0 = true -> mz mod 2 ^ k = 0 -> m1 = mz / 2 ^ k) ->
  (forall c, (if ex0 then mz else mz + 1) <= c * 2 ^ k -> m1 <= c) /\
  (forall c, c * 2 ^ k <= mz -> c <= m1).
Proof.
  intros Hm Hk Hq Hex.
  assert (P : 0 < 2 ^ k) by (apply Z.pow_pos_nonneg; lia).
  pose proof (Z.div_mod mz (2 ^ k) ltac:(lia)) as Hdm.
  pose proof (Z.mod_pos_bound mz (2 ^ k) P) as Hb.
  split; intros c Hc.
  - destruct ex0.
    + destruct (Z.eq_dec (mz mod 2 ^ k) 0) as [Hz|Hz].
      * rewrite (Hex eq_refl Hz). nia.
      * assert (mz / 2 ^ k < c) by nia. lia.
    + assert (mz / 2 ^ k < c) by nia. lia.
  - assert (c <= mz / 2 ^ k) by nia. lia.
Qed.

Lemma zdigits_upper mz : 0 <= mz -> mz < 2 ^ Zdigits2 mz.
Proof.
  intros H. destruct mz as [|p|p]; [reflexivity| |lia]. apply digits_upper.
Qed.

Lemma zdigits_le mz a : 0 <= mz -> 0 <= a -> mz < 2 ^ a -> Zdigits2 mz <= a.
Proof.
  intros H Ha Hlt. destruct mz as [|p|p]; [simpl; lia| |lia].
  simpl. pose proof (digits_lower p).
  assert (Z.pos (digits2_pos p) - 1 < a) by (apply (Z.pow_lt_mono_r_iff 2); lia).
  lia.
Qed.

Lemma shr_fexp_carry m1 E :
  0 <= m1 <= 2 ^ 53 -> -1074 <= E ->
  exists m2 e2,
    shr_fexp prec emax m1 E loc_Exact = (Build_shr_record m2 false false, e2) /\
    (e2 = E /\ m2 = m1 \/ e2 = E + 1 /\ m1 = 2 ^ 53 /\ m2 = 2 ^ 52).
Proof.
  intros Hm HE. unfold shr_fexp. simpl shr_record_of_loc.
  destruct (Z.eq_dec m1 (2 ^ 53)) as [->|Hne].
  - change (Zdigits2 (2 ^ 53)) with 54. rewrite fexp_eq.
    replace (Z.max (54 + E - 53) (-1074) - E) with 1 by lia.
    exists (2 ^ 52), (E + 1). simpl shr. split; [reflexivity|]. right. auto.
  - exists m1, E. split; [|left; auto].
    assert (Hn : fexp prec emax (Zdigits2 m1 + E) - E <= 0).
    { rewrite fexp_eq. pose proof (zdigits_le m1 53 ltac:(lia) ltac:(lia) ltac:(lia)). lia. }
    destruct (fexp prec emax (Zdigits2 m1 + E) - E); try lia; reflexivity.
Qed.

(** Rounding [(mz + f) * 2^ez], where the fraction [f] of [0, 1) is zero
    exactly when the location is exact: the result is [m1 * 2^E], bounded by
    the grid points around the value, in canonical form. *)
Lemma round_loc_spec s (mz ez : Z) (l : location) :
  0 <= mz ->
  let E := Z.max ez (fexp prec emax (Zdigits2 mz + ez)) in
  exists m1 : Z,
    (forall c, (if is_exact l then mz else mz + 1) <= c * 2 ^ (E - ez) -> m1 <= c) /\
    (forall c, c * 2 ^ (E - ez) <= mz -> c <= m1) /\
    ((m1 = 0 /\ binary_round_aux prec emax s mz ez l = S754_zero s) \/
     exists m2 e2,
       (e2 = E /\ Z.pos m2 = m1 \/
        e2 = E + 1 /\ m1 = 2 ^ 53 /\ Z.pos m2 = 2 ^ 52) /\
       binary_round_aux prec emax s mz ez l =
         if e2 <=? emax - prec then S754_finite s m2 e2 else S754_infinity s).
Proof.
  intros Hmz E. unfold binary_round_aux.
  set (d := Zdigits2 mz) in *.
  set (n := fexp prec emax (d + ez) - ez).
  change (shr_fexp prec emax mz ez l) with (shr (shr_record_of_loc mz l) ez n).
  destruct (shr_loc_spec mz l ez n Hmz) as (mrs & Hs & Hq & Hx).
  rewrite Hs.
  assert (HE : Z.max ez (ez + n) = E) by (unfold E, n; lia).
  rewrite HE.
  assert (Hk : Z.max 0 n = E - ez) by (unfold E, n; lia).
  rewrite Hk in Hq, Hx.
  destruct (rne_bounds mrs) as [Hb Hexact].
  set (m1 := round_nearest_even (shr_m mrs) (loc_of_shr_record mrs)) in *.
  assert (P : 0 < 2 ^ (E - ez)) by (apply Z.pow_pos_nonneg; lia).
  assert (Hq0 : 0 <= shr_m mrs) by (rewrite Hq; apply Z.div_pos; lia).
  assert (Hlt : shr_m mrs < 2 ^ 53).
  { rewrite Hq. apply Z.div_lt_upper_bound; [lia|].
    rewrite <- Z.pow_add_r by lia.
    pose proof (zdigits_upper mz Hmz) as Hu. fold d in Hu.
    assert (0 <= d) by (unfold d; destruct mz; simpl; lia).
    assert (2 ^ d <= 2 ^ (E - ez + 53)).
    { apply Z.pow_le_mono_r; [lia|]. unfold E. rewrite fexp_eq. lia. }
    lia. }
  assert (HEmin : -1074 <= E) by (unfold E; rewrite fexp_eq; lia).
  exists m1.
  destruct (grid_bounds_loc mz (E - ez) m1 (is_exact l) ltac:(lia) ltac:(lia))
    as [G1 G2].
  { rewrite <- Hq. exact Hb. }
  { intros Hl Hz. rewrite <- Hq. apply Hexact. rewrite Hx, Hl. apply Z.eqb_eq. exact Hz. }
  split; [exact G1|]. split; [exact G2|].
  destruct (shr_fexp_carry m1 E ltac:(lia) HEmin) as (m2 & e2 & Hsh & Hcase).
  rewrite Hsh. simpl shr_m.
  destruct m2 as [|p2|p2].
  - left. split; [|reflexivity]. destruct Hcase as [[_ <-]|(_ & _ & H)]; [reflexivity|discriminate H].
  - right. exists p2, e2. split; [|reflexivity].
    destruct Hcase as [[-> <-]|(-> & -> & ->)]; [left|right]; auto.
  - exfalso. destruct Hcase as [[_ <-]|(_ & _ & H)]; [lia|discriminate H].
Qed.

(** A value of [lo, hi], with [hi <= 2^k], keeps these bounds when
    rounded. *)
Lemma round_loc_range s (mz ez : Z) (l : location) (k lo hi : Z) :
  0 <= mz -> 0 <= k <= 52 -> ez <= k - 53 -> 0 <= lo -> hi <= 2 ^ k ->
  lo * 2 ^ (- ez) <= mz ->
  (if is_exact l then mz else mz + 1) <= hi * 2 ^ (- ez) ->
  (binary_round_aux prec emax s mz ez l = S754_zero s /\ lo = 0) \/
  exists m2 e2,
    binary_round_aux prec emax s mz ez l = S754_finite s m2 e2 /\
    e2 <= k - 52 /\ lo * 2 ^ (- e2) <= Z.pos m2 <= hi * 2 ^ (- e2).
Proof.
  intros Hmz Hk Hez Hlo Hhi Hl Hu.
  destruct (round_loc_spec s mz ez l Hmz) as (m1 & G1 & G2 & Hr).
  set (d := Zdigits2 mz) in *.
  set (E := Z.max ez (fexp prec emax (d + ez))) in *.
  assert (Pex : 0 < 2 ^ (- ez)) by (apply Z.pow_pos_nonneg; lia).
  assert (Hmzu : mz <= hi * 2 ^ (- ez)) by (destruct (is_exact l); lia).
  assert (Hd : d + ez <= k + 1).
  { assert (Hmlt : mz < 2 ^ (k + 1 - ez)).
    { replace (k + 1 - ez) with (1 + (k + - ez)) by lia.
      rewrite pow2_split by lia. rewrite pow2_split by lia.
      change (2 ^ 1) with 2.
      assert (0 < 2 ^ k) by (apply Z.pow_pos_nonneg; lia). nia. }
    assert (Hnn : 0 <= k + 1 - ez) by lia.
    pose proof (zdigits_le mz (k + 1 - ez) Hmz Hnn Hmlt) as Hdl. unfold d. clear - Hdl. lia. }
  assert (HE : ez <= E <= k - 52) by (unfold E; rewrite fexp_eq; lia).
  assert (PE : 0 < 2 ^ (- E)) by (apply Z.pow_pos_nonneg; lia).
  assert (Psplit : 2 ^ (- ez) = 2 ^ (- E) * 2 ^ (E - ez)).
  { rewrite <- pow2_split by lia. f_equal. lia. }
  assert (Hm1u : m1 <= hi * 2 ^ (- E)) by (apply G1; rewrite Psplit in Hu; lia).
  assert (Hm1l : lo * 2 ^ (- E) <= m1) by (apply G2; rewrite Psplit in Hl; lia).
  destruct Hr as [[Hz Hr]|(m2 & e2 & Hcase & Hr)].
  - left. split; [exact Hr|]. nia.
  - right. exists m2, e2.
    assert (He2 : e2 <= k - 52 /\ lo * 2 ^ (- e2) <= Z.pos m2 <= hi * 2 ^ (- e2)).
    { destruct Hcase as [[-> ->]|(-> & Hm1 & ->)].
      - split; [lia|]. split; assumption.
      - assert (Hlt : E < k - 52).
        { destruct (Z_lt_le_dec E (k - 52)) as [|Hge]; [assumption|exfalso].
          assert (E = k - 52) by lia.
          assert (2 ^ 52 = 2 ^ k * 2 ^ (- E)).
          { rewrite <- pow2_split by lia. f_equal. lia. }
          assert (0 < 2 ^ k) by (apply Z.pow_pos_nonneg; lia).
          change (2 ^ 53) with (2 * 2 ^ 52) in Hm1. nia. }
        split; [lia|].
        assert (Ps2 : 2 ^ (- E) = 2 * 2 ^ (- (E + 1))).
        { change 2 with (2 ^ 1) at 2. rewrite <- pow2_split by lia. f_equal. lia. }
        change (2 ^ 53) with (2 * 2 ^ 52) in Hm1. split; nia. }
    destruct He2 as [He2 Hb].
    assert (Hle : (e2 <=? emax - prec) = true)
      by (apply Z.leb_le; unfold emax, prec; lia).
    rewrite Hle in Hr. auto.
Qed.

(** Rounding to the nearest integer keeps integer bounds. *)
Lemma round_half_even_range (m : positive) (e lo hi : Z) :
  e <= 0 ->
  lo * 2 ^ (- e) <= Z.pos m <= hi * 2 ^ (- e) ->
  lo <= Util.round_half_even m e <= hi.
Proof.
  intros He [Hl Hu]. destruct e as [|p|p]; [| lia |].
  - simpl in *. lia.
  - unfold Util.round_half_even. change (- Z.neg p) with (Z.pos p) in *.
    set (k := Z.pos p) in *.
    assert (P : 0 < 2 ^ k) by (apply Z.pow_pos_nonneg; lia).
    pose proof (Z.mod_pos_bound (Z.pos m) (2 ^ k) P) as Hb.
    destruct (grid_bounds (Z.pos m) k
                (match 2 * (Z.pos m mod 2 ^ k) ?= 2 ^ k with
                 | Lt => Z.pos m / 2 ^ k
                 | Gt => Z.pos m / 2 ^ k + 1
                 | Eq => if Z.even (Z.pos m / 2 ^ k) then Z.pos m / 2 ^ k
                         else Z.pos m / 2 ^ k + 1
                 end) ltac:(lia) ltac:(lia)) as [G1 G2].
    + destruct (2 * (Z.pos m mod 2 ^ k) ?= 2 ^ k);
        try destruct (Z.even (Z.pos m / 2 ^ k)); lia.
    + intros Hz. rewrite Hz. destruct (Z.compare_spec (2 * 0) (2 ^ k)); try lia.
    + split; [apply G2|apply G1]; assumption.
Qed.

(** What [x <= b] says of a well-formed positive [x] when [b] is normal. *)
Lemma leb_finite_inv (m mb : positive) (e eb : Z) :
  valid (S754_finite false m e) = true ->
  2 ^ 52 <= Z.pos mb ->
  leb (S754_finite false m e) (S754_finite false mb eb) = true ->
  e <= eb /\ Z.pos m <= Z.pos mb * 2 ^ (eb - e).
Proof.
  intros Hv Hmb H. destruct (canonical_digits m e Hv) as (Hd & _ & _).
  pose proof (digits_upper m) as Hu.
  assert (Hm : Z.pos m < 2 ^ 53).
  { assert (2 ^ Z.pos (digits2_pos m) <= 2 ^ 53) by (apply Z.pow_le_mono_r; lia). lia. }
  clear Hv Hd Hu.
  unfold leb, SFleb, SFcompare in H.
  destruct (Z.compare_spec e eb) as [He|He|He]; try discriminate.
  - subst e. split; [lia|]. rewrite Z.sub_diag, Z.mul_1_r.
    rewrite Pos.compare_cont_spec in H. unfold Pos.switch_Eq in H.
    destruct (Pos.compare_spec m mb) as [Hc|Hc|Hc];
      [subst; lia | lia | discriminate H].
  - split; [lia|].
    assert (2 ^ 1 <= 2 ^ (eb - e)) by (apply Z.pow_le_mono_r; lia).
    change (2 ^ 1) with 2 in *. change (2 ^ 53) with (2 * 2 ^ 52) in Hm. nia.
Qed.

Lemma mul_finite s1 m1 e1 s2 m2 e2 :
  mul (S754_finite s1 m1 e1) (S754_finite s2 m2 e2) =
  binary_round_aux prec emax (xorb s1 s2) (Z.pos (m1 * m2)) (e1 + e2) loc_Exact.
Proof. reflexivity. Qed.

Lemma new_location_exact (n r : Z) : is_exact (new_location n r) = (r =? 0).
Proof.
  unfold new_location, new_location_even, new_location_odd.
  destruct (Z.even n), (r =? 0); reflexivity.
Qed.

Lemma at_most_digits (m : positive) (e b k : Z) :
  0 <= k -> b < 2 ^ k -> at_most m e b -> Z.pos (digits2_pos m) + e <= k.
Proof.
  intros Hk Hb H. pose proof (digits_lower m) as Hl.
  set (d := Z.pos (digits2_pos m)) in *.
  assert (Hd : 0 <= d - 1) by (unfold d; lia).
  destruct e as [|p|p]; unfold at_most in H.
  - rewrite Z.mul_1_r in H.
    assert (2 ^ (d - 1) < 2 ^ k) by lia.
    apply Z.pow_lt_mono_r_iff in H0; lia.
  - assert (P : 0 < 2 ^ Z.pos p) by (apply Z.pow_pos_nonneg; lia).
    assert (2 ^ (d - 1 + Z.pos p) < 2 ^ k).
    { rewrite pow2_split by lia. nia. }
    apply Z.pow_lt_mono_r_iff in H0; lia.
  - assert (P : 0 < 2 ^ Z.pos p) by (apply Z.pow_pos_nonneg; lia).
    assert (2 ^ (d - 1) < 2 ^ (k + Z.pos p)).
    { rewrite pow2_split by lia. nia. }
    apply Z.pow_lt_mono_r_iff in H0; lia.
Qed.

(** Dividing a positive value of at most [b] by the float of [b] gives a
    value of [0, 1]. *)
Lemma div_unit (m my : positive) (e b : Z) :
  0 < b -> b < 2 ^ 8 -> Z.pos my = b * 2 ^ 45 ->
  Zdigits2 (Z.pos my) = 53 ->
  at_most m e b ->
  let r := div (S754_finite false m e) (S754_finite false my (-45)) in
  leb zero r = true /\ leb r lit_1_0 = true.
Proof.
  intros Hb0 Hb Hmy Hdy Hx.
  pose proof (at_most_digits m e b 8 ltac:(lia) Hb Hx) as Hd.
  unfold div, SFdiv, SFdiv_core_binary. rewrite Hdy.
  change (Zdigits2 (Z.pos m)) with (Z.pos (digits2_pos m)).
  set (d := Z.pos (digits2_pos m)) in *.
  rewrite fexp_eq.
  set (e' := Z.min (Z.max (d + e - (53 + -45) - 53) (-1074)) (e - -45)).
  assert (He' : e' <= -53) by (unfold e'; lia).
  assert (Hs : 0 <= e - -45 - e') by (unfold e'; lia).
  set (s := e - -45 - e') in *.
  assert (Hm' : match s with
                | Z.pos _ => Z.shiftl (Z.pos m) s
                | 0 => Z.pos m
                | Z.neg _ => 0
                end = Z.pos m * 2 ^ s).
  { destruct s as [|p|p] eqn:Es; [rewrite Z.mul_1_r; reflexivity| |lia].
    apply Z.shiftl_mul_pow2. lia. }
  rewrite Hm'. clear Hm'.
  assert (Hle : Z.pos m * 2 ^ s <= Z.pos my * 2 ^ (- e')).
  { rewrite Hmy. unfold at_most in Hx.
    assert (P1 : 0 < 2 ^ (45 - e')) by (apply Z.pow_pos_nonneg; lia).
    assert (E1 : 2 ^ 45 * 2 ^ (- e') = 2 ^ (45 - e')).
    { rewrite <- pow2_split by lia. reflexivity. }
    rewrite <- Z.mul_assoc, E1.
    destruct e as [|p|p].
    - assert (Es : s = 45 - e') by (unfold s; lia). rewrite Es.
      rewrite Z.mul_1_r in Hx. apply Z.mul_le_mono_nonneg_r; lia.
    - assert (Es : s = Z.pos p + (45 - e')) by (unfold s; lia). rewrite Es.
      rewrite pow2_split by lia. rewrite Z.mul_assoc.
      apply Z.mul_le_mono_nonneg_r; lia.
    - assert (P2 : 0 < 2 ^ s) by (apply Z.pow_pos_nonneg; lia).
      assert (E2 : 2 ^ Z.pos p * 2 ^ s = 2 ^ (45 - e')).
      { rewrite <- pow2_split by lia. f_equal. unfold s. lia. }
      rewrite <- E2. rewrite Z.mul_assoc.
      apply Z.mul_le_mono_nonneg_r; lia. }
  assert (P0 : 0 <= Z.pos m * 2 ^ s).
  { apply Z.mul_nonneg_nonneg; [lia|]. apply Z.pow_nonneg. lia. }
  pose proof (Z.div_eucl_eq (Z.pos m * 2 ^ s) (Z.pos my) ltac:(lia)) as Heq.
  pose proof (Z.mod_pos_bound (Z.pos m * 2 ^ s) (Z.pos my) ltac:(lia)) as Hr.
  unfold Z.modulo in Hr.
  destruct (Z.div_eucl (Z.pos m * 2 ^ s) (Z.pos my)) as [q r].
  cbv beta iota. cbn [xorb].
  assert (P3 : 0 < 2 ^ (- e')) by (apply Z.pow_pos_nonneg; lia).
  assert (Hq0 : 0 <= q) by nia.
  assert (Hq1 : (if is_exact (new_location (Z.pos my) r) then q else q + 1)
                <= 1 * 2 ^ (- e')).
  { rewrite new_location_exact. destruct (Z.eqb_spec r 0); nia. }
  destruct (round_loc_range false q e' (new_location (Z.pos my) r) 0 0 1
              Hq0 ltac:(lia) ltac:(lia) ltac:(lia) ltac:(lia) ltac:(lia) Hq1)
    as [[Hz _]|(m2 & e2 & Hz & He2 & Hlo & Hhi)]; rewrite Hz.
  - split; reflexivity.
  - split; [reflexivity|].
    unfold leb, SFleb, lit_1_0, SFcompare.
    destruct (Z.compare_spec e2 (-52)) as [->| |]; [|reflexivity|lia].
    rewrite Pos.compare_cont_spec. unfold Pos.switch_Eq.
    change (2 ^ (- -52)) with (Z.pos 4503599627370496) in Hhi.
    destruct (Pos.compare_spec m2 4503599627370496); try reflexivity. lia.
Qed.

Lemma SFcompare_antisym (x y : float) :
  SFcompare y x = option_map CompOpp (SFcompare x y).
Proof.
  destruct x as [s1|s1| |s1 m1 e1], y as [s2|s2| |s2 m2 e2];
    try reflexivity; try (destruct s1; reflexivity); try (destruct s2; reflexivity);
    try (destruct s1, s2; reflexivity).
  unfold SFcompare.
  destruct s1, s2; try reflexivity;
    rewrite (Z.compare_antisym e1 e2);
    destruct (e1 ?= e2); cbn [CompOpp option_map]; try reflexivity;
    rewrite !Pos.compare_cont_spec; unfold Pos.switch_Eq;
    rewrite (Pos.compare_antisym m1 m2);
    destruct (m1 ?= m2)%positive; reflexivity.
Qed.

Lemma SFcompare_refl (x y : float) c :
  SFcompare x y = Some c -> SFcompare x x = Some Eq.
Proof.
  destruct x as [s1|s1| |s1 m1 e1]; try (destruct s1; reflexivity).
  - destruct y; discriminate.
  - intros _. unfold SFcompare. rewrite Z.compare_refl.
    rewrite Pos.compare_cont_spec, Pos.compare_refl. destruct s1; reflexivity.
Qed.

End RoundFacts.

(** ** uchroma/util.py: bits and bytes *)

Lemma testbit_shift_one (bit k : Z) :
  0 <= bit -> Z.testbit (Z.shiftl 1 bit) k = (bit =? k).
Proof. intros H. rewrite Z.shiftl_1_l. apply Z.pow2_bits_eqb. exact H. Qed.

Lemma land_shift_one (v bit : Z) :
  0 <= bit ->
  Z.land v (Z.shiftl 1 bit) = if Z.testbit v bit then Z.shiftl 1 bit else 0.
Proof.
  intros H. apply Z.bits_inj'. intros k Hk.
  rewrite Z.land_spec, testbit_shift_one by exact H.
  destruct (Z.eqb_spec bit k) as [->|Hne].
  - destruct (Z.testbit v k); [rewrite testbit_shift_one, Z.eqb_refl by lia|rewrite Z.bits_0];
      reflexivity.
  - rewrite andb_false_r. destruct (Z.testbit v bit).
    + rewrite testbit_shift_one by exact H. symmetry. apply Z.eqb_neq. exact Hne.
    + rewrite Z.bits_0. reflexivity.
Qed.

Lemma test_bit_nonneg (value_ bit : Z) :
  0 <= bit -> Util.test_bit value_ bit = inr (Z.testbit value_ bit).
Proof.
  intros Hb. unfold Util.test_bit, Util.shift_one.
  destruct (Z.ltb_spec bit 0); [lia|].
  rewrite land_shift_one by lia. f_equal.
  assert (Hp : 0 < Z.shiftl 1 bit) by (rewrite Z.shiftl_1_l; apply Z.pow_pos_nonneg; lia).
  destruct (Z.testbit value_ bit).
  - apply Z.eqb_refl.
  - apply Z.eqb_neq. lia.
Qed.

(** X1: [test_bit(value, bit)] is the binary digit of [value] at position
    [bit] (of the two's complement for a negative [value]); a negative [bit]
    raises [ValueError]. *)
Theorem X1_test_bit_is_binary_digit (value_ bit : Z) :
  Util.test_bit value_ bit =
  if bit <? 0 then inl ValueError else inr (Z.testbit value_ bit).
Proof.
  destruct (Z.ltb_spec bit 0) as [Hb|Hb].
  - unfold Util.test_bit, Util.shift_one.
    destruct (Z.ltb_spec bit 0); [reflexivity|lia].
  - apply test_bit_nonneg. exact Hb.
Qed.

Lemma testbit_set_bits_from (bits : list bool) (start v k : Z) :
  0 <= start -> 0 <= k ->
  Z.testbit (Util.set_bits_from start v bits) k =
  if (start <=? k) then
    match bits !! Z.to_nat (k - start) with
    | Some b => b
    | None => Z.testbit v k
    end
  else Z.testbit v k.
Proof.
  revert start v. induction bits as [|b bits IH]; intros start v Hs Hk.
  - simpl. destruct (start <=? k); reflexivity.
  - cbn [Util.set_bits_from]. rewrite IH by lia.
    assert (Hstep : forall j, 0 <= j ->
      Z.testbit (if b then Z.lor v (Z.shiftl 1 start)
                 else Z.land v (Z.lnot (Z.shiftl 1 start))) j =
      if start =? j then b else Z.testbit v j).
    { intros j Hj. destruct b.
      - rewrite Z.lor_spec, testbit_shift_one by lia.
        destruct (start =? j); [apply orb_true_r|apply orb_false_r].
      - rewrite Z.land_spec, Z.lnot_spec, testbit_shift_one by lia.
        destruct (start =? j); [apply andb_false_r|apply andb_true_r]. }
    destruct (Z.leb_spec (start + 1) k), (Z.leb_spec start k); try lia.
    + replace (Z.to_nat (k - start)) with (S (Z.to_nat (k - (start + 1)))) by lia.
      cbn [lookup list_lookup].
      destruct (bits !! Z.to_nat (k - (start + 1))); [reflexivity|].
      rewrite Hstep by lia. destruct (Z.eqb_spec start k); [lia|reflexivity].
    + assert (k = start) by lia. subst k. rewrite Z.sub_diag. cbn.
      rewrite Hstep by lia. rewrite Z.eqb_refl. reflexivity.
    + rewrite Hstep by lia. destruct (Z.eqb_spec start k); [lia|reflexivity].
Qed.

Lemma testbit_set_bits (bits : list bool) (v k : Z) :
  0 <= k ->
  Z.testbit (Util.set_bits v bits) k =
  match bits !! Z.to_nat k with
  | Some b => b
  | None => Z.testbit v k
  end.
Proof.
  intros Hk. unfold Util.set_bits. rewrite testbit_set_bits_from by lia.
  destruct (Z.leb_spec 0 k); [|lia]. rewrite Z.sub_0_r. reflexivity.
Qed.

(** X2: after [set_bits(value, *bits)], [test_bit] at a position of [bits]
    answers the flag given there, and at a position past the flags what it
    answered for [value]. *)
Theorem X2_test_bit_of_set_bits (value_ : Z) (bits : list bool) (bit : Z) :
  0 <= bit ->
  Util.test_bit (Util.set_bits value_ bits) bit =
  match bits !! Z.to_nat bit with
  | Some b => inr b
  | None => Util.test_bit value_ bit
  end.
Proof.
  intros Hb. rewrite !test_bit_nonneg by exact Hb.
  rewrite testbit_set_bits by lia.
  destruct (bits !! Z.to_nat bit); reflexivity.
Qed.

Lemma small_of_bits (r n : Z) :
  0 <= n -> 0 <= r -> (forall k, n <= k -> Z.testbit r k = false) -> r < 2 ^ n.
Proof.
  intros Hn Hr Hbits. destruct (Z.eq_dec r 0) as [->|Hne].
  - apply Z.pow_pos_nonneg; lia.
  - apply Z.log2_lt_pow2; [lia|].
    destruct (Z_lt_le_dec (Z.log2 r) n) as [|Hge]; [assumption|].
    specialize (Hbits (Z.log2 r) Hge). rewrite Z.bit_log2 in Hbits by lia.
    discriminate.
Qed.

Lemma set_bits_from_nonneg (bits : list bool) (start v : Z) :
  0 <= start -> 0 <= v -> 0 <= Util.set_bits_from start v bits.
Proof.
  revert start v. induction bits as [|b bits IH]; intros start v Hs Hv; [exact Hv|].
  cbn [Util.set_bits_from]. apply IH; [lia|]. destruct b.
  - apply Z.lor_nonneg. split; [exact Hv|]. rewrite Z.shiftl_1_l.
    apply Z.pow_nonneg. lia.
  - apply Z.land_nonneg. left. exact Hv.
Qed.

(** X3: [set_bits] rebuilds a value from its flags: when [bits] lists what
    [test_bit] answers for [value] at each position, and [value] has no
    more binary digits than there are flags, [set_bits(start, *bits)] is
    [value] for every [start] of that width. *)
Theorem X3_set_bits_rebuilds_value (value_ : Z) (bits : list bool) :
  0 <= value_ < 2 ^ Z.of_nat (length bits) ->
  (forall (i : nat) b, bits !! i = Some b ->
     Util.test_bit value_ (Z.of_nat i) = inr b) ->
  forall start, 0 <= start < 2 ^ Z.of_nat (length bits) ->
  Util.set_bits start bits = value_.
Proof.
  intros [Hv0 Hv] Hbits start [Hs0 Hs]. apply Z.bits_inj'. intros k Hk.
  rewrite testbit_set_bits by lia.
  destruct (bits !! Z.to_nat k) as [b|] eqn:Hb.
  - specialize (Hbits _ _ Hb). rewrite test_bit_nonneg in Hbits by lia.
    rewrite Z2Nat.id in Hbits by lia. congruence.
  - apply lookup_ge_None_1 in Hb.
    assert (Hhigh : forall x, 0 <= x < 2 ^ Z.of_nat (length bits) ->
                    Z.testbit x k = false).
    { intros x [Hx0 Hx]. destruct (Z.eq_dec x 0) as [->|Hne]; [apply Z.bits_0|].
      apply Z.bits_above_log2; [lia|].
      assert (Z.log2 x < Z.of_nat (length bits)) by (apply Z.log2_lt_pow2; lia).
      lia. }
    rewrite !Hhigh by lia. reflexivity.
Qed.

(** X4: [set_bits] on a value of [n] binary digits with at most [n] flags
    stays within [n] digits; for [n <= 8] the result is a byte, which
    [to_byte] packs without raising. *)
Theorem X4_set_bits_stays_in_width (value_ : Z) (bits : list bool) (n : Z) :
  0 <= value_ < 2 ^ n -> Z.of_nat (length bits) <= n ->
  0 <= Util.set_bits value_ bits < 2 ^ n /\
  (n <= 8 -> Util.to_byte (Util.set_bits value_ bits) = inr [Util.set_bits value_ bits]).
Proof.
  intros [Hv0 Hv] Hlen.
  assert (Hn : 0 <= n) by lia.
  assert (H0 : 0 <= Util.set_bits value_ bits)
    by (apply set_bits_from_nonneg; lia).
  assert (H1 : Util.set_bits value_ bits < 2 ^ n).
  { apply small_of_bits; [lia|exact H0|]. intros k Hk.
    rewrite testbit_set_bits by lia.
    rewrite (lookup_ge_None_2 bits (Z.to_nat k)) by lia.
    destruct (Z.eq_dec value_ 0) as [->|Hne]; [apply Z.bits_0|].
    apply Z.bits_above_log2; [lia|].
    assert (Z.log2 value_ < n) by (apply Z.log2_lt_pow2; lia). lia. }
  split; [lia|]. intros H8. unfold Util.to_byte.
  assert (2 ^ n <= 2 ^ 8) by (apply Z.pow_le_mono_r; lia).
  change (2 ^ 8) with 256 in *.
  destruct (Z.leb_spec 0 (Util.set_bits value_ bits)); [|lia].
  destruct (Z.leb_spec (Util.set_bits value_ bits) 255); [reflexivity|lia].
Qed.

(** X5: [set_bits] is idempotent: setting the same flags again changes
    nothing, for every value (negative ones too) and every list of flags. *)
Theorem X5_set_bits_idempotent (value_ : Z) (bits : list bool) :
  Util.set_bits (Util.set_bits value_ bits) bits = Util.set_bits value_ bits.
Proof.
  apply Z.bits_inj'. intros k Hk. rewrite !testbit_set_bits by lia.
  destruct (bits !! Z.to_nat k); reflexivity.
Qed.

(** ** uchroma/util.py: brightness *)

Lemma lit_2_55_eq : div lit_255_0 lit_100_0 = lit_2_55.
Proof. vm_compute. reflexivity. Qed.

(** [scale_brightness] of a hardware value. *)
Lemma scale_from_hw (b : Z) :
  Util.scale_brightness (Util.Int b) true =
  if (b <? 0) || (255 <? b) then inl ValueError
  else match Py.float_of_int b with
       | inr x => inr (Util.Float (Util.round2 (mul x (div lit_100_0 lit_255_0))))
       | inl e => inl e
       end.
Proof.
  unfold Util.scale_brightness, Util.lt, Util.gt, Util.to_float, Util.format_d.
  cbn [Util.compare]. unfold Z.ltb. rewrite (Z.compare_antisym b 255).
  destruct (b ?= 0), (b ?= 255); reflexivity.
Qed.

(** [scale_brightness] of a percentage. *)
Lemma scale_to_hw (x : float) :
  Util.scale_brightness (Util.Float x) false =
  if ltb x zero || ltb lit_100_0 x then inl ValueError
  else match Util.round_float (mul x lit_2_55) with
       | inr z => inr (Util.Int z)
       | inl e => inl e
       end.
Proof.
  unfold Util.scale_brightness, Util.lt, Util.gt, Util.format_f, Util.to_float.
  cbn [Util.compare]. rewrite lit_2_55_eq. unfold ltb, SFltb.
  rewrite (RoundFacts.SFcompare_antisym x lit_100_0).
  destruct (SFcompare x zero) as [[]|]; destruct (SFcompare x lit_100_0) as [[]|];
    reflexivity.
Qed.

Lemma to_hw_in_range m e :
  valid (S754_finite false m e) = true ->
  leb (S754_finite false m e) lit_100_0 = true ->
  exists z, Util.round_float (mul (S754_finite false m e) lit_2_55) = inr z /\
            0 <= z <= 255.
Proof.
  intros Hv Hle. unfold lit_100_0 in Hle.
  assert (Hmb : 2 ^ 52 <= Z.pos 7036874417766400) by (clear; vm_compute; discriminate).
  destruct (RoundFacts.leb_finite_inv m 7036874417766400 e (-46) Hv Hmb Hle) as [He Hm].
  clear Hv Hle Hmb.
  unfold lit_2_55. rewrite RoundFacts.mul_finite. cbn [xorb].
  assert (Pe : 0 < 2 ^ (- 46 - e)) by (apply Z.pow_pos_nonneg; lia).
  assert (Hs : 2 ^ (- (e + -51)) = 2 ^ 51 * 2 ^ 46 * 2 ^ (- 46 - e)).
  { rewrite <- !FloatFacts.pow2_split by lia. f_equal. lia. }
  assert (Hu : Z.pos (m * 5742089524897382) <= 255 * 2 ^ (- (e + -51))).
  { rewrite Hs, Pos2Z.inj_mul.
    change (2 ^ 51 * 2 ^ 46) with 158456325028528675187087900672.
    set (P := 2 ^ (- 46 - e)) in *.
    assert (Z.pos m * 5742089524897382
            <= 7036874417766400 * P * 5742089524897382)
      by (apply Z.mul_le_mono_nonneg_r; lia).
    lia. }
  assert (H8 : 255 <= 2 ^ 8) by (clear; vm_compute; discriminate).
  destruct (RoundFacts.round_loc_range false (Z.pos (m * 5742089524897382)) (e + -51)
              loc_Exact 8 0 255 ltac:(lia) ltac:(lia) ltac:(lia) ltac:(lia)
              H8 ltac:(lia) Hu)
    as [[Hr _]|(m2 & e2 & Hr & He2 & Hb)].
  - rewrite Hr. exists 0. split; [reflexivity|lia].
  - rewrite Hr. exists (Util.round_half_even m2 e2). split; [reflexivity|].
    apply RoundFacts.round_half_even_range; [lia|exact Hb].
Qed.

Lemma ltb_leb_100 m e :
  ltb lit_100_0 (S754_finite false m e) = negb (leb (S754_finite false m e) lit_100_0).
Proof.
  unfold ltb, leb, SFltb, SFleb, lit_100_0, SFcompare.
  rewrite (Z.compare_antisym (-46) e).
  destruct (-46 ?= e); cbn [CompOpp]; cbv iota; try reflexivity.
  rewrite !Pos.compare_cont_spec. unfold Pos.switch_Eq.
  rewrite (Pos.compare_antisym 7036874417766400 m).
  destruct (7036874417766400 ?= m)%positive; reflexivity.
Qed.

Lemma byte_range (b : Z) : 0 <= b <= 255 -> In b (seqZ 0 256).
Proof.
  intros H. apply list_elem_of_In. apply elem_of_seqZ. lia.
Qed.

(** X6: the brightness round trip: every hardware value of 0..255 is mapped
    by [scale_brightness(b, from_hw=True)] to a percentage that
    [scale_brightness] maps back to [b]; rounding the percentage to two
    decimals loses no hardware value. *)
Theorem X6_brightness_round_trip (b : Z) :
  0 <= b <= 255 ->
  exists p, Util.scale_brightness (Util.Int b) true = inr (Util.Float p) /\
            Util.scale_brightness (Util.Float p) false = inr (Util.Int b).
Proof.
  intros H.
  assert (Hall : forallb (fun b =>
            match Util.scale_brightness (Util.Int b) true with
            | inr (Util.Float p) =>
                match Util.scale_brightness (Util.Float p) false with
                | inr (Util.Int b') => b =? b'
                | _ => false
                end
            | _ => false
            end) (seqZ 0 256) = true) by (vm_compute; reflexivity).
  rewrite forallb_forall in Hall. specialize (Hall b (byte_range b H)).
  destruct (Util.scale_brightness (Util.Int b) true) as [|[|p]]; try discriminate.
  exists p. split; [reflexivity|].
  destruct (Util.scale_brightness (Util.Float p) false) as [|[b'|]]; try discriminate.
  apply Z.eqb_eq in Hall. congruence.
Qed.

Lemma percent_table_increasing : increasing percent_table = true.
Proof. vm_compute. reflexivity. Qed.

Lemma in_percent_table (b : Z) :
  0 <= b <= 255 -> In (b, Util.scale_brightness (Util.Int b) true) percent_table.
Proof.
  intros H. unfold percent_table.
  apply (in_map (fun b => (b, Util.scale_brightness (Util.Int b) true))).
  apply byte_range, H.
Qed.

(** X7: [scale_brightness(b, from_hw=True)] of an int: a value of 0..255
    gives a well-formed float percentage of [0.0, 100.0], strictly larger
    for a larger value, 0.0 for 0 and 100.0 for 255; any other int raises
    [ValueError]. *)
Theorem X7_brightness_from_hw_range (b : Z) :
  (0 <= b <= 255 ->
   exists p, Util.scale_brightness (Util.Int b) true = inr (Util.Float p) /\
     valid p = true /\ leb zero p = true /\ leb p lit_100_0 = true /\
     forall b' p', b < b' <= 255 ->
       Util.scale_brightness (Util.Int b') true = inr (Util.Float p') ->
       ltb p p' = true) /\
  (b < 0 \/ 255 < b -> Util.scale_brightness (Util.Int b) true = inl ValueError) /\
  Util.scale_brightness (Util.Int 0) true = inr (Util.Float zero) /\
  Util.scale_brightness (Util.Int 255) true = inr (Util.Float lit_100_0).
Proof.
  split; [|split; [|split; vm_compute; reflexivity]].
  - intros H. pose proof percent_table_increasing as Hall.
    unfold increasing in Hall. rewrite forallb_forall in Hall.
    pose proof (Hall _ (in_percent_table b H)) as Hb. cbn [fst snd] in Hb.
    destruct (Util.scale_brightness (Util.Int b) true) as [|[|p]];
      try discriminate Hb.
    apply andb_prop in Hb. destruct Hb as [Hb Hmono].
    apply andb_prop in Hb. destruct Hb as [Hb H100].
    apply andb_prop in Hb. destruct Hb as [Hval H0].
    exists p. repeat split; try assumption.
    intros b' p' Hb' Hp'. rewrite forallb_forall in Hmono.
    pose proof (Hmono _ (in_percent_table b' ltac:(lia))) as Hm.
    cbn [fst snd] in Hm. rewrite Hp' in Hm.
    destruct (Z.ltb_spec b b'); [exact Hm|lia].
  - intros H. rewrite scale_from_hw.
    destruct (Z.ltb_spec b 0), (Z.ltb_spec 255 b); try reflexivity; lia.
Qed.

(** X8: [scale_brightness] of a float percentage: every binary64 value of
    [0.0, 100.0] gives an int of 0..255; whatever the float (negative, above
    100, infinite, NaN), the call either returns an int of 0..255 or raises
    [ValueError], and nothing else. *)
Theorem X8_brightness_to_hw_range (x : float) :
  valid x = true ->
  (leb zero x = true -> leb x lit_100_0 = true ->
   exists z, Util.scale_brightness (Util.Float x) false = inr (Util.Int z) /\
             0 <= z <= 255) /\
  (forall e, Util.scale_brightness (Util.Float x) false = inl e -> e = ValueError) /\
  (forall n, Util.scale_brightness (Util.Float x) false = inr n ->
     exists z, n = Util.Int z /\ 0 <= z <= 255).
Proof.
  intros Hv. rewrite scale_to_hw.
  destruct x as [s|s| |s m e].
  - destruct s; (split; [|split]);
      [ intros _ _; exists 0; split; [reflexivity|lia]
      | intros e H; discriminate H
      | intros n H; injection H as <-; exists 0; split; [reflexivity|lia]
      | intros _ _; exists 0; split; [reflexivity|lia]
      | intros e H; discriminate H
      | intros n H; injection H as <-; exists 0; split; [reflexivity|lia] ].
  - destruct s; (split; [|split]);
      [ intros H; discriminate H
      | intros e H; injection H as <-; reflexivity
      | intros n H; discriminate H
      | intros _ H; discriminate H
      | intros e H; injection H as <-; reflexivity
      | intros n H; discriminate H ].
  - split; [|split];
      [ intros H; discriminate H
      | intros e H; injection H as <-; reflexivity
      | intros n H; discriminate H ].
  - destruct s.
    + split; [|split];
        [ intros H; discriminate H
        | intros e' H; injection H as <-; reflexivity
        | intros n H; discriminate H ].
    + change (ltb (S754_finite false m e) zero) with false.
      rewrite ltb_leb_100. cbn [orb].
      destruct (leb (S754_finite false m e) lit_100_0) eqn:Hle; cbn [negb]; cbv iota.
      * destruct (to_hw_in_range m e Hv Hle) as (z & Hz & Hr). rewrite Hz.
        split; [|split].
        -- intros _ _. exists z. auto.
        -- intros e' H. discriminate H.
        -- intros n H. injection H as <-. exists z. auto.
      * split; [|split];
          [ intros _ H; discriminate H
          | intros e' H; injection H as <-; reflexivity
          | intros n H; discriminate H ].
Qed.

(** ** uchroma/util.py: [clamp] and the order of numbers *)

Lemma compare_antisym (a b : Util.num) :
  Util.compare b a = option_map CompOpp (Util.compare a b).
Proof.
  destruct a as [x|x], b as [y|y]; cbn [Util.compare].
  - cbn [option_map]. rewrite (Z.compare_antisym x y). reflexivity.
  - reflexivity.
  - destruct (Util.Z_float_compare y x) as [c|]; cbn [option_map]; [|reflexivity].
    destruct c; reflexivity.
  - apply RoundFacts.SFcompare_antisym.
Qed.

Lemma compare_refl_l (a b : Util.num) c :
  Util.compare a b = Some c -> Util.compare a a = Some Eq.
Proof.
  destruct a as [x|x]; cbn [Util.compare].
  - intros _. rewrite Z.compare_refl. reflexivity.
  - destruct b as [y|y].
    + destruct x as [s1|s1| |s1 m1 e1]; try (destruct s1; reflexivity).
      * discriminate.
      * intros _. unfold SFcompare. rewrite Z.compare_refl.
        rewrite Pos.compare_cont_spec, Pos.compare_refl. destruct s1; reflexivity.
    + apply RoundFacts.SFcompare_refl.
Qed.

Lemma compare_refl_r (a b : Util.num) c :
  Util.compare a b = Some c -> Util.compare b b = Some Eq.
Proof.
  intros H. pose proof (compare_antisym a b) as Ha. rewrite H in Ha.
  exact (compare_refl_l b a _ Ha).
Qed.

Lemma compare_nan (a : Util.num) :
  Util.compare a (Util.Float S754_nan) = None /\
  Util.compare (Util.Float S754_nan) a = None.
Proof.
  destruct a as [x|x]; cbn [Util.compare Util.Z_float_compare option_map].
  - auto.
  - split; [destruct x; reflexivity|reflexivity].
Qed.

Lemma compare_total (a b : Util.num) :
  Util.compare a a = Some Eq -> Util.compare b b = Some Eq ->
  exists c, Util.compare a b = Some c.
Proof.
  destruct a as [x|x], b as [y|y]; cbn [Util.compare]; intros Ha Hb.
  - eauto.
  - destruct y; try discriminate; cbn [Util.Z_float_compare]; eauto.
  - destruct x; try discriminate; cbn [Util.Z_float_compare option_map]; eauto.
  - destruct x as [s1|s1| |s1 m1 e1]; try discriminate;
      destruct y as [s2|s2| |s2 m2 e2]; try discriminate;
      unfold SFcompare; destruct s1, s2; eauto.
Qed.

Lemma gt_le (a b : Util.num) : Util.gt a b = true -> Util.le b a = true.
Proof.
  unfold Util.gt, Util.le. rewrite (compare_antisym a b).
  destruct (Util.compare a b) as [[]|]; cbn [option_map CompOpp];
    intros H; try discriminate H; reflexivity.
Qed.

Lemma le_not_lt (a b : Util.num) : Util.le a b = true -> Util.lt b a = false.
Proof.
  unfold Util.lt, Util.le. rewrite (compare_antisym a b).
  destruct (Util.compare a b) as [[]|]; cbn [option_map CompOpp];
    intros H; try discriminate H; reflexivity.
Qed.

Lemma not_lt_le (a b : Util.num) :
  Util.lt b a = false ->
  Util.compare a a = Some Eq -> Util.compare b b = Some Eq ->
  Util.le a b = true.
Proof.
  intros H Ha Hb. destruct (compare_total a b Ha Hb) as [c Hc].
  unfold Util.lt in H. unfold Util.le. rewrite (compare_antisym a b) in H.
  rewrite Hc in *. destruct c; cbn [option_map CompOpp] in H;
    try reflexivity; discriminate H.
Qed.

Lemma le_comparable (a b : Util.num) :
  Util.le a b = true ->
  Util.compare a a = Some Eq /\ Util.compare b b = Some Eq.
Proof.
  unfold Util.le. destruct (Util.compare a b) as [c|] eqn:Hc; [|discriminate].
  intros _. split; [exact (compare_refl_l _ _ _ Hc)|exact (compare_refl_r _ _ _ Hc)].
Qed.

Lemma gt_comparable (a b : Util.num) :
  Util.gt a b = true ->
  Util.compare a a = Some Eq /\ Util.compare b b = Some Eq.
Proof.
  unfold Util.gt. destruct (Util.compare a b) as [c|] eqn:Hc; [|discriminate].
  intros _. split; [exact (compare_refl_l _ _ _ Hc)|exact (compare_refl_r _ _ _ Hc)].
Qed.

Lemma le_refl (a : Util.num) : Util.compare a a = Some Eq -> Util.le a a = true.
Proof. unfold Util.le. intros ->. reflexivity. Qed.

Lemma clamp_bounds (v lo hi : Util.num) :
  Util.le lo hi = true ->
  Util.le lo (Util.clamp v lo hi) = true /\ Util.le (Util.clamp v lo hi) hi = true.
Proof.
  intros Hle. destruct (le_comparable lo hi Hle) as [Hlo Hhi]. split.
  - unfold Util.clamp, Util.max.
    destruct (Util.gt (Util.min v hi) lo) eqn:Hgt.
    + apply gt_le, Hgt.
    + apply le_refl, Hlo.
  - unfold Util.clamp, Util.max.
    destruct (Util.gt (Util.min v hi) lo) eqn:Hgt; [|exact Hle].
    unfold Util.min in *. destruct (Util.lt hi v) eqn:Hlt.
    + apply le_refl, Hhi.
    + apply not_lt_le; [exact Hlt| |exact Hhi].
      exact (proj1 (gt_comparable v lo Hgt)).
Qed.

(** X9: for bounds [min_ <= max_], ints or floats in any mix, [clamp]
    returns a number within the bounds whatever the value, and the result is
    one of its three arguments; a NaN value gives [min_]. *)
Theorem X9_clamp_within_bounds (v lo hi : Util.num) :
  Util.le lo hi = true ->
  Util.le lo (Util.clamp v lo hi) = true /\
  Util.le (Util.clamp v lo hi) hi = true /\
  (Util.clamp v lo hi = v \/ Util.clamp v lo hi = lo \/ Util.clamp v lo hi = hi) /\
  Util.clamp (Util.Float S754_nan) lo hi = lo.
Proof.
  intros Hle. destruct (clamp_bounds v lo hi Hle) as [Hl Hh].
  split; [exact Hl|]. split; [exact Hh|]. split.
  - unfold Util.clamp, Util.max, Util.min.
    destruct (Util.lt hi v);
      match goal with |- context [if ?c then _ else _] => destruct c end; auto.
  - unfold Util.clamp, Util.max, Util.min, Util.lt, Util.gt.
    rewrite (proj1 (compare_nan hi)), (proj2 (compare_nan lo)). reflexivity.
Qed.

(** X10: a value within the bounds is kept: the result of [clamp] equals it
    numerically, and is the value itself when it is above [min_]; a value
    numerically equal to [min_] comes back as [min_] (so [0.0] clamped to
    the ints 0..255 is the int [0]). *)
Theorem X10_clamp_keeps_in_range (v lo hi : Util.num) :
  Util.le lo v = true -> Util.le v hi = true ->
  Util.compare (Util.clamp v lo hi) v = Some Eq /\
  (Util.lt lo v = true -> Util.clamp v lo hi = v) /\
  (Util.lt lo v = false -> Util.clamp v lo hi = lo).
Proof.
  intros H1 H2. unfold Util.clamp, Util.min. rewrite (le_not_lt v hi H2).
  unfold Util.max, Util.gt, Util.lt. unfold Util.le in H1.
  rewrite (compare_antisym lo v).
  destruct (Util.compare lo v) as [c|] eqn:Hc; [|discriminate H1].
  destruct c; cbn [option_map CompOpp]; try discriminate H1.
  - split; [exact Hc|]. split; [discriminate|reflexivity].
  - split; [exact (compare_refl_r _ _ _ Hc)|]. split; [reflexivity|discriminate].
Qed.

(** X11: [clamp] is idempotent: for bounds [min_ <= max_], clamping the
    result again returns the very same number. *)
Theorem X11_clamp_idempotent (v lo hi : Util.num) :
  Util.le lo hi = true ->
  Util.clamp (Util.clamp v lo hi) lo hi = Util.clamp v lo hi.
Proof.
  intros Hle. destruct (clamp_bounds v lo hi Hle) as (Hl & Hh).
  destruct (le_comparable lo hi Hle) as [Hlo Hhi].
  set (r := Util.clamp v lo hi) in *.
  unfold Util.clamp at 1. unfold Util.min. rewrite (le_not_lt r hi Hh).
  unfold Util.max. destruct (Util.gt r lo) eqn:Hgt; [reflexivity|].
  subst r. unfold Util.clamp, Util.max in *.
  destruct (Util.gt (Util.min v hi) lo) eqn:Hm; [|reflexivity].
  rewrite Hm in Hgt. discriminate Hgt.
Qed.

(** ** uchroma/util.py: colour tuples *)

Lemma clamp_int (z lo hi : Z) :
  Util.clamp (Util.Int z) (Util.Int lo) (Util.Int hi) =
  Util.Int (Z.max lo (Z.min z hi)).
Proof.
  unfold Util.clamp, Util.min, Util.max, Util.lt, Util.gt. cbn [Util.compare].
  destruct (Z.compare_spec hi z); cbn [Util.compare];
    match goal with |- context [?a ?= ?b] => destruct (Z.compare_spec a b) end;
    f_equal; lia.
Qed.

Lemma div_255_byte (z : Z) :
  0 <= z <= 255 -> exists r, Util.div_255 (Util.Int z) = inr r /\ in_unit r.
Proof.
  intros H.
  assert (Hall : forallb (fun z =>
            match Util.div_255 (Util.Int z) with
            | inr r => leb zero r && leb r lit_1_0
            | inl _ => false
            end) (seqZ 0 256) = true) by (vm_compute; reflexivity).
  rewrite forallb_forall in Hall. specialize (Hall z (byte_range z H)).
  destruct (Util.div_255 (Util.Int z)) as [|r]; [discriminate|].
  apply andb_prop in Hall. exists r. split; [reflexivity|exact Hall].
Qed.

Lemma lit_255_0_digits : Zdigits2 (Z.pos 8972014882652160) = 53.
Proof. reflexivity. Qed.

Lemma lit_255_0_value : Z.pos 8972014882652160 = 255 * 2 ^ 45.
Proof. reflexivity. Qed.

(** One channel of [rgb_from_tuple]: every number gives a value of [0, 1]. *)
Lemma channel_total (n : Util.num) :
  exists r, Util.channel (Util.VNum n) = inr r /\ in_unit r.
Proof.
  assert (H0 : exists r, Util.builtin (Util.div_255 (Util.Int 0)) = inr r /\ in_unit r).
  { destruct (div_255_byte 0 ltac:(lia)) as (r & -> & Hr). eauto. }
  assert (H255 : exists r, Util.builtin (Util.div_255 (Util.Int 255)) = inr r /\ in_unit r).
  { destruct (div_255_byte 255 ltac:(lia)) as (r & -> & Hr). eauto. }
  cbn [Util.channel]. destruct n as [z|x].
  - rewrite clamp_int.
    destruct (div_255_byte (Z.max 0 (Z.min z 255)) ltac:(lia)) as (r & -> & Hr).
    eauto.
  - destruct x as [s|s| |s m e].
    + exact H0.
    + destruct s; [exact H0|exact H255].
    + exact H0.
    + destruct s.
      * assert (Hc : Util.clamp (Util.Float (S754_finite true m e)) (Util.Int 0)
                       (Util.Int 255) = Util.Int 0).
        { unfold Util.clamp, Util.min, Util.max, Util.lt, Util.gt.
          cbn [Util.compare Util.Z_float_compare cond_Zopp option_map].
          assert (P : forall k, 0 <= k -> 0 < 2 ^ k)
            by (intros; apply Z.pow_pos_nonneg; lia).
          destruct e as [|p|p].
          - destruct (Z.compare_spec 255 (- Z.pos m * 2 ^ 0)); try lia;
              cbn [Util.compare Util.Z_float_compare cond_Zopp option_map];
              destruct (Z.compare_spec 0 (- Z.pos m * 2 ^ 0)); try lia; reflexivity.
          - pose proof (P (Z.pos p) ltac:(lia)).
            destruct (Z.compare_spec 255 (- Z.pos m * 2 ^ Z.pos p)); try nia;
              cbn [Util.compare Util.Z_float_compare cond_Zopp option_map];
              destruct (Z.compare_spec 0 (- Z.pos m * 2 ^ Z.pos p)); try nia;
              reflexivity.
          - pose proof (P (Z.pos p) ltac:(lia)).
            destruct (Z.compare_spec (255 * 2 ^ Z.pos p) (- Z.pos m)); try nia;
              cbn [Util.compare Util.Z_float_compare cond_Zopp option_map];
              destruct (Z.compare_spec (0 * 2 ^ Z.pos p) (- Z.pos m)); try nia;
              reflexivity. }
        rewrite Hc. exact H0.
      * unfold Util.clamp, Util.min.
        destruct (Util.lt (Util.Int 255) (Util.Float (S754_finite false m e))) eqn:Hlt.
        { exact H255. }
        assert (Hgt : Util.gt (Util.Float (S754_finite false m e)) (Util.Int 0) = true).
        { unfold Util.gt.
          cbn [Util.compare Util.Z_float_compare cond_Zopp option_map].
          assert (P : forall k, 0 <= k -> 0 < 2 ^ k)
            by (intros; apply Z.pow_pos_nonneg; lia).
          destruct e as [|p|p].
          - destruct (Z.compare_spec 0 (Z.pos m * 2 ^ 0)); try lia; reflexivity.
          - pose proof (P (Z.pos p) ltac:(lia)).
            destruct (Z.compare_spec 0 (Z.pos m * 2 ^ Z.pos p)); try nia; reflexivity.
          - destruct (Z.compare_spec (0 * 2 ^ Z.pos p) (Z.pos m)); try lia; reflexivity. }
        unfold Util.max. rewrite Hgt. cbn [Util.div_255 Util.builtin].
        eexists. split; [reflexivity|].
        unfold lit_255_0.
        apply (RoundFacts.div_unit m 8972014882652160 e 255 ltac:(lia)
                 ltac:(reflexivity) lit_255_0_value lit_255_0_digits).
        unfold Util.lt in Hlt.
        cbn [Util.compare Util.Z_float_compare cond_Zopp] in Hlt.
        unfold at_most. destruct e as [|p|p].
        -- destruct (Z.compare_spec 255 (Z.pos m * 2 ^ 0)); try discriminate Hlt; lia.
        -- destruct (Z.compare_spec 255 (Z.pos m * 2 ^ Z.pos p));
             try discriminate Hlt; lia.
        -- destruct (Z.compare_spec (255 * 2 ^ Z.pos p) (Z.pos m));
             try discriminate Hlt; lia.
Qed.

(** X12: [rgb_from_tuple] on a sequence that starts with three numbers (ints
    or floats, in or out of 0..255, infinite or NaN) never raises: it returns
    an opaque colour whose three channels lie in [0.0, 1.0]; what follows the
    first three entries is ignored.  An empty sequence raises [IndexError]
    and one of one or two entries [TypeError]. *)
Theorem X12_rgb_from_tuple_channels (a b c : Util.num) (rest : list Util.value) :
  (exists r g b',
     Util.rgb_from_tuple (Util.VNum a :: Util.VNum b :: Util.VNum c :: rest) =
       inr (NewFromRgb r g b' lit_1_0) /\
     in_unit r /\ in_unit g /\ in_unit b') /\
  Util.rgb_from_tuple [] = inl (Util.Builtin IndexError) /\
  (forall x, Util.rgb_from_tuple [x] = inl Util.TypeError) /\
  (forall x y, Util.rgb_from_tuple [x; y] = inl Util.TypeError).
Proof.
  split; [|repeat split].
  destruct (channel_total a) as (r & Hr & Ir).
  destruct (channel_total b) as (g & Hg & Ig).
  destruct (channel_total c) as (b' & Hb & Ib).
  exists r, g, b'. split; [|auto].
  unfold Util.rgb_from_tuple.
  destruct (Z.leb_spec 3 (Z.of_nat (length (Util.VNum a :: Util.VNum b :: Util.VNum c :: rest))))
    as [_|Hl]; [|cbn [length] in Hl; lia].
  rewrite Hr, Hg, Hb. reflexivity.
Qed.

(** One entry of [rgb_to_int_tuple]: an int of 0..255 that the conversion
    leaves as it is. *)
Lemma int_channel_fixed (x y : Util.value) :
  Util.int_channel x = inr y ->
  exists z, y = Util.VNum (Util.Int z) /\ 0 <= z <= 255 /\
            Util.int_channel y = inr y.
Proof.
  unfold Util.int_channel. destruct x as [| | |n|]; try discriminate.
  destruct (Util.round n) as [|z]; [discriminate|].
  rewrite clamp_int. intros H. injection H as <-.
  exists (Z.max 0 (Z.min z 255)). split; [reflexivity|]. split; [lia|].
  cbn [Util.round]. rewrite clamp_int. do 3 f_equal. lia.
Qed.

(** [rgb_to_int_tuple] returns for a sequence of at least three entries,
    each of the first three converted on its own. *)
Lemma rgb_to_int_tuple_inv (arg : list Util.value) (v : Util.value) :
  Util.rgb_to_int_tuple arg = inr v ->
  exists x0 x1 x2 rest y0 y1 y2,
    arg = x0 :: x1 :: x2 :: rest /\
    Util.int_channel x0 = inr y0 /\ Util.int_channel x1 = inr y1 /\
    Util.int_channel x2 = inr y2 /\ v = Util.VSeq Util.tuple [y0; y1; y2].
Proof.
  unfold Util.rgb_to_int_tuple.
  destruct (Z.leb_spec 3 (Z.of_nat (length arg))) as [Hl|Hl].
  - destruct arg as [|x0 [|x1 [|x2 rest]]]; cbn [length] in Hl; try lia.
    cbn [take Util.collect].
    destruct (Util.int_channel x0) as [|y0] eqn:H0; [discriminate|].
    destruct (Util.int_channel x1) as [|y1] eqn:H1; [discriminate|].
    destruct (Util.int_channel x2) as [|y2] eqn:H2; [discriminate|].
    intros H. injection H as <-. exists x0, x1, x2, rest, y0, y1, y2.
    repeat split; assumption.
  - destruct arg as [|x0 arg]; discriminate.
Qed.

(** X13: when [rgb_to_int_tuple] returns, the result is a tuple of exactly
    three ints, each within 0..255, and sanitizing that tuple again returns
    it unchanged. *)
Theorem X13_rgb_to_int_tuple_sanitizes (arg : list Util.value) (v : Util.value) :
  Util.rgb_to_int_tuple arg = inr v ->
  exists r g b,
    v = Util.int_tuple [r; g; b] /\
    0 <= r <= 255 /\ 0 <= g <= 255 /\ 0 <= b <= 255 /\
    Util.rgb_to_int_tuple
      [Util.VNum (Util.Int r); Util.VNum (Util.Int g); Util.VNum (Util.Int b)] = inr v.
Proof.
  intros H.
  destruct (rgb_to_int_tuple_inv arg v H)
    as (x0 & x1 & x2 & rest & y0 & y1 & y2 & _ & H0 & H1 & H2 & ->).
  destruct (int_channel_fixed _ _ H0) as (r & -> & Hr & Er).
  destruct (int_channel_fixed _ _ H1) as (g & -> & Hg & Eg).
  destruct (int_channel_fixed _ _ H2) as (b & -> & Hb & Eb).
  exists r, g, b. split; [reflexivity|]. repeat (split; [lia|]).
  unfold Util.rgb_to_int_tuple. cbn [length take Util.collect].
  rewrite Er, Eg, Eb. reflexivity.
Qed.

Section Conversions.

Context `{lib : ColorLibrary}.

(** grapefruit's [Color.intTuple]. *)
Variable intTuple : Color -> list Z.

Lemma value_nested_ind (P : Util.value -> Prop) :
  P Util.VNone -> (forall c, P (Util.VColor c)) -> (forall s, P (Util.VStr s)) ->
  (forall n, P (Util.VNum n)) ->
  (forall k items, Forall P items -> P (Util.VSeq k items)) ->
  forall v, P v.
Proof.
  intros HN HC HS HM HQ. fix IH 1. intros [| c | s | n | k items].
  - exact HN.
  - apply HC.
  - apply HS.
  - apply HM.
  - apply HQ. induction items as [|x items IHitems].
    + constructor.
    + constructor; [apply IH|exact IHitems].
Qed.

Lemma collect_fixed (f : Util.value -> Util.res Util.value) xs ys :
  Forall (fun x => forall v, f x = inr v -> f v = inr v) xs ->
  Util.collect f xs = inr ys -> Util.collect f ys = inr ys.
Proof.
  intros Hall. revert ys. induction Hall as [|x xs Hx _ IH]; intros ys;
    cbn [Util.collect].
  - intros H. injection H as <-. reflexivity.
  - destruct (f x) as [|y] eqn:Hy; [discriminate|].
    destruct (Util.collect f xs) as [|ys'] eqn:Hys; [discriminate|].
    intros H. injection H as <-. cbn [Util.collect].
    rewrite (Hx y eq_refl), (IH ys' eq_refl). reflexivity.
Qed.

Lemma to_color_nested (x c : Util.value) :
  Util.to_color x = inr c -> Util.is_nested x = true -> Util.is_nested c = true.
Proof.
  destruct x as [| c0 | s | n | k items]; cbn [Util.to_color Util.is_nested];
    try discriminate.
  - intros H _. injection H as <-. reflexivity.
  - destruct (Html.NewFromHtml s); [discriminate|].
    intros H _. injection H as <-. reflexivity.
  - destruct items as [|x items]; [discriminate|].
    destruct (Util.is_nested x).
    + destruct (Util.collect Util.to_color (x :: items)); [discriminate|].
      intros H _. injection H as <-. reflexivity.
    + destruct (Util.rgb_from_tuple (x :: items)); [discriminate|].
      intros H _. injection H as <-. reflexivity.
Qed.

(** X14: [to_color] is idempotent: whatever it returns ([None], a colour, a
    list of such, nested to any depth), converting the result again returns
    it unchanged. *)
Theorem X14_to_color_idempotent (arg v : Util.value) :
  Util.to_color arg = inr v -> Util.to_color v = inr v.
Proof.
  revert v. induction arg as [| c | s | n | k items IH] using value_nested_ind;
    intros v; cbn [Util.to_color].
  - intros H. injection H as <-. reflexivity.
  - intros H. injection H as <-. reflexivity.
  - destruct (Html.NewFromHtml s); [discriminate|].
    intros H. injection H as <-. reflexivity.
  - discriminate.
  - destruct items as [|x items]; [discriminate|].
    destruct (Util.is_nested x) eqn:Hn.
    + destruct (Util.collect Util.to_color (x :: items)) as [|colors] eqn:Hc;
        [discriminate|].
      intros H. injection H as <-.
      pose proof (collect_fixed _ _ _ IH Hc) as Hfix.
      cbn [Util.collect] in Hc.
      destruct (Util.to_color x) as [|c0] eqn:H0; [discriminate|].
      destruct (Util.collect Util.to_color items) as [|cs]; [discriminate|].
      injection Hc as <-.
      cbn [Util.to_color]. rewrite (to_color_nested x c0 H0 Hn).
      rewrite Hfix. reflexivity.
    + destruct (Util.rgb_from_tuple (x :: items)); [discriminate|].
      intros H. injection H as <-. reflexivity.
Qed.

(** X15: [to_rgb] on a tuple or list that starts with a number returns, when
    it returns, a tuple of three ints within 0..255, which [to_rgb] maps to
    itself; [None] gives [(0, 0, 0)], again a fixed point. *)
Theorem X15_to_rgb_of_numbers (k : Util.seqkind) (n : Util.num)
    (rest : list Util.value) (v : Util.value) :
  Util.to_rgb intTuple (Util.VSeq k (Util.VNum n :: rest)) = inr v ->
  (exists r g b, v = Util.int_tuple [r; g; b] /\
     0 <= r <= 255 /\ 0 <= g <= 255 /\ 0 <= b <= 255) /\
  Util.to_rgb intTuple v = inr v /\
  Util.to_rgb intTuple Util.VNone = inr (Util.int_tuple [0; 0; 0]) /\
  Util.to_rgb intTuple (Util.int_tuple [0; 0; 0]) = inr (Util.int_tuple [0; 0; 0]).
Proof.
  cbn [Util.to_rgb Util.is_nested]. intros H.
  destruct (rgb_to_int_tuple_inv _ v H)
    as (x0 & x1 & x2 & rest' & y0 & y1 & y2 & _ & H0 & H1 & H2 & ->).
  destruct (int_channel_fixed _ _ H0) as (r & -> & Hr & Er).
  destruct (int_channel_fixed _ _ H1) as (g & -> & Hg & Eg).
  destruct (int_channel_fixed _ _ H2) as (b & -> & Hb & Eb).
  split; [exists r, g, b; auto|]. split; [|split; reflexivity].
  cbn [Util.to_rgb Util.is_nested]. unfold Util.rgb_to_int_tuple.
  cbn [length take Util.collect]. rewrite Er, Eg, Eb. reflexivity.
Qed.






End Conversions.

(** ** The effect at work on the sample objects *)

#[local] Existing Instance sample_library.

Lemma constructed_new :
  new_Reaction [] (empty_world sample_heap) = inr (tt, constructed).
Proof. vm_compute. reflexivity. Qed.

Lemma constructed_reachable : reachable constructed.
Proof. exact (reach_new (empty_world sample_heap) [] constructed eq_refl constructed_new). Qed.

Lemma constructed_built : table_built (self constructed) default_table.
Proof. repeat split. Qed.

Lemma sample_events_valid :
  Forall (fun ev => unit_interval (percent_complete (heap constructed ev)))
    [0%nat; 1%nat; 2%nat].
Proof. repeat constructor. Qed.

Lemma C1_witness :
  table_built (self constructed) default_table /\
  unit_interval (percent_complete (heap constructed 0%nat)) /\
  exists c,
    process_event [0%nat] 0%nat constructed =
      inr (tt, after_event 0%nat c constructed) /\
    fade_color (self constructed) default_table lit_1_0 = Some c.
Proof.
  split; [exact constructed_built|]. split; [repeat split|].
  destruct (C1_fade_color_resolution [0%nat] 0%nat default_table constructed
              constructed_built ltac:(repeat split)) as (c & H1 & _ & H3 & _).
  exists c. split; assumption.
Defined.

Lemma C4_witness :
  1 <= 6 <= 9 /\
  (exists w', set_trait (SetSpeed 9) constructed = inr (tt, w') /\
     speed (self w') = 9 /\ key_expire_time (self w') = Some (expire_time 9)) /\
  expire_time 9 = lit_0_25.
Proof.
  split; [lia|]. split.
  - apply (proj1 (proj2 (C4_key_expire_time 9 constructed ltac:(lia)))).
    discriminate.
  - apply (C4_key_expire_time 9 constructed ltac:(lia)).
Defined.

Lemma C5_witness :
  table_built (self constructed) default_table /\
  valid (percent_complete (heap constructed 1%nat)) = true /\
  leb (percent_complete (heap constructed 1%nat)) lit_1_0 = true /\
  exists idx c,
    Py.int (sub (of_Z 100) (mul lit_0_16 (of_Z 100))) = inr idx /\
    0 <= idx <= 99 /\ Py.getitem default_table idx = inr c /\
    process_event [1%nat] 1%nat constructed =
      inr (tt, after_event 1%nat (Some c) constructed).
Proof.
  split; [exact constructed_built|]. split; [reflexivity|]. split; [reflexivity|].
  destruct (C5_table_index_in_bounds [1%nat] 1%nat default_table constructed
              constructed_built eq_refl eq_refl) as (Habove & _).
  destruct (Habove eq_refl) as (idx & c & Hi & _ & Hr & Hget & Hstep).
  exists idx, c. repeat split; try assumption; lia.
Defined.

Lemma C6_witness :
  coords (heap constructed 1%nat) = Some [] /\
  exists w',
    process_event [1%nat; 0%nat] 1%nat constructed = inr (tt, w') /\
    layer w' = layer constructed /\
    log w' = log constructed ++ [LogError "No coordinates available: %s" 1%nat].
Proof.
  split; [reflexivity|].
  destruct (C6_event_without_coordinates 1%nat [0%nat] constructed
              constructed_reachable ltac:(repeat split)
              (or_intror eq_refl)) as (_ & w' & H1 & H2 & H3 & _).
  exists w'. repeat split; assumption.
Defined.

Lemma C7_witness :
  exists w', _process_events [0%nat; 1%nat; 2%nat] constructed = inr (tt, w') /\
    draw [0%nat; 1%nat; 2%nat] constructed = inr (true, w').
Proof.
  exact (C7_draw_reports_change [0%nat; 1%nat; 2%nat] constructed
           constructed_reachable sample_events_valid).
Defined.

Lemma C8_witness :
  opt_Color_eq_tuple (background_color (self constructed)) [0; 0; 0; 1] = true /\
  exists g w',
    _update_colors (Change.make "color" (Some black) (Some pure_blue)) constructed =
      inr (tt, w') /\
    scheme_calls w' = scheme_calls constructed ++
      [{| call_color := ArgColor black; call_base_color := ArgNone;
          call_steps := 100 |}] /\
    ColorUtils.color_scheme (ArgColor black) ArgNone 100 = inr g /\
    _gradient (self w') = Some g.
Proof.
  split; [reflexivity|].
  exact (C8_black_background_is_undefined_base
           (Change.make "color" (Some black) (Some pure_blue)) constructed
           (ex_intro _ pure_blue eq_refl) eq_refl).
Defined.

Lemma C9_witness :
  (exists g, table_built (self constructed) g) /\
  Forall (fun c => call_steps c = 100) (scheme_calls constructed).
Proof.
  destruct (C9_table_length_is_100 constructed constructed_reachable)
    as (H1 & H2 & _).
  split; assumption.
Defined.

Lemma constructed_init :
  __init__ [] (empty_world sample_heap) = inr (tt, constructed).
Proof. vm_compute. reflexivity. Qed.

Lemma C10_witness :
  init_colors (self (empty_world sample_heap)) = false /\
  scheme_calls constructed = [default_call] /\
  exists g, _gradient (self constructed) = Some g /\ g !! 99%nat = Some black.
Proof.
  split; [reflexivity|].
  destruct (C10_default_base_is_literal_black [] (empty_world sample_heap)
              (empty_world sample_heap) constructed eq_refl eq_refl
              constructed_init) as (H1 & _ & _ & g & Hg & _ & H99 & _).
  split; [exact H1|]. exists g. split; assumption.
Defined.

(** C2 (the code departs from it): the guard of the resolution step looks the
    key up in the batch of events, where it never is, and not in the data bag
    of the event.  An event whose bag already holds red and whose decay
    progress is 1.0 is given the head of the table again, in one pass and in
    two passes over the same object of one frame: the stored colour is
    overwritten, not reused. *)
Theorem C2_stored_color_is_recomputed :
  (forall events,
     Py.contains (Py.Event <$> events) (Py.Str REACT_COLOR_KEY) = false) /\
  data (heap constructed 2%nat) !! REACT_COLOR_KEY = Some (Some pure_red) /\
  (exists w', draw [2%nat] constructed = inr (true, w') /\
     data (heap w' 2%nat) !! REACT_COLOR_KEY = Some (Some white) /\
     layer w' = [(1, 3, Some white)]) /\
  (exists w', draw [2%nat; 2%nat] constructed = inr (true, w') /\
     data (heap w' 2%nat) !! REACT_COLOR_KEY = Some (Some white) /\
     layer w' = [(1, 3, Some white); (1, 3, Some white)]).
Proof.
  split; [exact (key_not_in_events REACT_COLOR_KEY)|].
  split; [vm_compute; reflexivity|].
  split; eexists; (split; [vm_compute; reflexivity|]);
    split; vm_compute; reflexivity.
Qed.

(** C3 (the code departs from it): [_update_colors] observes both
    [background_color] and [color] and runs once for each trait that changed.
    An update of both, as one held transaction or as two assignments, calls
    the colour library twice: the table is rebuilt once per changed field. *)
Theorem C3_update_rebuilds_once_per_field :
  (exists w',
     hold_trait_notifications
       [SetBackgroundColor (Some pure_red); SetColor (Some pure_blue)]
       constructed = inr (tt, w') /\
     scheme_calls w' =
       [default_call;
        {| call_color := ArgColor pure_blue; call_base_color := ArgColor pure_red;
           call_steps := 100 |};
        {| call_color := ArgColor pure_blue; call_base_color := ArgColor pure_red;
           call_steps := 100 |}]) /\
  (exists w',
     (set_trait (SetBackgroundColor (Some pure_red)) ;;
      set_trait (SetColor (Some pure_blue))) constructed = inr (tt, w') /\
     scheme_calls w' =
       [default_call;
        {| call_color := ArgColor black; call_base_color := ArgColor pure_red;
           call_steps := 100 |};
        {| call_color := ArgColor pure_blue; call_base_color := ArgColor pure_red;
           call_steps := 100 |}]).
Proof.
  split; eexists; (split; [vm_compute; reflexivity|]); vm_compute; reflexivity.
Qed.

(** ** The helpers and the frame loop on sample inputs *)

Lemma X2_witness :
  0 <= 1 /\ Util.test_bit (Util.set_bits 5 [true; true]) 1 = inr true.
Proof.
  split; [lia|]. exact (X2_test_bit_of_set_bits 5 [true; true] 1 ltac:(lia)).
Defined.

Lemma X3_witness :
  0 <= 5 < 2 ^ 3 /\ 0 <= 2 < 2 ^ 3 /\ Util.set_bits 2 [true; false; true] = 5.
Proof.
  split; [lia|]. split; [lia|].
  apply (X3_set_bits_rebuilds_value 5 [true; false; true]); [simpl; lia| |simpl; lia].
  intros [|[|[|i]]] b H; simpl in H; try discriminate H;
    injection H as <-; reflexivity.
Defined.

Lemma X4_witness :
  0 <= 240 < 2 ^ 8 /\
  Util.to_byte (Util.set_bits 240 [true; false; true]) =
    inr [Util.set_bits 240 [true; false; true]].
Proof.
  split; [lia|].
  apply (X4_set_bits_stays_in_width 240 [true; false; true] 8); simpl; lia.
Defined.

Lemma X6_witness :
  0 <= 128 <= 255 /\
  exists p, Util.scale_brightness (Util.Int 128) true = inr (Util.Float p) /\
            Util.scale_brightness (Util.Float p) false = inr (Util.Int 128).
Proof.
  split; [lia|]. apply (X6_brightness_round_trip 128). lia.
Defined.

Lemma X8_witness :
  valid lit_2_25 = true /\
  exists z, Util.scale_brightness (Util.Float lit_2_25) false = inr (Util.Int z) /\
            0 <= z <= 255.
Proof.
  split; [reflexivity|].
  apply (proj1 (X8_brightness_to_hw_range lit_2_25 eq_refl)); reflexivity.
Defined.

Lemma X9_witness :
  Util.le (Util.Int 0) (Util.Int 255) = true /\
  Util.le (Util.clamp (Util.Float lit_2_25) (Util.Int 0) (Util.Int 255))
          (Util.Int 255) = true.
Proof.
  split; [reflexivity|].
  apply (X9_clamp_within_bounds (Util.Float lit_2_25) (Util.Int 0) (Util.Int 255)).
  reflexivity.
Defined.

Lemma X10_witness :
  Util.le (Util.Int 0) (Util.Float lit_2_25) = true /\
  Util.le (Util.Float lit_2_25) (Util.Int 255) = true /\
  Util.compare (Util.clamp (Util.Float lit_2_25) (Util.Int 0) (Util.Int 255))
               (Util.Float lit_2_25) = Some Eq.
Proof.
  split; [reflexivity|]. split; [reflexivity|].
  apply (X10_clamp_keeps_in_range (Util.Float lit_2_25) (Util.Int 0) (Util.Int 255));
    reflexivity.
Defined.

Lemma X11_witness :
  Util.le (Util.Int 0) (Util.Int 255) = true /\
  Util.clamp (Util.clamp (Util.Int 300) (Util.Int 0) (Util.Int 255))
             (Util.Int 0) (Util.Int 255) =
  Util.clamp (Util.Int 300) (Util.Int 0) (Util.Int 255).
Proof.
  split; [reflexivity|].
  apply (X11_clamp_idempotent (Util.Int 300) (Util.Int 0) (Util.Int 255)).
  reflexivity.
Defined.

Lemma X13_witness :
  Util.rgb_to_int_tuple
    [Util.VNum (Util.Int 300); Util.VNum (Util.Int (-5)); Util.VNum (Util.Float lit_2_25)] =
    inr (Util.int_tuple [255; 0; 2]) /\
  exists r g b, Util.int_tuple [255; 0; 2] = Util.int_tuple [r; g; b] /\
    0 <= r <= 255 /\ 0 <= g <= 255 /\ 0 <= b <= 255.
Proof.
  split; [vm_compute; reflexivity|].
  destruct (X13_rgb_to_int_tuple_sanitizes
              [Util.VNum (Util.Int 300); Util.VNum (Util.Int (-5));
               Util.VNum (Util.Float lit_2_25)]
              (Util.int_tuple [255; 0; 2]) ltac:(vm_compute; reflexivity))
    as (r & g & b & H & Hr & Hg & Hb & _).
  exists r, g, b. auto.
Defined.

Lemma X14_witness :
  exists v,
    Util.to_color
      (Util.VSeq Util.tuple
         [Util.VStr "#ff0000"; Util.VNone;
          Util.VSeq Util.list_ [Util.VNum (Util.Int 0); Util.VNum (Util.Int 0);
                                Util.VNum (Util.Int 255)]]) = inr v /\
    Util.to_color v = inr v.
Proof.
  eexists. split; [vm_compute; reflexivity|].
  apply (X14_to_color_idempotent
           (Util.VSeq Util.tuple
              [Util.VStr "#ff0000"; Util.VNone;
               Util.VSeq Util.list_ [Util.VNum (Util.Int 0); Util.VNum (Util.Int 0);
                                     Util.VNum (Util.Int 255)]])).
  vm_compute. reflexivity.
Defined.

Lemma X15_witness :
  Util.to_rgb sample_intTuple
    (Util.VSeq Util.list_
       [Util.VNum (Util.Int 300); Util.VNum (Util.Int 7); Util.VNum (Util.Int (-1));
        Util.VNum (Util.Int 9)]) = inr (Util.int_tuple [255; 7; 0]) /\
  Util.to_rgb sample_intTuple (Util.int_tuple [255; 7; 0]) =
    inr (Util.int_tuple [255; 7; 0]).
Proof.
  split; [vm_compute; reflexivity|].
  apply (X15_to_rgb_of_numbers sample_intTuple Util.list_ (Util.Int 300)
           [Util.VNum (Util.Int 7); Util.VNum (Util.Int (-1)); Util.VNum (Util.Int 9)]).
  vm_compute. reflexivity.
Defined.


Lemma X17_witness :
  exists w', draw [0%nat; 1%nat; 2%nat] constructed = inr (true, w') /\
    self w' = self constructed /\ exists l, layer w' = layer constructed ++ l.
Proof.
  eexists. split; [vm_compute; reflexivity|].
  destruct (X17_draw_only_appends [0%nat; 1%nat; 2%nat] true constructed _
              ltac:(vm_compute; reflexivity)) as (_ & Hs & _ & Hl & _).
  split; [exact Hs|exact Hl].
Defined.

Lemma X18_witness :
  exists w', draw [0%nat; 1%nat; 2%nat] constructed = inr (true, w') /\
    layer w' = layer constructed ++
      flat_map (fun ev => event_puts (self constructed) default_table
                            (heap constructed ev)) [0%nat; 1%nat; 2%nat].
Proof.
  destruct (X18_draw_writes_batch 0%nat [1%nat; 2%nat] default_table constructed
              constructed_built sample_events_valid) as (w' & Hd & Hl & _).
  exists w'. split; [exact Hd|exact Hl].
Defined.

Lemma X19_witness :
  1 <= speed (self constructed) <= 9 /\
  key_expire_time (self constructed) = Some (expire_time (speed (self constructed))).
Proof. exact (X19_reachable_speed_inv constructed constructed_reachable). Defined.

Lemma X20_witness :
  exists w', set_trait (SetColor None) constructed = inr (tt, w') /\
    color (self w') = None /\ _gradient (self w') = Some default_table.
Proof.
  destruct (X20_unset_colour_keeps_table (SetColor None) constructed
              (or_introl eq_refl)) as (w' & Hs & Hc & _ & Hg & _).
  exists w'. split; [exact Hs|]. split; [exact (Hc eq_refl)|exact Hg].
Defined.
